(** * torch-nansy: Yingram feature extractor and paired speaker dataset

    A shallow embedding of [nansy/yingram.py] and [utils/dataset.py].

    Numbers.  The tensors of [Yingram.forward] hold floating-point values;
    here they are real numbers (exact arithmetic, no rounding).  A tensor
    element that is not a finite number (an infinity or a NaN, which only a
    division by zero produces in this program) is [None]; once produced it is
    never turned back into a finite number by the operations used here.

    Exceptions.  A Python call that raises is a value [Err e]; a call that
    returns is [Ok v]. *)

From Stdlib Require Import String Ascii.
From Stdlib Require Import Reals Lra Lia ZArith List Bool Permutation.
Import ListNotations.

(** ** Exceptions and results *)

Inductive exn : Type :=
| RuntimeError        (* raised by torch: shape mismatch, bad argument *)
| IndexError          (* index out of range *)
| ZeroDivisionError   (* Python scalar division by zero *)
| ValueError          (* int(nan), negative seed *)
| OverflowError       (* int(inf) *)
| KeyError.           (* missing dict key *)

Inductive result (A : Type) : Type :=
| Ok (a : A)
| Err (e : exn).

Arguments Ok {A} a.
Arguments Err {A} e.

Definition bind {A B : Type} (m : result A) (k : A -> result B) : result B :=
  match m with
  | Ok a => k a
  | Err e => Err e
  end.

Notation "x <- m ;; k" := (bind m (fun x => k))
  (at level 61, m at next level, right associativity).

Fixpoint mapM {A B : Type} (f : A -> result B) (l : list A) : result (list B) :=
  match l with
  | [] => Ok []
  | a :: l' => b <- f a ;; bs <- mapM f l' ;; Ok (b :: bs)
  end.

(** Python slice bounds: a negative bound counts from the end, and the bound
    is then clamped to [0, len]. *)
Definition slice_bound (len i : Z) : Z :=
  Z.max 0 (Z.min len (if (i <? 0)%Z then (i + len)%Z else i)).

(** [l[start:stop]] *)
Definition slice {A : Type} (l : list A) (start stop : Z) : list A :=
  let n := Z.of_nat (length l) in
  let a := slice_bound n start in
  let b := slice_bound n stop in
  firstn (Z.to_nat (b - a)) (skipn (Z.to_nat a) l).

(** [l[start:]] *)
Definition slice_from {A : Type} (l : list A) (start : Z) : list A :=
  slice l start (Z.of_nat (length l)).

(** [l[:stop]] *)
Definition slice_to {A : Type} (l : list A) (stop : Z) : list A :=
  slice l 0 stop.

Module Yingram.

Open Scope R_scope.

Record config : Type := {
  strides : Z;
  windows : Z;
  lmin : Z;
  lmax : Z;
  sr : Z
}.

(** [Yingram.__init__]: stores its arguments. *)
Definition __init__ (strides windows lmin lmax sr : Z) : result config :=
  Ok {| strides := strides; windows := windows;
        lmin := lmin; lmax := lmax; sr := sr |}.

(** *** Tensor helpers (last dimension of a tensor as a list) *)

(** [t[..., i]] for an integer or an integer-tensor index: a negative index
    counts from the end, an index outside the dimension raises. *)
Definition index {A : Type} (l : list A) (i : Z) : result A :=
  let n := Z.of_nat (length l) in
  let j := if (i <? 0)%Z then (i + n)%Z else i in
  if (j <? 0)%Z then Err IndexError
  else match nth_error l (Z.to_nat j) with
       | Some a => Ok a
       | None => Err IndexError
       end.

(** Elementwise binary operation on two tensors of equal length. *)
Fixpoint map2 {A B C : Type} (f : A -> B -> C) (a : list A) (b : list B) : list C :=
  match a, b with
  | x :: a', y :: b' => f x y :: map2 f a' b'
  | _, _ => []
  end.

(** Elementwise binary operation with torch broadcasting on the last
    dimension: equal sizes, or one of them of size 1. *)
Definition broadcast {A B C : Type} (f : A -> B -> C) (a : list A) (b : list B)
  : result (list C) :=
  if Nat.eqb (length a) (length b) then Ok (map2 f a b)
  else match a, b with
       | [x], _ => Ok (map (f x) b)
       | _, [y] => Ok (map (fun x => f x y) a)
       | _, _ => Err RuntimeError
       end.

(** [torch.arange(a, b)] *)
Definition arange (a b : Z) : result (list Z) :=
  if (b <? a)%Z then Err RuntimeError
  else Ok (map (fun i => (a + Z.of_nat i)%Z) (seq 0 (Z.to_nat (b - a)))).

(** [F.pad(x, [0, w])]: [w] zeros on the right; a negative [w] crops. *)
Definition pad_right (x : list R) (w : Z) : result (list R) :=
  if (0 <=? w)%Z then Ok (x ++ repeat 0 (Z.to_nat w))
  else if (Z.of_nat (length x) + w <? 0)%Z then Err RuntimeError
  else Ok (firstn (Z.to_nat (Z.of_nat (length x) + w)) x).

(** [x.unfold(-1, size, step)]: the windows of length [size] starting at
    every multiple of [step] that fit in [x]. *)
Definition unfold (x : list R) (size step : Z) : result (list (list R)) :=
  let n := Z.of_nat (length x) in
  if (size <? 0)%Z || (n <? size)%Z || (step <=? 0)%Z then Err RuntimeError
  else Ok (map (fun i => firstn (Z.to_nat size) (skipn (i * Z.to_nat step) x))
               (seq 0 (Z.to_nat ((n - size) / step) + 1))).

Definition Rsum (l : list R) : R := fold_right Rplus 0 l.

(** [x.cumsum(dim=-1)] *)
Fixpoint cumsum_from (acc : R) (l : list R) : list R :=
  match l with
  | [] => []
  | a :: l' => (acc + a) :: cumsum_from (acc + a) l'
  end.

Definition cumsum (l : list R) : list R := cumsum_from 0 l.

(** *** Fourier transforms *)

(** The angle [2 pi j k / n]. *)
Definition angle (j k n : nat) : R := 2 * PI * INR (j * k) / INR n.

(** [torch.fft.rfft(x, dim=-1)]: bins [0 .. n/2] of the discrete Fourier
    transform of the real signal [x] of length [n], as (real, imaginary). *)
Definition rfft (x : list R) : result (list (R * R)) :=
  let n := length x in
  if Nat.eqb n 0 then Err RuntimeError
  else Ok (map (fun k =>
                  (Rsum (map (fun j => nth j x 0 * cos (angle j k n)) (seq 0 n)),
                   - Rsum (map (fun j => nth j x 0 * sin (angle j k n)) (seq 0 n))))
               (seq 0 (n / 2 + 1))).

(** [z.abs().square()] of a complex number: a real number. *)
Definition abs_square (z : R * R) : R :=
  Rsqr (sqrt (fst z * fst z + snd z * snd z)).

(** [torch.fft.irfft(y, dim=-1)] for a real-valued half spectrum [y] of [m]
    bins: the output has [n = 2 (m - 1)] samples (the default size), bins
    above [n/2] being the mirror image of the ones below. *)
Definition irfft (y : list R) : result (list R) :=
  let m := length y in
  let n := (2 * (m - 1))%nat in
  if Nat.eqb n 0 then Err RuntimeError
  else Ok (map (fun t =>
                  (nth 0 y 0
                   + Rsum (map (fun k => 2 * nth k y 0 * cos (angle k t n))
                               (seq 1 (m - 2)))
                   + nth (m - 1) y 0 * cos (angle (m - 1) t n)) / INR n)
               (seq 0 n)).

(** *** Non-finite values *)

Definition fdiv (a b : R) : option R :=
  if Req_dec_T b 0 then None else Some (a / b).

Definition lift2 (f : R -> R -> R) (a b : option R) : option R :=
  match a, b with
  | Some x, Some y => Some (f x y)
  | _, _ => None
  end.

Definition fsub := lift2 Rminus.
Definition fadd := lift2 Rplus.
Definition fmul := lift2 Rmult.

Definition odiv (a : option R) (b : R) : option R :=
  match a with
  | Some x => fdiv x b
  | None => None
  end.

(** The constant [1e-7]. *)
Definition eps : R := / 10000000.

(** *** The difference function and its normalisation *)

(** Lines 52-64: the difference function of one frame. *)
Definition difference (cfg : config) (frame : list R) : result (list R) :=
  let w := windows cfg in
  let tau_max := lmax cfg in
  fft <- rfft frame ;;
  corr <- irfft (map abs_square fft) ;;
  let cumsum := 0 :: cumsum (map Rsqr frame) in
  a <- broadcast Rminus (rev (slice cumsum (w - tau_max) w))
                        (map (Rmult 2) (slice_to corr tau_max)) ;;
  cw <- index cumsum w ;;
  b <- broadcast Rplus a [cw] ;;
  broadcast Rminus b (slice_to cumsum tau_max).

(** Lines 66-71: the cumulative mean normalised difference. *)
Definition cumulative (cfg : config) (diff : list R) : result (list (option R)) :=
  let tau_max := lmax cfg in
  let d1 := slice_from diff 1 in
  let cumdiff := map2 fdiv d1 (map (fun s => s + eps) (cumsum d1)) in
  taus <- arange 1 tau_max ;;
  cumdiff <- broadcast (fun c t => fmul c (Some (IZR t))) cumdiff taus ;;
  Ok (Some 1 :: cumdiff).

(** *** The MIDI grid *)

(** A numpy float64 scalar. *)
Inductive npfloat : Type :=
| Finite (r : R)
| NegInf
| NaN.

Definition Rfloor (r : R) : Z := Int_part r.
Definition Rceil (r : R) : Z := (- Int_part (- r))%Z.
(** Truncation toward zero, as [int(x)] does. *)
Definition Rtrunc (r : R) : Z := if Rle_dec 0 r then Rfloor r else Rceil r.

Definition log2 (x : R) : R := ln x / ln 2.

Definition np_log2 (x : R) : npfloat :=
  if Rlt_dec 0 x then Finite (log2 x)
  else if Req_dec_T x 0 then NegInf else NaN.

Definition np_ceil (x : npfloat) : npfloat :=
  match x with
  | Finite r => Finite (IZR (Rceil r))
  | _ => x
  end.

(** [int(x)] *)
Definition to_int (x : npfloat) : result Z :=
  match x with
  | Finite r => Ok (Rtrunc r)
  | NegInf => Err OverflowError
  | NaN => Err ValueError
  end.

(** [l2m(l) = 12 * np.log2(sr / (440 * l)) + 69] on a Python integer. *)
Definition l2m (cfg : config) (l : Z) : result npfloat :=
  if (440 * l =? 0)%Z then Err ZeroDivisionError
  else Ok (match np_log2 (IZR (sr cfg) / IZR (440 * l)) with
           | Finite y => Finite (12 * y + 69)
           | NegInf => NegInf
           | NaN => NaN
           end).

(** [m2l(m) = sr / (440 * 2 ** ((m - 69) / 12))] on an element of a tensor. *)
Definition m2l (cfg : config) (m : Z) : R :=
  IZR (sr cfg) / (440 * Rpower 2 ((IZR m - 69) / 12)).

(** Lines 79-83 at one grid point: the two reads and the linear
    interpolation between them. *)
Definition interp1 (cumdiff : list (option R)) (lag : R) : result (option R) :=
  let lceil := Rceil lag in
  let lfloor := Rfloor lag in
  hi <- index cumdiff lceil ;;
  lo <- index cumdiff lfloor ;;
  Ok (fadd (odiv (fmul (fsub hi lo) (Some (lag - IZR lfloor)))
                 (IZR (lceil - lfloor)))
           lo).

(** *** forward *)

(** Lines 52-71 on one frame. *)
Definition cmnd_of (cfg : config) (frame : list R) : result (list (option R)) :=
  diff <- difference cfg frame ;;
  cumulative cfg diff.

(** Line 50: the frames of one waveform. *)
Definition frames_of (cfg : config) (audio : list R) : result (list (list R)) :=
  let w := windows cfg in
  padded <- pad_right audio w ;;
  unfold padded w (strides cfg).

(** [Yingram.forward] on one waveform of the batch. *)
Definition forward1 (cfg : config) (audio : list R)
  : result (list (list (option R))) :=
  frames <- frames_of cfg audio ;;
  cumdiffs <- mapM (cmnd_of cfg) frames ;;
  a <- l2m cfg (lmax cfg) ;;
  mmin <- to_int (np_ceil a) ;;
  b <- l2m cfg (lmin cfg) ;;
  mmax <- to_int b ;;
  ms <- arange mmin (mmax + 1) ;;
  let lags := map (m2l cfg) ms in
  mapM (fun cumdiff => mapM (interp1 cumdiff) lags) cumdiffs.

(** [Yingram.forward]: every operation works on the last dimension, so the
    waveforms of the batch are transformed one by one. *)
Definition forward (cfg : config) (audio : list (list R))
  : result (list (list (list (option R)))) :=
  mapM (forward1 cfg) audio.

(** *** Notions used in the statements *)

(** The bounds of the MIDI grid, line 76, where the two conversions are
    finite numbers (a positive sample rate and positive lags). *)
Definition mmin (cfg : config) : Z :=
  Rceil (12 * log2 (IZR (sr cfg) / IZR (440 * lmax cfg)) + 69).

Definition mmax (cfg : config) : Z :=
  Rtrunc (12 * log2 (IZR (sr cfg) / IZR (440 * lmin cfg)) + 69).

(** The MIDI indices [mmin .. mmax]. *)
Definition grid (cfg : config) : list Z :=
  map (fun i => (mmin cfg + Z.of_nat i)%Z)
      (seq 0 (Z.to_nat (mmax cfg + 1 - mmin cfg))).

(** The invariant of the specification's data model. *)
Definition valid (cfg : config) : Prop :=
  (0 < lmin cfg < lmax cfg)%Z /\ (lmax cfg <= windows cfg)%Z /\
  (0 < strides cfg)%Z /\ (0 < windows cfg)%Z.

(** A configuration on which the difference function is well shaped: a
    window of at least two samples, and lags that stay within the
    autocorrelation, which has [2 (windows / 2)] entries. *)
Definition lags_fit (cfg : config) : Prop :=
  (2 <= windows cfg)%Z /\ (1 <= lmax cfg <= 2 * (windows cfg / 2))%Z.

(** The value the normalisation gives at lag [tau >= 1]: the quotient by the
    running sum plus [eps], times the lag; not a finite number when the
    divisor is zero. *)
Definition cmnd_value (diff : list R) (tau : nat) : option R :=
  let s := Rsum (slice diff 1 (Z.of_nat tau + 1)) + eps in
  if Req_dec_T s 0 then None else Some (INR tau * nth tau diff 0 / s).

(** The angle [2 pi z / n] for an integer [z]. *)
Definition ang (n : nat) (z : Z) : R := 2 * PI * IZR z / INR n.

(** 1 on the multiples of [n], 0 elsewhere. *)
Definition delta (n : nat) (d : Z) : R :=
  if (d mod Z.of_nat n =? 0)%Z then 1 else 0.

(** The circular autocorrelation of a frame at lag [t]: the frame against
    its copy rotated by [t]. *)
Definition circular_autocorr (x : list R) (t : nat) : R :=
  Rsum (map (fun j => nth j x 0 * nth ((j + t) mod length x) x 0)
            (seq 0 (length x))).

(** The energy of the first [k] samples of a frame. *)
Definition energy (x : list R) (k : nat) : R :=
  Rsum (map (fun j => Rsqr (nth j x 0)) (seq 0 k)).

(** The products of the circular autocorrelation at lag [tau] that wrap
    around the end of the frame. *)
Definition wrapped (x : list R) (tau : nat) : R :=
  Rsum (map (fun j => nth j x 0 * nth (j + tau - length x) x 0)
            (seq (length x - tau) tau)).

(** A silent frame or waveform. *)
Definition all_zero (l : list R) : Prop := Forall (fun x => x = 0) l.

(** The difference function in the words of the specification and of the
    comment of lines 40-41: for each lag [tau] in [0, lmax), the sum over [j]
    of [(x[j] - x[j + tau])^2], the frame against its shifted copy. *)
Definition direct_difference (cfg : config) (frame : list R) : list R :=
  map (fun tau =>
         Rsum (map (fun j => Rsqr (nth j frame 0 - nth (j + tau) frame 0))
                   (seq 0 (length frame - tau))))
      (seq 0 (Z.to_nat (lmax cfg))).

(** *** Configurations used as examples *)

Definition cfg_small : config :=
  {| strides := 1; windows := 2; lmin := 1; lmax := 2; sr := 16000 |}.

(** Lags 2 to 8 at 1760 Hz: the grid starts at MIDI 57, whose lag is 8. *)
Definition cfg_edge : config :=
  {| strides := 4; windows := 8; lmin := 2; lmax := 8; sr := 1760 |}.

(** Lags 19 to 21 at 8800 Hz: the grid is the single MIDI index 69, whose
    lag is 20. *)
Definition cfg_a4 : config :=
  {| strides := 11; windows := 22; lmin := 19; lmax := 21; sr := 8800 |}.

(** [lmin = lmax]: outside the invariant. *)
Definition cfg_eq : config :=
  {| strides := 11; windows := 22; lmin := 21; lmax := 21; sr := 8800 |}.

(** No stride. *)
Definition cfg_nostride : config :=
  {| strides := 0; windows := 22; lmin := 19; lmax := 21; sr := 8800 |}.

(** [lmax] beyond the window. *)
Definition cfg_beyond : config :=
  {| strides := 11; windows := 22; lmin := 19; lmax := 23; sr := 8800 |}.

(** [lmin = 0]. *)
Definition cfg_lmin0 : config :=
  {| strides := 11; windows := 22; lmin := 0; lmax := 21; sr := 8800 |}.

(** The silent waveform of 22 samples. *)
Definition silence22 : list R := repeat 0 22.

(** The constant waveform of 22 ones. *)
Definition ones22 : list R := repeat 1 22.

(** An odd window with [lmax = windows]: within the invariant. *)
Definition cfg_odd : config :=
  {| strides := 11; windows := 21; lmin := 19; lmax := 21; sr := 8800 |}.

(** A sample rate of zero. *)
Definition cfg_mute : config :=
  {| strides := 11; windows := 22; lmin := 19; lmax := 21; sr := 0 |}.

(** A window of four samples with lags below two. *)
Definition cfg_tail : config :=
  {| strides := 2; windows := 4; lmin := 1; lmax := 2; sr := 16000 |}.

(** *** The two conversions on any number *)

(** [l2m(l) = 12 * np.log2(sr / (440 * l)) + 69], where it is a finite
    number: a positive sample rate and a positive lag. *)
Definition l2m_real (cfg : config) (l : R) : R :=
  12 * log2 (IZR (sr cfg) / (440 * l)) + 69.

(** [m2l(m) = sr / (440 * 2 ** ((m - 69) / 12))] *)
Definition m2l_real (cfg : config) (m : R) : R :=
  IZR (sr cfg) / (440 * Rpower 2 ((m - 69) / 12)).

End Yingram.

Module Dataset.

(** *** Strings *)

Definition has_slash (s : string) : bool :=
  existsb (Ascii.eqb "/"%char) (list_ascii_of_string s).

(** [os.path.basename]: what follows the last ['/']. *)
Fixpoint basename (s : string) : string :=
  match s with
  | EmptyString => EmptyString
  | String c s' =>
      if has_slash s then basename s' else s
  end.

(** [s.replace('.wav', '')] *)
Fixpoint remove_wav (s : string) : string :=
  match s with
  | String c1 (String c2 (String c3 (String c4 s4)) as s') =>
      if (Ascii.eqb c1 "."%char && Ascii.eqb c2 "w"%char
          && Ascii.eqb c3 "a"%char && Ascii.eqb c4 "v"%char)%bool
      then remove_wav s4
      else String c1 (remove_wav s')
  | String c1 s' => String c1 (remove_wav s')
  | EmptyString => EmptyString
  end.

(** *** Dictionaries keyed by speaker, in insertion order *)

Definition dict (V : Type) : Type := list (Z * V).

Fixpoint dict_get {V : Type} (k : Z) (d : dict V) : option V :=
  match d with
  | [] => None
  | (k', v) :: d' => if (k' =? k)%Z then Some v else dict_get k d'
  end.

(** [d[k] = v]: an existing key keeps its place, a new one goes last. *)
Fixpoint dict_set {V : Type} (k : Z) (v : V) (d : dict V) : dict V :=
  match d with
  | [] => [(k, v)]
  | (k', v') :: d' =>
      if (k' =? k)%Z then (k', v) :: d' else (k', v') :: dict_set k v d'
  end.

(** [dict(items)] *)
Definition dict_of_items {V : Type} (items : list (Z * V)) : dict V :=
  fold_left (fun d kv => dict_set (fst kv) (snd kv) d) items [].

(** *** The collaborators *)

(** The data reader: its list of files, and its transcript table from a
    file key to (speaker id, text). *)
Record DataReader : Type := {
  reader_dataset : list string;
  transcript : string -> option (Z * string)
}.

(** numpy's random generator: [seeded s] is the state of
    [np.random.default_rng(s)], [permutation g n] is the result of
    [g.permutation(n)] with the state it leaves. *)
Record Generator : Type := {
  rng : Type;
  seeded : Z -> rng;
  permutation : rng -> nat -> list nat * rng
}.

(** [np.random.default_rng(seed)]: without a seed, the generator is seeded
    from the entropy the operating system provides at that moment; a
    negative seed is refused. *)
Definition default_rng (G : Generator) (seed : option Z) (os_entropy : Z)
  : result (rng G) :=
  match seed with
  | None => Ok (seeded G os_entropy)
  | Some s => if (s <? 0)%Z then Err ValueError else Ok (seeded G s)
  end.

(** *** PairedDataset *)

Definition pair : Type := Z * string * string.

Record PairedDataset : Type := {
  reader : DataReader;
  dataset : list string;
  groups : dict (list string);
  pairs : list pair
}.

Definition set_groups (self : PairedDataset) (g : dict (list string)) :=
  {| reader := reader self; dataset := dataset self;
     groups := g; pairs := pairs self |}.

Definition set_pairs (self : PairedDataset) (p : list pair) :=
  {| reader := reader self; dataset := dataset self;
     groups := groups self; pairs := p |}.

(** [l[i]] on a Python list or a numpy array, [i >= 0]. *)
Definition getitem {A : Type} (l : list A) (i : nat) : result A :=
  match nth_error l i with
  | Some a => Ok a
  | None => Err IndexError
  end.

(** [indices.reshape(-1, 2)] read row by row. *)
Fixpoint reshape2 (l : list nat) : result (list (nat * nat)) :=
  match l with
  | [] => Ok []
  | i :: j :: l' => r <- reshape2 l' ;; Ok ((i, j) :: r)
  | [_] => Err ValueError
  end.

(** The body of the loop of [random_pairing] for one speaker. *)
Definition pair_group (G : Generator) (g : rng G) (sid : Z) (paths : list string)
  : result (list pair * rng G) :=
  let (indices, g') := permutation G g (length paths) in
  indices <- (if Nat.eqb (length paths mod 2) 1
              then i0 <- getitem indices 0 ;; Ok (indices ++ [i0])
              else Ok indices) ;;
  rows <- reshape2 indices ;;
  ps <- mapM (fun ij => p1 <- getitem paths (fst ij) ;;
                        p2 <- getitem paths (snd ij) ;;
                        Ok (sid, p1, p2)) rows ;;
  Ok (ps, g').

(** The loop of [random_pairing] over [self.groups.items()]. *)
Fixpoint pair_groups (G : Generator) (g : rng G) (items : list (Z * list string))
  : result (list pair) :=
  match items with
  | [] => Ok []
  | (sid, paths) :: rest =>
      r <- pair_group G g sid paths ;;
      ps <- pair_groups G (snd r) rest ;;
      Ok (fst r ++ ps)
  end.

(** [PairedDataset.random_pairing] *)
Definition random_pairing (G : Generator) (seed : option Z) (os_entropy : Z)
    (self : PairedDataset) : result PairedDataset :=
  g <- default_rng G seed os_entropy ;;
  ps <- pair_groups G g (groups self) ;;
  Ok (set_pairs self ps).

(** The grouping loop of [__init__]. *)
Fixpoint group_paths (rd : DataReader) (iters : list string)
    (groups : dict (list string)) : result (dict (list string)) :=
  match iters with
  | [] => Ok groups
  | path :: rest =>
      let key := remove_wav (basename path) in
      match transcript rd key with
      | None => Err KeyError
      | Some (sid, _) =>
          let groups := match dict_get sid groups with
                        | None => dict_set sid [] groups
                        | Some _ => groups
                        end in
          match dict_get sid groups with
          | Some l => group_paths rd rest (dict_set sid (l ++ [path]) groups)
          | None => Err KeyError
          end
      end
  end.

(** [PairedDataset.__init__]; [verbose], when given, wraps the iteration
    over the files. *)
Definition __init__ (G : Generator) (os_entropy : Z) (rd : DataReader)
    (verbose : option (list string -> list string)) : result PairedDataset :=
  let iters := reader_dataset rd in
  let iters := match verbose with
               | Some v => v iters
               | None => iters
               end in
  groups <- group_paths rd iters [] ;;
  random_pairing G None os_entropy
    {| reader := rd; dataset := reader_dataset rd;
       groups := groups; pairs := [] |}.

(** [PairedDataset.split]: returns the updated dataset and the residual one;
    each of the two pairings draws its own entropy. *)
Definition split (G : Generator) (size : Z) (entropy_residual entropy_self : Z)
    (self : PairedDataset) : result (PairedDataset * PairedDataset) :=
  let residual := self in
  let items := groups self in
  let residual := set_groups residual (dict_of_items (slice_from items size)) in
  let self := set_groups self (dict_of_items (slice_to items size)) in
  residual <- random_pairing G None entropy_residual residual ;;
  self <- random_pairing G None entropy_self self ;;
  Ok (self, residual).

(** *** Notions used in the statements *)

(** The contract of [Generator.permutation]: a rearrangement of [0 .. n-1]. *)
Definition lawful (G : Generator) : Prop :=
  forall g n, Permutation (fst (permutation G g n)) (seq 0 n).

(** A seed [np.random.default_rng] accepts. *)
Definition seed_ok (seed : option Z) : Prop :=
  match seed with
  | Some s => (0 <= s)%Z
  | None => True
  end.

(** The records a list of pairs uses, in order, with repetitions. *)
Definition records (ps : list pair) : list string :=
  flat_map (fun p => [snd (fst p); snd p]) ps.

(** The indices of the rows of a reshaped array, row by row. *)
Definition flat_rows (rows : list (nat * nat)) : list nat :=
  flat_map (fun ij => [fst ij; snd ij]) rows.

(** What one iteration of the loop of [random_pairing] appends for a speaker
    [sid] with the records [paths]: pairs of that speaker, half as many as
    records (rounded up), using every record once, and once more the first
    one drawn when their number is odd. *)
Definition chunk_ok (sid : Z) (paths : list string) (chunk : list pair) : Prop :=
  Forall (fun p => fst (fst p) = sid) chunk /\
  let n := length paths in
  (n mod 2 = 0 -> length chunk = n / 2 /\ Permutation (records chunk) paths) /\
  (n mod 2 = 1 ->
   length chunk = (n + 1) / 2 /\
   exists first,
     hd_error (records chunk) = Some first /\
     nth_error (records chunk) n = Some first /\
     Permutation (records chunk) (first :: paths)).

(** The pairs of one speaker. *)
Definition pairs_of (sid : Z) (ps : list pair) : list pair :=
  filter (fun p => (fst (fst p) =? sid)%Z) ps.

(** A pair within one speaker of the grouping. *)
Definition pair_ok (groups : dict (list string)) (p : pair) : Prop :=
  exists paths, dict_get (fst (fst p)) groups = Some paths /\
                In (snd (fst p)) paths /\ In (snd p) paths.

(** The invariant: the grouping has one entry per speaker, and every pair
    lies within one speaker. *)
Definition wf (self : PairedDataset) : Prop :=
  NoDup (map fst (groups self)) /\ Forall (pair_ok (groups self)) (pairs self).

(** The outcome of a call, restricted to one attribute. *)
Definition rmap {A B : Type} (f : A -> B) (r : result A) : result B :=
  match r with
  | Ok a => Ok (f a)
  | Err e => Err e
  end.

(** *** Examples *)

(** A generator whose state counts the draws and whose permutation is the
    reversal. *)
Definition G_rev : Generator :=
  {| rng := nat;
     seeded := fun s => Z.to_nat s;
     permutation := fun g n => (rev (seq 0 n), S g) |}.

Definition rd_example : DataReader :=
  {| reader_dataset := ["/d/a1.wav"; "/d/b1.wav"; "/d/a2.wav"; "/d/a3.wav";
                        "/d/b2.wav"]%string;
     transcript := fun key =>
       if String.eqb (substring 0 1 key) "a" then Some (7%Z, "text"%string)
       else if String.eqb (substring 0 1 key) "b" then Some (9%Z, "text"%string)
       else None |}.

Definition groups_example : dict (list string) :=
  [(7%Z, ["/d/a1.wav"; "/d/a2.wav"; "/d/a3.wav"]%string);
   (9%Z, ["/d/b1.wav"; "/d/b2.wav"]%string)].

Definition ds_example : PairedDataset :=
  {| reader := rd_example; dataset := reader_dataset rd_example;
     groups := groups_example; pairs := [] |}.

(** *** Reading the dataset *)

(** The speaker the transcript table gives for a file, by the key that
    [__init__] derives from its path. *)
Definition speaker_of (rd : DataReader) (path : string) : option Z :=
  match transcript rd (remove_wav (basename path)) with
  | Some (sid, _) => Some sid
  | None => None
  end.

(** The files of a speaker, in the order of the list. *)
Definition files_of (rd : DataReader) (sid : Z) (files : list string)
  : list string :=
  filter (fun p => match speaker_of rd p with
                   | Some s => (s =? sid)%Z
                   | None => false
                   end) files.

(** A normalised datum: the speaker and the two speeches. *)
Definition datum : Type := Z * list R * list R.

(** A batch: the speaker ids, the two lengths of every datum, and the two
    arrays of padded speeches. *)
Definition batch : Type :=
  list Z * list (Z * Z) * list (list R) * list (list R).

(** The argument of [__getitem__]: an integer, or a slice [start:stop]
    whose bounds may be left out. *)
Inductive index_arg : Type :=
| IndexInt (i : Z)
| IndexSlice (start stop : option Z).

(** What [__getitem__] returns: one datum for an integer, a batch for a
    slice. *)
Inductive item : Type :=
| Item (d : datum)
| Batch (b : batch).

(** [l[i]] on a Python list for any integer [i]: a negative index counts
    from the end. *)
Definition getitem_int {A : Type} (l : list A) (i : Z) : result A :=
  let n := Z.of_nat (length l) in
  let j := if (i <? 0)%Z then (i + n)%Z else i in
  if ((j <? 0) || (n <=? j))%Z then Err IndexError
  else getitem l (Z.to_nat j).

(** [l[start:stop]] with optional bounds. *)
Definition getitem_slice {A : Type} (l : list A) (start stop : option Z)
  : list A :=
  slice l (match start with Some a => a | None => 0%Z end)
          (match stop with Some b => b | None => Z.of_nat (length l) end).

(** [PairedDataset.__len__] *)
Definition __len__ (self : PairedDataset) : Z :=
  Z.of_nat (length (pairs self)).

(** [PairedDataset.normalize] *)
Definition normalize (sid : Z) (text : string) (speech : list R) : list R :=
  speech.

(** [a.max(axis=0)] on one column: an empty column has no maximum. *)
Definition np_max (l : list Z) : result Z :=
  match l with
  | [] => Err ValueError
  | x :: l' => Ok (fold_left Z.max l' x)
  end.

(** [np.pad(signal, [0, n])]: [n] zeros on the right; a negative [n] is
    refused. *)
Definition np_pad (signal : list R) (n : Z) : result (list R) :=
  if (n <? 0)%Z then Err ValueError
  else Ok (signal ++ repeat 0%R (Z.to_nat n)).

(** [np.stack(rows)]: at least one row, all of one length. *)
Definition np_stack (rows : list (list R)) : result (list (list R)) :=
  match rows with
  | [] => Err ValueError
  | r :: rs =>
      if forallb (fun x => Nat.eqb (length x) (length r)) rs then Ok rows
      else Err ValueError
  end.

(** [PairedDataset.collate] *)
Definition collate (bunch : list datum) : result batch :=
  let sids := map (fun d : datum => fst (fst d)) bunch in
  let lengths := map (fun d : datum => (Z.of_nat (length (snd (fst d))),
                                        Z.of_nat (length (snd d)))) bunch in
  len1 <- np_max (map fst lengths) ;;
  len2 <- np_max (map snd lengths) ;;
  rows1 <- mapM (fun d : datum =>
                   np_pad (snd (fst d)) (len1 - Z.of_nat (length (snd (fst d)))))
                bunch ;;
  speech1 <- np_stack rows1 ;;
  rows2 <- mapM (fun d : datum =>
                   np_pad (snd d) (len2 - Z.of_nat (length (snd d))))
                bunch ;;
  speech2 <- np_stack rows2 ;;
  Ok (sids, lengths, speech1, speech2).

(** [self.normalize] on what [self.preproc(p)] returns, where [preproc]
    reads a file into (speaker id, text, speech) or raises. *)
Definition load (preproc : string -> result (Z * string * list R)) (p : string)
  : result (list R) :=
  d <- preproc p ;;
  Ok (normalize (fst (fst d)) (snd (fst d)) (snd d)).

(** One pair read into a datum. *)
Definition load_pair (preproc : string -> result (Z * string * list R))
    (raw : pair) : result datum :=
  p1 <- load preproc (snd (fst raw)) ;;
  p2 <- load preproc (snd raw) ;;
  Ok (fst (fst raw), p1, p2).

(** [PairedDataset.__getitem__] *)
Definition __getitem__ (preproc : string -> result (Z * string * list R))
    (self : PairedDataset) (index : index_arg) : result item :=
  match index with
  | IndexInt i =>
      raw <- getitem_int (pairs self) i ;;
      d <- load_pair preproc raw ;;
      Ok (Item d)
  | IndexSlice start stop =>
      let raw := getitem_slice (pairs self) start stop in
      bunches <- mapM (load_pair preproc) raw ;;
      b <- collate bunches ;;
      Ok (Batch b)
  end.

(** What a batch holds once every row is cut back to its recorded
    length. *)
Definition unpad (b : batch) : list datum :=
  let '(sids, lengths, speech1, speech2) := b in
  map (fun x : Z * (Z * Z) * list R * list R =>
         let '(sid, l, r1, r2) := x in
         (sid, firstn (Z.to_nat (fst l)) r1, firstn (Z.to_nat (snd l)) r2))
      (combine (combine (combine sids lengths) speech1) speech2).

(** The example dataset with three pairs. *)
Definition ds_paired : PairedDataset :=
  set_pairs ds_example
    [(7%Z, "/d/a1.wav", "/d/a2.wav"); (7%Z, "/d/a3.wav", "/d/a1.wav");
     (9%Z, "/d/b1.wav", "/d/b2.wav")]%string.

(** A reader whose list holds a file without an entry in the table. *)
Definition rd_missing : DataReader :=
  {| reader_dataset := ["/d/a1.wav"; "/d/c1.wav"; "/d/a2.wav"]%string;
     transcript := transcript rd_example |}.

(** A reader of the speech of a file: as many samples as the path has
    characters, all equal to one. *)
Definition preproc_example (p : string) : result (Z * string * list R) :=
  Ok (0%Z, "text"%string, repeat 1%R (String.length p)).

End Dataset.

(** * Facts on lists, slices and results *)

Module ListFacts.

Lemma mapM_length {A B : Type} (f : A -> result B) l r :
  mapM f l = Ok r -> length r = length l.
Proof.
  revert r; induction l as [|a l IH]; simpl; intros r H.
  - injection H as <-. reflexivity.
  - destruct (f a); simpl in H; [|discriminate].
    destruct (mapM f l); simpl in H; [|discriminate].
    injection H as <-. simpl. f_equal. apply IH. reflexivity.
Qed.

Lemma mapM_ok {A B : Type} (f : A -> result B) (g : A -> B) l :
  (forall a, In a l -> f a = Ok (g a)) -> mapM f l = Ok (map g l).
Proof.
  induction l as [|a l IH]; simpl; intros H; [reflexivity|].
  rewrite (H a (or_introl eq_refl)). simpl.
  rewrite IH by (intros; apply H; right; assumption). reflexivity.
Qed.

Lemma mapM_err {A B : Type} (f : A -> result B) l a e :
  In a l -> (forall x, In x l -> f x = Err e \/ exists b, f x = Ok b) ->
  f a = Err e -> mapM f l = Err e.
Proof.
  induction l as [|x l IH]; simpl; intros Hin Hall Ha; [contradiction|].
  destruct (Hall x (or_introl eq_refl)) as [Hx|[b Hx]]; rewrite Hx; simpl.
  - reflexivity.
  - destruct Hin as [->|Hin]; [congruence|].
    rewrite IH; auto.
Qed.

Lemma mapM_forall {A B : Type} (f : A -> result B) (P : B -> Prop) l r :
  mapM f l = Ok r -> (forall a b, In a l -> f a = Ok b -> P b) -> Forall P r.
Proof.
  revert r; induction l as [|a l IH]; simpl; intros r H HP.
  - injection H as <-. constructor.
  - destruct (f a) eqn:Ha; simpl in H; [|discriminate].
    destruct (mapM f l) eqn:Hl; simpl in H; [|discriminate].
    injection H as <-. constructor.
    + apply (HP a); auto.
    + apply IH; auto. intros; eapply HP; eauto.
Qed.

Lemma mapM_exists {A B : Type} (f : A -> result B) (P : B -> Prop) l :
  Forall (fun a => exists b, f a = Ok b /\ P b) l ->
  exists r, mapM f l = Ok r /\ Forall P r /\ length r = length l.
Proof.
  induction 1 as [|a l [b [Hb Pb]] _ [r [Hr [Pr Lr]]]]; simpl.
  - exists []. auto.
  - rewrite Hb, Hr. simpl. exists (b :: r). repeat split; auto.
    simpl. f_equal. assumption.
Qed.

Lemma in_firstn {A : Type} (x : A) n l : In x (firstn n l) -> In x l.
Proof.
  revert l; induction n as [|n IH]; intros [|a l] H; simpl in H;
    try contradiction.
  destruct H as [->|H]; [left; reflexivity|right; auto].
Qed.

Lemma in_skipn {A : Type} (x : A) n l : In x (skipn n l) -> In x l.
Proof.
  revert l; induction n as [|n IH]; intros [|a l] H; simpl in H;
    try contradiction; auto.
  right; auto.
Qed.

Lemma slice_inner {A : Type} (l : list A) (a b : Z) :
  (0 <= a <= b)%Z -> (b <= Z.of_nat (length l))%Z ->
  slice l a b = firstn (Z.to_nat (b - a)) (skipn (Z.to_nat a) l).
Proof.
  intros H1 H2. unfold slice, slice_bound.
  destruct (Z.ltb_spec a 0); [lia|].
  destruct (Z.ltb_spec b 0); [lia|].
  rewrite !Z.min_r, !Z.max_r by lia. reflexivity.
Qed.

Lemma slice_length {A : Type} (l : list A) (a b : Z) :
  (0 <= a <= b)%Z -> (b <= Z.of_nat (length l))%Z ->
  length (slice l a b) = Z.to_nat (b - a).
Proof.
  intros H1 H2. rewrite slice_inner by assumption.
  rewrite length_firstn, length_skipn. lia.
Qed.

Lemma slice_from_1 {A : Type} (l : list A) : slice_from l 1 = tl l.
Proof.
  unfold slice_from. destruct l as [|x l].
  - reflexivity.
  - rewrite slice_inner by (simpl length; lia).
    change (Z.to_nat 1) with 1%nat. cbn [skipn tl].
    rewrite firstn_all2; [reflexivity|]. simpl length. lia.
Qed.

Lemma slice_to_inner {A : Type} (l : list A) (b : Z) :
  (0 <= b <= Z.of_nat (length l))%Z -> slice_to l b = firstn (Z.to_nat b) l.
Proof.
  intros H. unfold slice_to. rewrite slice_inner by lia.
  rewrite Z.sub_0_r. reflexivity.
Qed.

Lemma slice_to_all {A : Type} (l : list A) (b : Z) :
  (Z.of_nat (length l) <= b)%Z -> slice_to l b = l.
Proof.
  intros H. unfold slice_to, slice.
  assert (Ea : slice_bound (Z.of_nat (length l)) 0 = 0%Z)
    by (unfold slice_bound; simpl; lia).
  assert (Eb : slice_bound (Z.of_nat (length l)) b = Z.of_nat (length l))
    by (unfold slice_bound; destruct (Z.ltb_spec b 0); lia).
  rewrite Ea, Eb, Z.sub_0_r, Nat2Z.id. cbn [Z.to_nat skipn].
  apply firstn_all.
Qed.

End ListFacts.

(** * Properties of the Yingram extractor *)

Module YingramFacts.
Import Yingram ListFacts.
Open Scope R_scope.

Section Broadcasting.
Context {A B C : Type}.

Lemma map2_length (f : A -> B -> C) a b :
  length (map2 f a b) = Nat.min (length a) (length b).
Proof.
  revert b; induction a as [|x a IH]; intros [|y b]; simpl; auto.
Qed.

Lemma map2_nth_error (f : A -> B -> C) a b k :
  nth_error (map2 f a b) k =
  match nth_error a k, nth_error b k with
  | Some x, Some y => Some (f x y)
  | _, _ => None
  end.
Proof.
  revert b k; induction a as [|x a IH]; intros [|y b] [|k]; simpl; auto;
    destruct (nth_error a k); reflexivity.
Qed.

Lemma broadcast_same (f : A -> B -> C) a b :
  length a = length b -> broadcast f a b = Ok (map2 f a b).
Proof.
  intros H; unfold broadcast. rewrite H, Nat.eqb_refl. reflexivity.
Qed.

Lemma map2_singleton_r (f : A -> B -> C) x y :
  map2 f [x] [y] = [f x y].
Proof. reflexivity. Qed.

Lemma broadcast_scalar_r (f : A -> B -> C) a y :
  broadcast f a [y] = Ok (map (fun x => f x y) a).
Proof.
  unfold broadcast. destruct a as [|x [|x' a]]; reflexivity.
Qed.

End Broadcasting.

Lemma cumsum_from_length acc l : length (cumsum_from acc l) = length l.
Proof. revert acc; induction l; simpl; intros; auto. Qed.

Lemma cumsum_length l : length (cumsum l) = length l.
Proof. apply cumsum_from_length. Qed.

Lemma cumsum_from_nth acc l k :
  (k < length l)%nat ->
  nth k (cumsum_from acc l) 0 = acc + Rsum (firstn (S k) l).
Proof.
  revert acc k; induction l as [|a l IH]; intros acc k Hk; simpl in Hk; [lia|].
  destruct k as [|k].
  - simpl. lra.
  - cbn [cumsum_from nth]. rewrite IH by lia.
    cbn [firstn Rsum fold_right]. unfold Rsum. simpl. lra.
Qed.

Lemma cumsum_nth l k :
  (k < length l)%nat -> nth k (cumsum l) 0 = Rsum (firstn (S k) l).
Proof.
  intros H. unfold cumsum. rewrite cumsum_from_nth by assumption. lra.
Qed.

Lemma arange_ok a b :
  (a <= b)%Z ->
  arange a b = Ok (map (fun i => (a + Z.of_nat i)%Z) (seq 0 (Z.to_nat (b - a)))).
Proof.
  intros H. unfold arange. destruct (Z.ltb_spec b a); [lia|reflexivity].
Qed.

Lemma index_ok {A : Type} (l : list A) (i : Z) (d : A) :
  (0 <= i < Z.of_nat (length l))%Z -> index l i = Ok (nth (Z.to_nat i) l d).
Proof.
  intros H. unfold index.
  destruct (Z.ltb_spec i 0); [lia|].
  destruct (Z.ltb_spec i 0); [lia|].
  destruct (nth_error l (Z.to_nat i)) eqn:E.
  - f_equal. symmetry. apply nth_error_nth. assumption.
  - apply nth_error_None in E. lia.
Qed.

Lemma index_out {A : Type} (l : list A) (i : Z) :
  (Z.of_nat (length l) <= i)%Z -> index l i = Err IndexError.
Proof.
  intros H. unfold index.
  destruct (Z.ltb_spec i 0); [lia|].
  destruct (Z.ltb_spec i 0); [lia|].
  destruct (nth_error l (Z.to_nat i)) eqn:E; [|reflexivity].
  assert (nth_error l (Z.to_nat i) <> None) as N by congruence.
  apply nth_error_Some in N. lia.
Qed.

(** *** Shapes of the transforms *)

Lemma rfft_ok (x : list R) :
  x <> [] -> exists f, rfft x = Ok f /\ length f = (length x / 2 + 1)%nat.
Proof.
  intros H. unfold rfft.
  destruct (Nat.eqb_spec (length x) 0) as [E|E].
  - destruct x; [congruence|discriminate].
  - eexists; split; [reflexivity|]. rewrite length_map, length_seq. reflexivity.
Qed.

Lemma irfft_ok (y : list R) :
  (2 <= length y)%nat ->
  exists c, irfft y = Ok c /\ length c = (2 * (length y - 1))%nat.
Proof.
  intros H. unfold irfft.
  destruct (Nat.eqb_spec (2 * (length y - 1)) 0) as [E|E]; [lia|].
  eexists; split; [reflexivity|]. rewrite length_map, length_seq. reflexivity.
Qed.

(** The circular autocorrelation step of [difference]: it returns, and on a
    frame of [w] samples it has [2 (w / 2)] entries, so one fewer than the
    frame when [w] is odd. *)
Lemma corr_ok (frame : list R) :
  (2 <= length frame)%nat ->
  exists corr, (fft <- rfft frame ;; irfft (map abs_square fft)) = Ok corr
               /\ length corr = (2 * (length frame / 2))%nat.
Proof.
  intros H.
  destruct (rfft_ok frame) as [f [Hf Lf]].
  { destruct frame; simpl in H; [lia|discriminate]. }
  rewrite Hf. cbn [bind].
  destruct (irfft_ok (map abs_square f)) as [c [Hc Lc]].
  { rewrite length_map, Lf.
    assert (1 <= length frame / 2)%nat by (apply Nat.div_le_lower_bound; lia).
    lia. }
  exists c; split; [assumption|].
  rewrite Lc, length_map, Lf. lia.
Qed.

Lemma difference_ok cfg frame :
  lags_fit cfg -> length frame = Z.to_nat (windows cfg) ->
  exists corr diff,
    (fft <- rfft frame ;; irfft (map abs_square fft)) = Ok corr /\
    difference cfg frame = Ok diff /\
    length diff = Z.to_nat (lmax cfg) /\
    forall tau, (tau < Z.to_nat (lmax cfg))%nat ->
      let c := 0 :: cumsum (map Rsqr frame) in
      nth tau diff 0 =
        nth (Z.to_nat (windows cfg) - 1 - tau) c 0 - 2 * nth tau corr 0
        + nth (Z.to_nat (windows cfg)) c 0 - nth tau c 0.
Proof.
  intros [Hw [Hl1 Hl2]] Hlen.
  assert (Hwz : (2 * (windows cfg / 2) <= windows cfg)%Z)
    by (apply Z.mul_div_le; lia).
  destruct (corr_ok frame) as [corr [Hc Lc]]; [lia|].
  assert (Lc' : length corr = Z.to_nat (2 * (windows cfg / 2))).
  { rewrite Lc, Hlen. rewrite Z2Nat.inj_mul, Z2Nat.inj_div by lia.
    reflexivity. }
  set (c := 0 :: cumsum (map Rsqr frame)).
  assert (Lcs : length c = S (Z.to_nat (windows cfg))).
  { unfold c. simpl. rewrite cumsum_length, length_map, Hlen. reflexivity. }
  set (a1 := rev (slice c (windows cfg - lmax cfg) (windows cfg))).
  set (a2 := map (Rmult 2) (slice_to corr (lmax cfg))).
  set (a4 := slice_to c (lmax cfg)).
  set (cw := nth (Z.to_nat (windows cfg)) c 0).
  assert (L1 : length a1 = Z.to_nat (lmax cfg)).
  { unfold a1. rewrite length_rev, slice_length by lia. f_equal. lia. }
  assert (L2 : length a2 = Z.to_nat (lmax cfg)).
  { unfold a2. rewrite length_map, slice_to_inner by lia.
    rewrite length_firstn. lia. }
  assert (L4 : length a4 = Z.to_nat (lmax cfg)).
  { unfold a4. rewrite slice_to_inner by lia. rewrite length_firstn. lia. }
  exists corr.
  exists (map2 Rminus (map (fun x => x + cw) (map2 Rminus a1 a2)) a4).
  split; [assumption|]. split; [|split].
  - unfold difference.
    destruct (rfft frame) as [f|e]; cbn [bind] in Hc |- *; [|discriminate].
    rewrite Hc. cbn [bind]. fold c. fold a1 a2 a4.
    rewrite broadcast_same by congruence. cbn [bind].
    rewrite (index_ok c (windows cfg) 0) by lia. cbn [bind]. fold cw.
    rewrite broadcast_scalar_r. cbn [bind].
    apply broadcast_same.
    rewrite length_map, map2_length. lia.
  - rewrite map2_length, length_map, map2_length. lia.
  - intros tau Htau. cbv zeta. fold c.
    assert (N1 : nth_error a1 tau
                 = Some (nth (Z.to_nat (windows cfg) - 1 - tau) c 0)).
    { unfold a1. rewrite nth_error_rev.
      rewrite slice_length by lia.
      assert (E : (tau <? Z.to_nat (windows cfg - (windows cfg - lmax cfg)))%nat
                  = true) by (apply Nat.ltb_lt; lia).
      rewrite E.
      rewrite slice_inner by lia.
      rewrite nth_error_firstn.
      match goal with |- (if ?b then _ else _) = _ =>
        assert (Eb : b = true) by (apply Nat.ltb_lt; lia); rewrite Eb end.
      rewrite nth_error_skipn.
      erewrite nth_error_nth' with (d := 0) by lia.
      do 2 f_equal. lia. }
    assert (N2 : nth_error a2 tau = Some (2 * nth tau corr 0)).
    { unfold a2. rewrite nth_error_map, slice_to_inner by lia.
      rewrite nth_error_firstn.
      assert (E : (tau <? Z.to_nat (lmax cfg))%nat = true)
        by (apply Nat.ltb_lt; lia).
      rewrite E. erewrite nth_error_nth' with (d := 0) by lia. reflexivity. }
    assert (N4 : nth_error a4 tau = Some (nth tau c 0)).
    { unfold a4. rewrite slice_to_inner by lia.
      rewrite nth_error_firstn.
      assert (E : (tau <? Z.to_nat (lmax cfg))%nat = true)
        by (apply Nat.ltb_lt; lia).
      rewrite E. erewrite nth_error_nth' with (d := 0) by lia. reflexivity. }
    apply nth_error_nth.
    rewrite map2_nth_error, nth_error_map, map2_nth_error, N1, N2, N4.
    reflexivity.
Qed.

(** *** The cumulative mean normalised difference *)

Lemma cumulative_ok cfg diff :
  (1 <= lmax cfg)%Z -> length diff = Z.to_nat (lmax cfg) ->
  exists c,
    cumulative cfg diff = Ok c /\
    length c = Z.to_nat (lmax cfg) /\
    nth_error c 0 = Some (Some 1) /\
    forall tau, (1 <= tau < Z.to_nat (lmax cfg))%nat ->
      nth_error c tau = Some (cmnd_value diff tau).
Proof.
  intros Hl Hlen. unfold cumulative.
  rewrite slice_from_1, arange_ok by assumption. cbn [bind].
  set (d1 := tl diff).
  assert (Ld1 : length d1 = (Z.to_nat (lmax cfg) - 1)%nat).
  { unfold d1. destruct diff; simpl in *; lia. }
  set (taus := map (fun i => (1 + Z.of_nat i)%Z) (seq 0 (Z.to_nat (lmax cfg - 1)))).
  assert (Lt : length taus = (Z.to_nat (lmax cfg) - 1)%nat).
  { unfold taus. rewrite length_map, length_seq. lia. }
  set (q := map2 fdiv d1 (map (fun s => s + eps) (cumsum d1))).
  assert (Lq : length q = (Z.to_nat (lmax cfg) - 1)%nat).
  { unfold q. rewrite map2_length, length_map, cumsum_length. lia. }
  rewrite broadcast_same by congruence. cbn [bind].
  eexists; split; [reflexivity|]. split; [|split].
  - simpl. rewrite map2_length. lia.
  - reflexivity.
  - intros [|k] Hk; [lia|]. cbn [nth_error].
    rewrite map2_nth_error. unfold q. rewrite map2_nth_error, nth_error_map.
    rewrite (nth_error_nth' d1 0) by lia.
    rewrite (nth_error_nth' (cumsum d1) 0) by (rewrite cumsum_length; lia).
    cbn [option_map]. unfold taus. rewrite nth_error_map.
    rewrite (nth_error_nth' _ 0%nat) by (rewrite length_seq; lia).
    rewrite seq_nth by lia. cbn [option_map].
    rewrite cumsum_nth by lia.
    f_equal. unfold cmnd_value.
    assert (Es : slice diff 1 (Z.of_nat (S k) + 1) = firstn (S k) d1).
    { rewrite slice_inner by lia. unfold d1.
      change (Z.to_nat 1) with 1%nat.
      replace (Z.to_nat (Z.of_nat (S k) + 1 - 1)) with (S k) by lia.
      destruct diff; reflexivity. }
    rewrite Es.
    assert (En : nth k d1 0 = nth (S k) diff 0).
    { unfold d1. destruct diff; [destruct k|]; reflexivity. }
    rewrite En. unfold fdiv.
    destruct (Req_dec_T (Rsum (firstn (S k) d1) + eps) 0) as [E|E];
      [reflexivity|].
    cbn [fmul lift2]. f_equal.
    replace (IZR (1 + Z.of_nat (0 + k))) with (INR (S k)).
    + field. exact E.
    + rewrite INR_IZR_INZ. f_equal. lia.
Qed.

(** *** The difference function against the sum of squared differences *)

(** Equality of two explicit lists of reals, entry by entry. *)
Ltac list_R :=
  repeat (apply (f_equal2 (@cons R)); [lra|]); reflexivity.

Lemma abs_square_eq z : abs_square z = fst z * fst z + snd z * snd z.
Proof. unfold abs_square. apply Rsqr_sqrt. nra. Qed.

Lemma angle_zero j k n : (j * k = 0)%nat -> angle j k n = 0.
Proof. intros H. unfold angle. rewrite H. simpl. unfold Rdiv. ring. Qed.

Lemma angle_half : angle 1 1 2 = PI.
Proof. unfold angle. simpl. field. Qed.

(** On a window of two samples the transform pair gives the circular
    autocorrelation: lag 1 counts the product [a b] twice. *)
Lemma corr_two a b :
  (fft <- rfft [a; b] ;; irfft (map abs_square fft))
  = Ok [a * a + b * b; 2 * a * b].
Proof.
  unfold rfft. change (length [a; b]) with 2%nat.
  change (2 / 2 + 1)%nat with 2%nat.
  cbn [length Nat.eqb seq map nth Rsum fold_right bind].
  rewrite !abs_square_eq. cbn [fst snd].
  rewrite !(angle_zero 0), !(angle_zero 1 0), angle_half by reflexivity.
  rewrite cos_0, sin_0, cos_PI, sin_PI.
  unfold irfft.
  cbn [length Nat.eqb Nat.sub Nat.mul Nat.add seq map nth Rsum fold_right bind].
  rewrite !(angle_zero 1 0), angle_half by reflexivity.
  rewrite cos_0, cos_PI.
  f_equal. simpl INR. f_equal; [field|f_equal; field].
Qed.

(** *** Sums over lists of indices *)

Lemma Rsum_map_ext {A : Type} (f g : A -> R) l :
  (forall i, In i l -> f i = g i) -> Rsum (map f l) = Rsum (map g l).
Proof.
  induction l as [|a l IH]; intros H; [reflexivity|].
  cbn [map]. unfold Rsum in *. cbn [fold_right].
  rewrite (H a (or_introl eq_refl)), IH; [reflexivity|].
  intros i Hi. apply H. right. exact Hi.
Qed.

Lemma Rsum_map_plus {A : Type} (f g : A -> R) l :
  Rsum (map (fun i => f i + g i) l) = Rsum (map f l) + Rsum (map g l).
Proof.
  induction l as [|a l IH]; unfold Rsum in *; cbn [map fold_right]; [lra|].
  rewrite IH. lra.
Qed.

Lemma Rsum_map_scal {A : Type} c (f : A -> R) l :
  Rsum (map (fun i => c * f i) l) = c * Rsum (map f l).
Proof.
  induction l as [|a l IH]; unfold Rsum in *; cbn [map fold_right]; [lra|].
  rewrite IH. lra.
Qed.

Lemma Rsum_map_zero {A : Type} (l : list A) : Rsum (map (fun _ => 0) l) = 0.
Proof.
  induction l as [|a l IH]; unfold Rsum in *; cbn [map fold_right]; [lra|].
  rewrite IH. lra.
Qed.

Lemma Rsum_app l1 l2 : Rsum (l1 ++ l2) = Rsum l1 + Rsum l2.
Proof.
  induction l1 as [|a l IH]; unfold Rsum in *; cbn [app fold_right]; [lra|].
  rewrite IH. lra.
Qed.

Lemma Rsum_swap {A B : Type} (f : A -> B -> R) l1 l2 :
  Rsum (map (fun i => Rsum (map (fun j => f i j) l2)) l1)
  = Rsum (map (fun j => Rsum (map (fun i => f i j) l1)) l2).
Proof.
  induction l1 as [|a l1 IH].
  - cbn [map]. rewrite Rsum_map_zero. reflexivity.
  - cbn [map]. change (Rsum (?x :: ?l)) with (x + Rsum l).
    rewrite IH, <- Rsum_map_plus. apply Rsum_map_ext. intros j _.
    reflexivity.
Qed.

Lemma Rsum_product {A B : Type} (f : A -> R) (g : B -> R) l1 l2 :
  Rsum (map f l1) * Rsum (map g l2)
  = Rsum (map (fun i => Rsum (map (fun j => f i * g j) l2)) l1).
Proof.
  induction l1 as [|a l1 IH].
  - unfold Rsum; simpl. lra.
  - cbn [map]. change (Rsum (?x :: ?l)) with (x + Rsum l).
    rewrite <- IH, Rsum_map_scal. lra.
Qed.

(** A sum with a single non-zero term. *)
Lemma Rsum_pick (f : nat -> R) n l0 :
  (l0 < n)%nat ->
  Rsum (map (fun l => if Nat.eqb l l0 then f l else 0) (seq 0 n)) = f l0.
Proof.
  intros H.
  assert (G : forall m a, (a <= l0 < a + m)%nat \/ ~ (a <= l0 < a + m)%nat ->
     Rsum (map (fun l => if Nat.eqb l l0 then f l else 0) (seq a m))
     = if (Nat.leb a l0 && Nat.ltb l0 (a + m))%bool then f l0 else 0).
  { induction m as [|m IH]; intros a _.
    - cbn [seq map]. unfold Rsum; cbn [fold_right].
      destruct (Nat.leb_spec a l0), (Nat.ltb_spec l0 (a + 0)); simpl; try reflexivity. lia.
    - cbn [seq map]. change (Rsum (?x :: ?l)) with (x + Rsum l).
      rewrite IH by lia.
      destruct (Nat.eqb_spec a l0) as [->|N].
      + destruct (Nat.leb_spec (S l0) l0); [lia|].
        destruct (Nat.leb_spec l0 l0); [|lia].
        destruct (Nat.ltb_spec l0 (l0 + S m)); [|lia]. simpl. lra.
      + destruct (Nat.leb_spec (S a) l0), (Nat.leb_spec a l0),
          (Nat.ltb_spec l0 (S a + m)), (Nat.ltb_spec l0 (a + S m));
          simpl; try lra; lia. }
  rewrite G by lia.
  destruct (Nat.leb_spec 0 l0), (Nat.ltb_spec l0 (0 + n)); simpl; try reflexivity; lia.
Qed.

(** A telescoping sum. *)
Lemma Rsum_telescope (F : nat -> R) n :
  Rsum (map (fun k => F (S k) - F k) (seq 0 n)) = F n - F 0%nat.
Proof.
  induction n as [|n IH].
  - unfold Rsum; simpl. lra.
  - rewrite seq_S, map_app, Rsum_app, IH. cbn [map Nat.add].
    unfold Rsum; cbn [fold_right]. lra.
Qed.

(** *** The transform pair is the circular autocorrelation *)


Lemma cos_period_Z x (q : Z) : cos (x + 2 * IZR q * PI) = cos x.
Proof.
  destruct (Z.le_gt_cases 0 q) as [H|H].
  - rewrite <- (Z2Nat.id q H), <- INR_IZR_INZ. apply cos_period.
  - rewrite <- (cos_period (x + 2 * IZR q * PI) (Z.to_nat (- q))).
    f_equal. rewrite INR_IZR_INZ, Z2Nat.id by lia. rewrite opp_IZR. ring.
Qed.

Lemma sin_period_Z x (q : Z) : sin (x + 2 * IZR q * PI) = sin x.
Proof.
  destruct (Z.le_gt_cases 0 q) as [H|H].
  - rewrite <- (Z2Nat.id q H), <- INR_IZR_INZ. apply sin_period.
  - rewrite <- (sin_period (x + 2 * IZR q * PI) (Z.to_nat (- q))).
    f_equal. rewrite INR_IZR_INZ, Z2Nat.id by lia. rewrite opp_IZR. ring.
Qed.

Lemma INR_pos_ne n : (0 < n)%nat -> INR n <> 0.
Proof. intros H. apply not_0_INR. lia. Qed.

Lemma ang_shift n z q :
  (0 < n)%nat -> ang n (z + q * Z.of_nat n) = ang n z + 2 * IZR q * PI.
Proof.
  intros H. unfold ang. rewrite plus_IZR, mult_IZR, <- INR_IZR_INZ.
  field. apply INR_pos_ne. exact H.
Qed.

Lemma cos_ang_shift n z q :
  (0 < n)%nat -> cos (ang n (z + q * Z.of_nat n)) = cos (ang n z).
Proof. intros H. rewrite ang_shift by exact H. apply cos_period_Z. Qed.

Lemma cos_ang_mod n z z' :
  (0 < n)%nat -> (z mod Z.of_nat n = z' mod Z.of_nat n)%Z ->
  cos (ang n z) = cos (ang n z').
Proof.
  intros H E.
  assert (Ez : forall u, u = (u mod Z.of_nat n + (u / Z.of_nat n) * Z.of_nat n)%Z).
  { intros u. pose proof (Z.div_mod u (Z.of_nat n) ltac:(lia)). lia. }
  rewrite (Ez z), (Ez z'), !cos_ang_shift, E by exact H. reflexivity.
Qed.

Lemma cos_ang_opp n z : cos (ang n (- z)) = cos (ang n z).
Proof.
  unfold ang. rewrite opp_IZR.
  replace (2 * PI * - IZR z / INR n) with (- (2 * PI * IZR z / INR n))
    by (unfold Rdiv; ring).
  apply cos_neg.
Qed.

Lemma Rsum_ones {A : Type} (l : list A) : Rsum (map (fun _ => 1) l) = INR (length l).
Proof.
  induction l as [|a l IH]; [reflexivity|].
  cbn [map length]. change (Rsum (?x :: ?l)) with (x + Rsum l).
  rewrite IH, S_INR. lra.
Qed.

(** The sum of the [n]-th roots of unity raised to the power [d]. *)
Lemma dirichlet n d :
  (0 < n)%nat ->
  Rsum (map (fun k => cos (ang n (Z.of_nat k * d))) (seq 0 n))
  = if (d mod Z.of_nat n =? 0)%Z then INR n else 0.
Proof.
  intros Hn. destruct (Z.eqb_spec (d mod Z.of_nat n) 0) as [E|E].
  - rewrite (Rsum_map_ext _ (fun _ => 1)).
    + rewrite Rsum_ones, length_seq. reflexivity.
    + intros k _. rewrite (cos_ang_mod n _ 0 Hn).
      * unfold ang. replace (2 * PI * 0 / INR n) with 0 by (unfold Rdiv; ring).
        apply cos_0.
      * rewrite Z.mul_mod, E, Z.mul_0_r by lia. reflexivity.
  - set (alpha := ang n d).
    set (F := fun k : nat => sin (INR k * alpha - alpha / 2)).
    assert (S0 : sin (alpha / 2) <> 0).
    { intros H. apply sin_eq_0_0 in H. destruct H as [k Hk].
      apply E. unfold alpha, ang in Hk.
      assert (Hd : IZR d = IZR (k * Z.of_nat n)).
      { rewrite mult_IZR, <- INR_IZR_INZ.
        pose proof PI_neq0. pose proof (INR_pos_ne n Hn).
        apply Rmult_eq_reg_l with (PI / INR n).
        - transitivity (2 * PI * IZR d / INR n / 2); [field; assumption|].
          rewrite Hk. field. assumption.
        - unfold Rdiv. apply Rmult_integral_contrapositive_currified;
            [assumption|apply Rinv_neq_0_compat; assumption]. }
      apply eq_IZR in Hd. rewrite Hd. apply Z.mod_mul. lia. }
    assert (T : 2 * sin (alpha / 2)
                * Rsum (map (fun k => cos (ang n (Z.of_nat k * d))) (seq 0 n))
                = F n - F 0%nat).
    { rewrite <- Rsum_map_scal, <- Rsum_telescope.
      apply Rsum_map_ext. intros k _. unfold F.
      replace (ang n (Z.of_nat k * d)) with (INR k * alpha).
      2:{ unfold alpha, ang. rewrite mult_IZR, <- INR_IZR_INZ.
          unfold Rdiv. ring. }
      rewrite S_INR.
      replace ((INR k + 1) * alpha - alpha / 2) with (INR k * alpha + alpha / 2)
        by field.
      rewrite sin_plus, sin_minus. ring. }
    assert (Z0 : F n - F 0%nat = 0).
    { unfold F. simpl INR.
      replace (INR n * alpha - alpha / 2) with (- (alpha / 2) + 2 * IZR d * PI).
      2:{ unfold alpha, ang. field. apply INR_pos_ne. exact Hn. }
      rewrite sin_period_Z.
      replace (0 * alpha - alpha / 2) with (- (alpha / 2)) by field.
      ring. }
    rewrite Z0 in T.
    apply Rmult_integral in T. destruct T as [T|T]; [|exact T].
    apply Rmult_integral in T. destruct T; [lra|contradiction].
Qed.

Lemma Rsum_flip (g : nat -> R) m : forall a c,
(a + m <= c + 1)%nat ->
Rsum (map (fun i => g (c - i)%nat) (seq a m))
= Rsum (map g (seq (c + 1 - a - m) m)).
Proof.
induction m as [|m IH]; intros a c H; [reflexivity|].
rewrite (seq_S m (c + 1 - a - S m)), map_app, Rsum_app.
cbn [seq map]. change (Rsum (?u :: ?l)) with (u + Rsum l).
rewrite IH by lia.
replace (c + 1 - S a - m)%nat with (c + 1 - a - S m)%nat by lia.
replace (c + 1 - a - S m + m)%nat with (c - a)%nat by lia.
unfold Rsum at 3. cbn [fold_right]. lra.
Qed.

Lemma nth_map_seq {A : Type} (f : nat -> A) len k d :
(k < len)%nat -> nth k (map f (seq 0 len)) d = f k.
Proof.
intros H. rewrite (nth_indep _ d (f 0%nat)) by (rewrite length_map, length_seq; lia).
rewrite map_nth, seq_nth by lia. reflexivity.
Qed.

Lemma angle_ang j k n : angle j k n = ang n (Z.of_nat j * Z.of_nat k).
Proof.
unfold angle, ang. rewrite INR_IZR_INZ, Nat2Z.inj_mul. reflexivity.
Qed.

Section Autocorrelation.
Variable x : list R.
Variable h : nat.
Hypothesis Hlen : length x = (2 * h)%nat.
Hypothesis Hh : (1 <= h)%nat.

Let n := length x.
Let X (j : nat) : R := nth j x 0.

(** The power spectrum at bin [k], as a double sum. *)
Let P (k : nat) : R :=
  Rsum (map (fun j => Rsum (map (fun l =>
    X j * X l * cos (ang n ((Z.of_nat j - Z.of_nat l) * Z.of_nat k)))
    (seq 0 n))) (seq 0 n)).

Let g (t k : nat) : R := P k * cos (ang n (Z.of_nat k * Z.of_nat t)).

Lemma n_pos : (0 < n)%nat.
Proof. unfold n. lia. Qed.

Lemma power_bin k :
  abs_square
    (Rsum (map (fun j => nth j x 0 * cos (angle j k n)) (seq 0 n)),
     - Rsum (map (fun j => nth j x 0 * sin (angle j k n)) (seq 0 n)))
  = P k.
Proof.
  rewrite abs_square_eq. cbn [fst snd].
  match goal with |- ?a * ?a + - ?b * - ?b = _ =>
    replace (a * a + - b * - b) with (a * a + b * b) by ring end.
  rewrite !Rsum_product, <- Rsum_map_plus. unfold P.
  apply Rsum_map_ext. intros j _.
  rewrite <- Rsum_map_plus. apply Rsum_map_ext. intros l _.
  fold (X j) (X l). rewrite !angle_ang.
  replace (ang n ((Z.of_nat j - Z.of_nat l) * Z.of_nat k))
    with (ang n (Z.of_nat j * Z.of_nat k) - ang n (Z.of_nat l * Z.of_nat k)).
  - rewrite cos_minus. ring.
  - unfold ang. rewrite !mult_IZR, minus_IZR. unfold Rdiv. ring.
Qed.

Lemma P_mirror k : (k <= n)%nat -> P (n - k) = P k.
Proof.
  intros Hk. unfold P. apply Rsum_map_ext. intros j _.
  apply Rsum_map_ext. intros l _. f_equal.
  rewrite <- (cos_ang_opp n ((Z.of_nat j - Z.of_nat l) * Z.of_nat k)).
  apply cos_ang_mod; [exact n_pos|].
  rewrite Nat2Z.inj_sub by exact Hk.
  replace ((Z.of_nat j - Z.of_nat l) * (Z.of_nat n - Z.of_nat k))%Z
    with (- ((Z.of_nat j - Z.of_nat l) * Z.of_nat k)
          + (Z.of_nat j - Z.of_nat l) * Z.of_nat n)%Z by ring.
  apply Z.mod_add. pose proof n_pos. lia.
Qed.

Lemma g_mirror t k : (k <= n)%nat -> g t (n - k) = g t k.
Proof.
  intros Hk. unfold g. rewrite P_mirror by exact Hk. f_equal.
  rewrite <- (cos_ang_opp n (Z.of_nat k * Z.of_nat t)).
  apply cos_ang_mod; [exact n_pos|].
  rewrite Nat2Z.inj_sub by exact Hk.
  replace ((Z.of_nat n - Z.of_nat k) * Z.of_nat t)%Z
    with (- (Z.of_nat k * Z.of_nat t) + Z.of_nat t * Z.of_nat n)%Z by ring.
  apply Z.mod_add. pose proof n_pos. lia.
Qed.

(** The half spectrum with its mirror image is the full spectrum. *)
Lemma half_to_full t :
  g t 0 + Rsum (map (fun k => 2 * g t k) (seq 1 (h - 1))) + g t h
  = Rsum (map (g t) (seq 0 n)).
Proof.
  assert (E : seq 0 n = [0%nat] ++ seq 1 (h - 1) ++ [h] ++ seq (h + 1) (h - 1)).
  { unfold n. rewrite Hlen.
    replace (2 * h)%nat with (1 + ((h - 1) + (1 + (h - 1))))%nat by lia.
    rewrite !seq_app. cbn [seq app Nat.add].
    replace (S (h - 1)) with h by lia.
    replace (S (h - 1 + 1)) with (h + 1)%nat by lia. reflexivity. }
  rewrite E, !map_app, !Rsum_app. cbn [map].
  change (Rsum [?u]) with (u + 0).
  assert (M : Rsum (map (g t) (seq (h + 1) (h - 1)))
            = Rsum (map (g t) (seq 1 (h - 1)))).
  { rewrite <- (Rsum_map_ext (fun i => g t (n - i)) (g t) (seq 1 (h - 1))).
    - rewrite (Rsum_flip (g t) (h - 1) 1 n) by (unfold n; lia).
      f_equal. f_equal. f_equal. unfold n. lia.
    - intros i Hi. apply in_seq in Hi. apply g_mirror. unfold n. lia. }
  rewrite M, Rsum_map_scal. lra.
Qed.


Lemma delta_opp d : delta n (- d) = delta n d.
Proof.
  unfold delta. pose proof n_pos.
  destruct (Z.eqb_spec (d mod Z.of_nat n) 0) as [E|E],
           (Z.eqb_spec (- d mod Z.of_nat n) 0) as [E'|E']; try reflexivity.
  - exfalso. apply E'. apply Z.mod_opp_l_z; [lia|exact E].
  - exfalso. apply E. rewrite <- (Z.opp_involutive d).
    apply Z.mod_opp_l_z; [lia|exact E'].
Qed.

Lemma full_sum t :
  Rsum (map (g t) (seq 0 n))
  = INR n / 2 *
    Rsum (map (fun j => Rsum (map (fun l =>
      X j * X l * (delta n (Z.of_nat j - Z.of_nat l + Z.of_nat t)
                   + delta n (Z.of_nat j - Z.of_nat l - Z.of_nat t)))
      (seq 0 n))) (seq 0 n)).
Proof.
  unfold g, P.
  rewrite (Rsum_map_ext _ (fun k => Rsum (map (fun j => Rsum (map (fun l =>
     X j * X l * (cos (ang n ((Z.of_nat j - Z.of_nat l) * Z.of_nat k))
                  * cos (ang n (Z.of_nat k * Z.of_nat t))))
     (seq 0 n))) (seq 0 n)))).
  2:{ intros k _. rewrite Rmult_comm, <- Rsum_map_scal.
      apply Rsum_map_ext. intros j _. rewrite <- Rsum_map_scal.
      apply Rsum_map_ext. intros l _. ring. }
  rewrite Rsum_swap. rewrite <- Rsum_map_scal.
  apply Rsum_map_ext. intros j _.
  rewrite Rsum_swap. rewrite <- Rsum_map_scal.
  apply Rsum_map_ext. intros l _.
  rewrite Rsum_map_scal.
  transitivity (X j * X l *
    ((Rsum (map (fun k => cos (ang n (Z.of_nat k
               * (Z.of_nat j - Z.of_nat l + Z.of_nat t)))) (seq 0 n))
      + Rsum (map (fun k => cos (ang n (Z.of_nat k
               * (Z.of_nat j - Z.of_nat l - Z.of_nat t)))) (seq 0 n))) / 2)).
  - f_equal. rewrite <- Rsum_map_plus.
    unfold Rdiv. rewrite Rmult_comm, <- Rsum_map_scal.
    apply Rsum_map_ext. intros k _.
    replace (ang n (Z.of_nat k * (Z.of_nat j - Z.of_nat l + Z.of_nat t)))
      with (ang n ((Z.of_nat j - Z.of_nat l) * Z.of_nat k)
            + ang n (Z.of_nat k * Z.of_nat t))
      by (unfold ang; rewrite !mult_IZR, !plus_IZR, !minus_IZR;
          unfold Rdiv; ring).
    replace (ang n (Z.of_nat k * (Z.of_nat j - Z.of_nat l - Z.of_nat t)))
      with (ang n ((Z.of_nat j - Z.of_nat l) * Z.of_nat k)
            - ang n (Z.of_nat k * Z.of_nat t))
      by (unfold ang; rewrite !mult_IZR, !minus_IZR;
          unfold Rdiv; ring).
    rewrite cos_plus, cos_minus. field.
  - rewrite !dirichlet by exact n_pos. unfold delta.
    destruct (_ =? 0)%Z, (_ =? 0)%Z; field.
Qed.

Lemma pick_shift j t :
  (j < n)%nat -> (t < n)%nat ->
  Rsum (map (fun l => X j * X l * delta n (Z.of_nat j - Z.of_nat l + Z.of_nat t))
            (seq 0 n))
  = X j * X ((j + t) mod n).
Proof.
  intros Hj Ht. pose proof n_pos as Hn.
  rewrite <- (Rsum_pick (fun l => X j * X l) n ((j + t) mod n))
    by (apply Nat.mod_upper_bound; lia).
  apply Rsum_map_ext. intros l Hl. apply in_seq in Hl.
  unfold delta.
  destruct (Nat.eqb_spec l ((j + t) mod n)) as [E|E].
  - destruct (Z.eqb_spec ((Z.of_nat j - Z.of_nat l + Z.of_nat t)
                          mod Z.of_nat n) 0) as [_|N]; [ring|].
    exfalso. apply N. rewrite E.
    rewrite Nat2Z.inj_mod, Nat2Z.inj_add.
    pose proof (Z.div_mod (Z.of_nat j + Z.of_nat t) (Z.of_nat n)
                          ltac:(lia)) as D.
    replace (Z.of_nat j - (Z.of_nat j + Z.of_nat t) mod Z.of_nat n + Z.of_nat t)%Z
      with ((Z.of_nat j + Z.of_nat t) / Z.of_nat n * Z.of_nat n)%Z by lia.
    apply Z.mod_mul. lia.
  - destruct (Z.eqb_spec ((Z.of_nat j - Z.of_nat l + Z.of_nat t)
                          mod Z.of_nat n) 0) as [Z0|_]; [|ring].
    exfalso. apply E.
    apply Nat2Z.inj. rewrite Nat2Z.inj_mod, Nat2Z.inj_add.
    pose proof (Z.div_mod (Z.of_nat j - Z.of_nat l + Z.of_nat t)
                          (Z.of_nat n) ltac:(lia)) as D.
    rewrite Z0 in D.
    apply Z.mod_unique with
      (q := ((Z.of_nat j - Z.of_nat l + Z.of_nat t) / Z.of_nat n)%Z); lia.
Qed.

Lemma double_sum_shift t :
  (t < n)%nat ->
  Rsum (map (fun j => Rsum (map (fun l =>
      X j * X l * (delta n (Z.of_nat j - Z.of_nat l + Z.of_nat t)
                   + delta n (Z.of_nat j - Z.of_nat l - Z.of_nat t)))
      (seq 0 n))) (seq 0 n))
  = 2 * Rsum (map (fun j => X j * X ((j + t) mod n)) (seq 0 n)).
Proof.
  intros Ht.
  rewrite (Rsum_map_ext _ (fun j =>
    Rsum (map (fun l => X j * X l
                 * delta n (Z.of_nat j - Z.of_nat l + Z.of_nat t)) (seq 0 n))
    + Rsum (map (fun l => X j * X l
                 * delta n (Z.of_nat j - Z.of_nat l - Z.of_nat t)) (seq 0 n)))).
  2:{ intros j _. rewrite <- Rsum_map_plus. apply Rsum_map_ext.
      intros l _. ring. }
  rewrite Rsum_map_plus.
  assert (A : Rsum (map (fun j => Rsum (map (fun l => X j * X l
                * delta n (Z.of_nat j - Z.of_nat l + Z.of_nat t)) (seq 0 n)))
              (seq 0 n))
            = Rsum (map (fun j => X j * X ((j + t) mod n)) (seq 0 n))).
  { apply Rsum_map_ext. intros j Hj. apply in_seq in Hj.
    apply pick_shift; lia. }
  assert (B : Rsum (map (fun j => Rsum (map (fun l => X j * X l
                * delta n (Z.of_nat j - Z.of_nat l - Z.of_nat t)) (seq 0 n)))
              (seq 0 n))
            = Rsum (map (fun j => X j * X ((j + t) mod n)) (seq 0 n))).
  { rewrite Rsum_swap. apply Rsum_map_ext. intros l Hl. apply in_seq in Hl.
    rewrite <- (pick_shift l t) by lia.
    apply Rsum_map_ext. intros j _.
    rewrite <- (delta_opp (Z.of_nat l - Z.of_nat j + Z.of_nat t)).
    replace (- (Z.of_nat l - Z.of_nat j + Z.of_nat t))%Z
      with (Z.of_nat j - Z.of_nat l - Z.of_nat t)%Z by ring.
    ring. }
  rewrite A, B. ring.
Qed.

Lemma corr_value t :
  (t < n)%nat ->
  (P 0 + Rsum (map (fun k => 2 * P k * cos (angle k t n)) (seq 1 (h - 1)))
   + P h * cos (angle h t n)) / INR n
  = Rsum (map (fun j => X j * X ((j + t) mod n)) (seq 0 n)).
Proof.
  intros Ht. pose proof (INR_pos_ne n n_pos) as Nn.
  assert (E : P 0 + Rsum (map (fun k => 2 * P k * cos (angle k t n))
                              (seq 1 (h - 1)))
              + P h * cos (angle h t n)
              = g t 0 + Rsum (map (fun k => 2 * g t k) (seq 1 (h - 1)))
                + g t h).
  { assert (S : Rsum (map (fun k => 2 * P k * cos (angle k t n))
                           (seq 1 (h - 1)))
                = Rsum (map (fun k => 2 * g t k) (seq 1 (h - 1)))).
    { apply Rsum_map_ext. intros k _. unfold g. rewrite angle_ang. ring. }
    rewrite S. unfold g. rewrite angle_ang.
    assert (C0 : cos (ang n (Z.of_nat 0 * Z.of_nat t)) = 1).
    { replace (ang n (Z.of_nat 0 * Z.of_nat t)) with 0
        by (unfold ang; simpl; unfold Rdiv; ring).
      apply cos_0. }
    rewrite C0. ring. }
  rewrite E, half_to_full, full_sum, double_sum_shift by exact Ht.
  field. exact Nn.
Qed.
End Autocorrelation.


Theorem corr_circular x corr :
(2 <= length x)%nat -> (length x mod 2 = 0)%nat ->
(fft <- rfft x ;; irfft (map abs_square fft)) = Ok corr ->
corr = map (circular_autocorr x) (seq 0 (length x)).
Proof.
intros H2 Hev.
set (h := (length x / 2)%nat).
assert (Hlen : length x = (2 * h)%nat).
{ unfold h. pose proof (Nat.div_mod_eq (length x) 2) as D.
  rewrite Hev in D. lia. }
assert (Hh : (1 <= h)%nat) by lia.
unfold rfft. destruct (Nat.eqb_spec (length x) 0) as [E|_]; [lia|].
cbn [bind]. unfold irfft.
rewrite !length_map, length_seq. fold h.
replace (2 * (h + 1 - 1))%nat with (length x) by lia.
destruct (Nat.eqb_spec (length x) 0) as [E|_]; [lia|].
intros H. injection H as <-.
apply map_ext_in. intros t Ht. apply in_seq in Ht.
rewrite map_map.
rewrite !(nth_map_seq _ (h + 1)) by lia.
rewrite !power_bin.
rewrite (Rsum_map_ext _ (fun k => 2 *
   Rsum (map (fun j => Rsum (map (fun l =>
      nth j x 0 * nth l x 0
      * cos (ang (length x) ((Z.of_nat j - Z.of_nat l) * Z.of_nat k)))
      (seq 0 (length x)))) (seq 0 (length x)))
   * cos (angle k t (length x))) (seq 1 (h + 1 - 2))).
2:{ intros k Hk. apply in_seq in Hk.
    rewrite (nth_map_seq _ (h + 1)) by lia. rewrite power_bin. reflexivity. }
replace (h + 1 - 2)%nat with (h - 1)%nat by lia.
replace (h + 1 - 1)%nat with h by lia.
apply (corr_value x h Hlen Hh t). lia.
Qed.

(** What [difference] computes on a window of even size: the formula of the
    comment of lines 40-45 with the circular autocorrelation for [a[tau]] and
    with [c[W - 1 - tau]] for [c[W - tau]]. *)
Lemma difference_circular cfg frame :
  lags_fit cfg -> length frame = Z.to_nat (windows cfg) ->
  (windows cfg mod 2 = 0)%Z ->
  exists diff,
    difference cfg frame = Ok diff /\
    length diff = Z.to_nat (lmax cfg) /\
    forall tau, (tau < Z.to_nat (lmax cfg))%nat ->
      let c := 0 :: cumsum (map Rsqr frame) in
      nth tau diff 0 =
        nth (Z.to_nat (windows cfg) - 1 - tau) c 0
        - 2 * circular_autocorr frame tau
        + nth (Z.to_nat (windows cfg)) c 0 - nth tau c 0.
Proof.
  intros Hfit Hlen Hev.
  destruct (difference_ok cfg frame Hfit Hlen) as [corr [diff [Hc [Hd [Ld Hn]]]]].
  exists diff. split; [exact Hd|]. split; [exact Ld|].
  intros tau Htau. rewrite (Hn tau Htau). cbv zeta.
  destruct Hfit as [Hw [Hl1 Hl2]].
  assert (Ew : (2 * (windows cfg / 2) = windows cfg)%Z).
  { pose proof (Z.div_mod (windows cfg) 2 ltac:(lia)). lia. }
  assert (Hev' : (length frame mod 2 = 0)%nat).
  { rewrite Hlen. apply Nat2Z.inj. rewrite Nat2Z.inj_mod, Z2Nat.id by lia.
    exact Hev. }
  rewrite (corr_circular frame corr ltac:(lia) Hev' Hc).
  rewrite nth_map_seq by lia. reflexivity.
Qed.

Lemma Rsum_firstn_map (f : R -> R) (x : list R) k :
  (k <= length x)%nat ->
  Rsum (firstn k (map f x)) = Rsum (map (fun j => f (nth j x 0)) (seq 0 k)).
Proof.
  revert x; induction k as [|k IH]; intros x Hk; [reflexivity|].
  destruct x as [|a x]; [simpl in Hk; lia|].
  cbn [map firstn seq]. change (Rsum (?u :: ?l)) with (u + Rsum l).
  rewrite IH by (simpl in Hk; lia).
  rewrite <- seq_shift, map_map. cbn [nth]. reflexivity.
Qed.

Lemma cumsum_energy x k :
  (k <= length x)%nat -> nth k (0 :: cumsum (map Rsqr x)) 0 = energy x k.
Proof.
  intros Hk. destruct k as [|k]; [reflexivity|].
  cbn [nth]. rewrite cumsum_nth by (rewrite length_map; lia).
  apply Rsum_firstn_map. exact Hk.
Qed.

Lemma energy_S x k : energy x (S k) = energy x k + Rsqr (nth k x 0).
Proof.
  unfold energy. rewrite seq_S, map_app, Rsum_app. cbn [map Nat.add].
  change (Rsum [?u]) with (u + 0). lra.
Qed.

Lemma energy_add x a b :
  energy x (a + b)
  = energy x a + Rsum (map (fun j => Rsqr (nth (j + a) x 0)) (seq 0 b)).
Proof.
  induction b as [|b IH].
  - rewrite Nat.add_0_r. cbn [seq map]. change (Rsum []) with 0. lra.
  - rewrite Nat.add_succ_r, energy_S, IH.
    rewrite (seq_S b), map_app, Rsum_app. cbn [map Nat.add].
    change (Rsum [?u]) with (u + 0).
    replace (b + a)%nat with (a + b)%nat by lia. lra.
Qed.

(** The sum of squared differences, expanded as in the comment of lines
    40-45, with the correlation of the frame and its shifted copy. *)
Lemma direct_expanded x tau :
  (tau <= length x)%nat ->
  Rsum (map (fun j => Rsqr (nth j x 0 - nth (j + tau) x 0))
            (seq 0 (length x - tau)))
  = energy x (length x - tau)
    - 2 * Rsum (map (fun j => nth j x 0 * nth (j + tau) x 0)
                    (seq 0 (length x - tau)))
    + energy x (length x) - energy x tau.
Proof.
  intros Ht.
  replace (energy x (length x)) with (energy x (tau + (length x - tau)))
    by (f_equal; lia).
  rewrite energy_add. unfold energy at 1.
  rewrite <- Rsum_map_scal.
  transitivity (Rsum (map (fun j => Rsqr (nth j x 0)
                                    + (- 2) * (nth j x 0 * nth (j + tau) x 0)
                                    + Rsqr (nth (j + tau) x 0))
                          (seq 0 (length x - tau)))).
  - apply Rsum_map_ext. intros j _. unfold Rsqr. ring.
  - rewrite !Rsum_map_plus, !Rsum_map_scal. lra.
Qed.

(** The circular autocorrelation is the correlation with the shifted copy
    plus the products that wrap around. *)
Lemma circular_split x tau :
  (tau < length x)%nat ->
  circular_autocorr x tau
  = Rsum (map (fun j => nth j x 0 * nth (j + tau) x 0) (seq 0 (length x - tau)))
    + wrapped x tau.
Proof.
  intros Ht. unfold circular_autocorr, wrapped.
  replace (seq 0 (length x))
    with (seq 0 (length x - tau) ++ seq (length x - tau) tau).
  2:{ rewrite <- seq_app. f_equal. lia. }
  rewrite map_app, Rsum_app. f_equal.
  - apply Rsum_map_ext. intros j Hj. apply in_seq in Hj.
    rewrite Nat.mod_small by lia. reflexivity.
  - apply Rsum_map_ext. intros j Hj. apply in_seq in Hj.
    f_equal. f_equal.
    symmetry. apply Nat.mod_unique with (q := 1%nat); lia.
Qed.

(** How far [difference] is from the sum of squared differences, on a
    window of even size. *)
Lemma difference_gap cfg frame :
  lags_fit cfg -> length frame = Z.to_nat (windows cfg) ->
  (windows cfg mod 2 = 0)%Z ->
  exists diff,
    difference cfg frame = Ok diff /\
    forall tau, (tau < Z.to_nat (lmax cfg))%nat ->
      nth tau diff 0
      = nth tau (direct_difference cfg frame) 0
        - Rsqr (nth (length frame - 1 - tau) frame 0)
        - 2 * wrapped frame tau.
Proof.
  intros Hfit Hlen Hev.
  destruct (difference_circular cfg frame Hfit Hlen Hev) as [diff [Hd [Ld Hn]]].
  exists diff. split; [exact Hd|]. intros tau Htau.
  rewrite (Hn tau Htau). cbv zeta.
  destruct Hfit as [Hw [Hl1 Hl2]].
  assert (Hwz : (2 * (windows cfg / 2) <= windows cfg)%Z)
    by (apply Z.mul_div_le; lia).
  assert (Ht : (tau < length frame)%nat) by lia.
  unfold direct_difference. rewrite nth_map_seq by exact Htau.
  rewrite direct_expanded by lia.
  rewrite circular_split by exact Ht.
  rewrite <- Hlen.
  rewrite !cumsum_energy by lia.
  replace (length frame - tau)%nat with (S (length frame - 1 - tau)) by lia.
  rewrite energy_S. lra.
Qed.

Lemma difference_two a b :
  difference cfg_small [a; b] = Ok [- (b * b); b * b - 4 * a * b].
Proof.
  destruct (difference_ok cfg_small [a; b]) as [corr [diff [Hc [Hd [Ld Hn]]]]].
  - unfold lags_fit; simpl; lia.
  - reflexivity.
  - rewrite corr_two in Hc. injection Hc as <-.
    rewrite Hd. f_equal.
    destruct diff as [|x [|y [|z diff]]]; try discriminate Ld.
    pose proof (Hn 0%nat ltac:(simpl; lia)) as H0.
    pose proof (Hn 1%nat ltac:(simpl; lia)) as H1.
    cbv zeta in H0, H1. unfold cumsum in H0, H1.
    change (Z.to_nat (windows cfg_small)) with 2%nat in H0, H1.
    cbn [map cumsum_from nth Nat.sub] in H0, H1.
    unfold Rsqr in H0, H1. list_R.
Qed.

Lemma direct_difference_two a b :
  direct_difference cfg_small [a; b] = [0; (a - b) * (a - b)].
Proof.
  unfold direct_difference.
  change (Z.to_nat (lmax cfg_small)) with 2%nat.
  cbn [seq map length Nat.sub Nat.add nth Rsum fold_right].
  unfold Rsqr. list_R.
Qed.


(** *** Floor, ceiling and truncation *)

Lemma Rfloor_bounds r : IZR (Rfloor r) <= r < IZR (Rfloor r) + 1.
Proof. unfold Rfloor. destruct (base_Int_part r). lra. Qed.

Lemma Rfloor_eq r z : IZR z <= r < IZR z + 1 -> Rfloor r = z.
Proof. intros H. unfold Rfloor. symmetry. apply Int_part_spec. lra. Qed.

Lemma Rceil_bounds r : IZR (Rceil r) - 1 < r <= IZR (Rceil r).
Proof.
  unfold Rceil. rewrite opp_IZR. destruct (base_Int_part (- r)). lra.
Qed.

Lemma Rceil_eq r z : IZR z - 1 < r <= IZR z -> Rceil r = z.
Proof.
  intros H. unfold Rceil.
  rewrite <- (Int_part_spec (- r) (- z)); [lia|]. rewrite opp_IZR. lra.
Qed.

Lemma Rfloor_IZR z : Rfloor (IZR z) = z.
Proof. apply Rfloor_eq. lra. Qed.

Lemma Rceil_IZR z : Rceil (IZR z) = z.
Proof. apply Rceil_eq. lra. Qed.

Lemma Rfloor_le_Rceil r : (Rfloor r <= Rceil r)%Z.
Proof.
  destruct (Rfloor_bounds r), (Rceil_bounds r).
  apply le_IZR. lra.
Qed.

Lemma Rtrunc_IZR z : Rtrunc (IZR z) = z.
Proof.
  unfold Rtrunc. destruct (Rle_dec 0 (IZR z)).
  - apply Rfloor_IZR.
  - apply Rceil_IZR.
Qed.

Lemma Rtrunc_ge_floor r : (Rfloor r <= Rtrunc r)%Z.
Proof.
  unfold Rtrunc. destruct (Rle_dec 0 r); [lia|apply Rfloor_le_Rceil].
Qed.

Lemma Rceil_mono a b : a <= b -> (Rceil a <= Rceil b)%Z.
Proof.
  intros H. destruct (Rceil_bounds a), (Rceil_bounds b).
  assert (IZR (Rceil a) < IZR (Rceil b) + 1) by lra.
  rewrite <- plus_IZR in *. apply lt_IZR in H4. lia.
Qed.

Lemma Rfloor_nonneg r : 0 <= r -> (0 <= Rfloor r)%Z.
Proof.
  intros H. destruct (Rfloor_bounds r).
  assert (IZR 0 < IZR (Rfloor r + 1)) by (rewrite plus_IZR; lra).
  apply lt_IZR in H2. lia.
Qed.

(** *** Logarithms and powers of two *)

Lemma ln2_pos : 0 < ln 2.
Proof. pose proof ln_lt_2. lra. Qed.

Lemma ln_le x y : 0 < x -> x <= y -> ln x <= ln y.
Proof.
  intros Hx [H|H].
  - left. apply ln_increasing; assumption.
  - subst. right. reflexivity.
Qed.

Lemma ln_ratio n d : 0 < n -> 0 < d -> ln (n / d) = ln n - ln d.
Proof.
  intros Hn Hd. unfold Rdiv.
  rewrite ln_mult, ln_Rinv; try assumption; [lra|].
  apply Rinv_0_lt_compat. assumption.
Qed.

Lemma ln_scaled x (a : nat) :
  0 < x -> ln (2 ^ a * x ^ 12) = INR a * ln 2 + 12 * ln x.
Proof.
  intros Hx.
  rewrite ln_mult, !ln_pow by (try apply pow_lt; lra).
  simpl INR. lra.
Qed.

(** [a - b < 12 log2 (n / d)] decided on integers: [2^a d^12 < n^12 2^b]. *)
Lemma log2_lower (n d : Z) (a b : nat) :
  (0 < n)%Z -> (0 < d)%Z -> (2 ^ Z.of_nat a * d ^ 12 < n ^ 12 * 2 ^ Z.of_nat b)%Z ->
  INR a - INR b < 12 * log2 (IZR n / IZR d).
Proof.
  intros Hn Hd H.
  apply IZR_lt in Hn, Hd, H.
  change 12%Z with (Z.of_nat 12) in H.
  rewrite !mult_IZR, <- !pow_IZR in H.
  assert (L : ln (2 ^ a * IZR d ^ 12) < ln (2 ^ b * IZR n ^ 12)).
  { apply ln_increasing.
    - apply Rmult_lt_0_compat; apply pow_lt; lra.
    - lra. }
  rewrite !ln_scaled in L by assumption.
  unfold log2. rewrite ln_ratio by assumption.
  pose proof ln2_pos as P.
  apply Rmult_lt_reg_r with (ln 2); [assumption|].
  replace (12 * ((ln (IZR n) - ln (IZR d)) / ln 2) * ln 2)
    with (12 * (ln (IZR n) - ln (IZR d))) by (field; lra).
  lra.
Qed.

(** [12 log2 (n / d) <= a - b] decided on integers: [n^12 2^b <= 2^a d^12]. *)
Lemma log2_upper (n d : Z) (a b : nat) :
  (0 < n)%Z -> (0 < d)%Z -> (n ^ 12 * 2 ^ Z.of_nat b <= 2 ^ Z.of_nat a * d ^ 12)%Z ->
  12 * log2 (IZR n / IZR d) <= INR a - INR b.
Proof.
  intros Hn Hd H.
  apply IZR_lt in Hn, Hd. apply IZR_le in H.
  change 12%Z with (Z.of_nat 12) in H.
  rewrite !mult_IZR, <- !pow_IZR in H.
  assert (L : ln (2 ^ b * IZR n ^ 12) <= ln (2 ^ a * IZR d ^ 12)).
  { apply ln_le.
    - apply Rmult_lt_0_compat; apply pow_lt; lra.
    - lra. }
  rewrite !ln_scaled in L by assumption.
  unfold log2. rewrite ln_ratio by assumption.
  pose proof ln2_pos as P.
  apply Rmult_le_reg_r with (ln 2); [assumption|].
  replace (12 * ((ln (IZR n) - ln (IZR d)) / ln 2) * ln 2)
    with (12 * (ln (IZR n) - ln (IZR d))) by (field; lra).
  lra.
Qed.

(** [a - b <= 12 log2 (n / d)] decided on integers. *)
Lemma log2_lower_le (n d : Z) (a b : nat) :
  (0 < n)%Z -> (0 < d)%Z -> (2 ^ Z.of_nat a * d ^ 12 <= n ^ 12 * 2 ^ Z.of_nat b)%Z ->
  INR a - INR b <= 12 * log2 (IZR n / IZR d).
Proof.
  intros Hn Hd H.
  apply IZR_lt in Hn, Hd. apply IZR_le in H.
  change 12%Z with (Z.of_nat 12) in H.
  rewrite !mult_IZR, <- !pow_IZR in H.
  assert (L : ln (2 ^ a * IZR d ^ 12) <= ln (2 ^ b * IZR n ^ 12)).
  { apply ln_le.
    - apply Rmult_lt_0_compat; apply pow_lt; lra.
    - lra. }
  rewrite !ln_scaled in L by assumption.
  unfold log2. rewrite ln_ratio by assumption.
  pose proof ln2_pos as P.
  apply Rmult_le_reg_r with (ln 2); [assumption|].
  replace (12 * ((ln (IZR n) - ln (IZR d)) / ln 2) * ln 2)
    with (12 * (ln (IZR n) - ln (IZR d))) by (field; lra).
  lra.
Qed.

(** [12 log2 (n / d) < a - b] decided on integers. *)
Lemma log2_upper_lt (n d : Z) (a b : nat) :
  (0 < n)%Z -> (0 < d)%Z -> (n ^ 12 * 2 ^ Z.of_nat b < 2 ^ Z.of_nat a * d ^ 12)%Z ->
  12 * log2 (IZR n / IZR d) < INR a - INR b.
Proof.
  intros Hn Hd H.
  apply IZR_lt in Hn, Hd, H.
  change 12%Z with (Z.of_nat 12) in H.
  rewrite !mult_IZR, <- !pow_IZR in H.
  assert (L : ln (2 ^ b * IZR n ^ 12) < ln (2 ^ a * IZR d ^ 12)).
  { apply ln_increasing.
    - apply Rmult_lt_0_compat; apply pow_lt; lra.
    - lra. }
  rewrite !ln_scaled in L by assumption.
  unfold log2. rewrite ln_ratio by assumption.
  pose proof ln2_pos as P.
  apply Rmult_lt_reg_r with (ln 2); [assumption|].
  replace (12 * ((ln (IZR n) - ln (IZR d)) / ln 2) * ln 2)
    with (12 * (ln (IZR n) - ln (IZR d))) by (field; lra).
  lra.
Qed.

Lemma log2_decreasing_arg x y : 0 < x -> x < y -> log2 x < log2 y.
Proof.
  intros Hx Hxy. unfold log2. pose proof ln2_pos.
  apply Rmult_lt_compat_r; [apply Rinv_0_lt_compat; assumption|].
  apply ln_increasing; assumption.
Qed.

Lemma Rpower2_pos x : 0 < Rpower 2 x.
Proof. unfold Rpower. apply exp_pos. Qed.

Lemma Rpower2_mono x y : x <= y -> Rpower 2 x <= Rpower 2 y.
Proof. intros H. apply Rle_Rpower; lra. Qed.

(** *** The stages of forward *)

Lemma frames_of_ok cfg audio :
  (0 <= windows cfg)%Z -> (0 < strides cfg)%Z ->
  exists frames,
    frames_of cfg audio = Ok frames /\
    length frames = (Z.to_nat (Z.of_nat (length audio) / strides cfg) + 1)%nat /\
    Forall (fun f => length f = Z.to_nat (windows cfg)) frames.
Proof.
  intros Hw Hs. unfold frames_of, pad_right.
  destruct (Z.leb_spec 0 (windows cfg)); [|lia]. cbn [bind].
  set (padded := audio ++ repeat 0 (Z.to_nat (windows cfg))).
  assert (Lp : Z.of_nat (length padded)
               = (Z.of_nat (length audio) + windows cfg)%Z).
  { unfold padded. rewrite length_app, repeat_length. lia. }
  unfold unfold. rewrite Lp.
  destruct (Z.ltb_spec (windows cfg) 0); [lia|].
  destruct (Z.ltb_spec (Z.of_nat (length audio) + windows cfg) (windows cfg));
    [lia|].
  destruct (Z.leb_spec (strides cfg) 0); [lia|]. cbn [orb].
  replace (Z.of_nat (length audio) + windows cfg - windows cfg)%Z
    with (Z.of_nat (length audio)) by lia.
  eexists; split; [reflexivity|]. split.
  - rewrite length_map, length_seq. reflexivity.
  - apply Forall_forall. intros f Hf. apply in_map_iff in Hf.
    destruct Hf as [i [<- Hi]]. apply in_seq in Hi.
    rewrite length_firstn, length_skipn.
    assert (Hd : (0 <= Z.of_nat (length audio) / strides cfg)%Z)
      by (apply Z.div_pos; lia).
    assert (Hq : (Z.of_nat i <= Z.of_nat (length audio) / strides cfg)%Z) by lia.
    assert (Hm : (strides cfg * (Z.of_nat (length audio) / strides cfg)
                  <= Z.of_nat (length audio))%Z)
      by (apply Z.mul_div_le; lia).
    assert (Hi' : (Z.of_nat i * strides cfg <= Z.of_nat (length audio))%Z) by nia.
    assert (Hn : (i * Z.to_nat (strides cfg) <= length audio)%nat).
    { apply Nat2Z.inj_le. rewrite Nat2Z.inj_mul, Z2Nat.id by lia. exact Hi'. }
    unfold padded. rewrite length_app, repeat_length. lia.
Qed.

Lemma cmnd_of_ok cfg frame :
  lags_fit cfg -> length frame = Z.to_nat (windows cfg) ->
  exists c, cmnd_of cfg frame = Ok c /\ length c = Z.to_nat (lmax cfg).
Proof.
  intros Hfit Hlen.
  destruct (difference_ok cfg frame Hfit Hlen) as [corr [diff [_ [Hd [Ld _]]]]].
  destruct (cumulative_ok cfg diff) as [c [Hc [Lc _]]];
    [apply Hfit | assumption |].
  exists c. unfold cmnd_of. rewrite Hd. cbn [bind]. auto.
Qed.

Lemma cmnds_ok cfg frames :
  lags_fit cfg -> Forall (fun f => length f = Z.to_nat (windows cfg)) frames ->
  exists cs, mapM (cmnd_of cfg) frames = Ok cs /\
             Forall (fun c => length c = Z.to_nat (lmax cfg)) cs /\
             length cs = length frames.
Proof.
  intros Hfit Hf. apply mapM_exists.
  eapply Forall_impl; [|exact Hf]. intros f Lf.
  apply cmnd_of_ok; assumption.
Qed.

(** C4.  For every frame [forward] cuts from a waveform, under a
    configuration whose lags fit the window, the normalised vector is 1 at
    index 0 and, at every lag [tau >= 1], the lag times [diff[tau]] over the
    running sum of [diff[1..tau]] plus [1e-7]. *)
Theorem cmnd_formula cfg audio frames frame :
  lags_fit cfg -> (0 < strides cfg)%Z ->
  frames_of cfg audio = Ok frames -> In frame frames ->
  exists diff c,
    difference cfg frame = Ok diff /\
    cumulative cfg diff = Ok c /\
    length c = Z.to_nat (lmax cfg) /\
    nth_error c 0 = Some (Some 1) /\
    forall tau, (1 <= tau < Z.to_nat (lmax cfg))%nat ->
      nth_error c tau =
      Some (let s := Rsum (slice diff 1 (Z.of_nat tau + 1)) + eps in
            if Req_dec_T s 0 then None
            else Some (INR tau * nth tau diff 0 / s)).
Proof.
  intros Hfit Hs Hf Hin.
  assert (Hlen : length frame = Z.to_nat (windows cfg)).
  { destruct (frames_of_ok cfg audio) as [frames' [Hf' [_ Ff]]];
      [destruct Hfit; lia | assumption |].
    rewrite Hf in Hf'. injection Hf' as <-.
    rewrite Forall_forall in Ff. apply Ff. exact Hin. }
  destruct (difference_ok cfg frame Hfit Hlen) as [corr [diff [_ [Hd [Ld _]]]]].
  destruct (cumulative_ok cfg diff) as [c [Hc [Lc [H0 Htau]]]];
    [apply Hfit | assumption |].
  exists diff, c. repeat split; try assumption.
Qed.

Lemma cmnd_formula_witness :
  exists diff c,
    difference cfg_small [1; 1] = Ok diff /\
    cumulative cfg_small diff = Ok c /\
    length c = 2%nat /\
    nth_error c 0 = Some (Some 1) /\
    forall tau, (1 <= tau < 2)%nat ->
      nth_error c tau =
      Some (let s := Rsum (slice diff 1 (Z.of_nat tau + 1)) + eps in
            if Req_dec_T s 0 then None
            else Some (INR tau * nth tau diff 0 / s)).
Proof.
  apply (cmnd_formula cfg_small [1; 1] [[1; 1]; [1; 0]; [0; 0]] [1; 1]).
  - unfold lags_fit; simpl; lia.
  - simpl; lia.
  - unfold frames_of, pad_right, unfold; simpl; reflexivity.
  - left; reflexivity.
Defined.

(** The grid bounds of line 76 are computed without an exception when the
    sample rate and the lag are positive. *)
Lemma l2m_finite cfg l :
  (0 < sr cfg)%Z -> (0 < l)%Z ->
  l2m cfg l = Ok (Finite (12 * log2 (IZR (sr cfg) / IZR (440 * l)) + 69)).
Proof.
  intros Hs Hl. unfold l2m.
  destruct (Z.eqb_spec (440 * l) 0); [lia|].
  unfold np_log2.
  destruct (Rlt_dec 0 (IZR (sr cfg) / IZR (440 * l))) as [P|N]; [reflexivity|].
  exfalso. apply N. apply Rdiv_lt_0_compat; apply IZR_lt; lia.
Qed.

Lemma grid_bounds_ok cfg :
  (0 < sr cfg)%Z -> (0 < lmin cfg)%Z -> (0 < lmax cfg)%Z ->
  (a <- l2m cfg (lmax cfg) ;; to_int (np_ceil a)) = Ok (mmin cfg) /\
  (b <- l2m cfg (lmin cfg) ;; to_int b) = Ok (mmax cfg).
Proof.
  intros Hs H1 H2. rewrite !l2m_finite by assumption. cbn [bind np_ceil to_int].
  rewrite Rtrunc_IZR. split; reflexivity.
Qed.

(** The grid is never reversed on a valid configuration: [mmax + 1 >= mmin],
    so [torch.arange] accepts its bounds. *)
Lemma grid_ordered cfg :
  (0 < sr cfg)%Z -> (0 < lmin cfg < lmax cfg)%Z ->
  (mmin cfg <= mmax cfg + 1)%Z.
Proof.
  intros Hs Hl. unfold mmin, mmax.
  set (x := 12 * log2 (IZR (sr cfg) / IZR (440 * lmax cfg)) + 69).
  set (y := 12 * log2 (IZR (sr cfg) / IZR (440 * lmin cfg)) + 69).
  assert (Hxy : x < y).
  { unfold x, y.
    assert (log2 (IZR (sr cfg) / IZR (440 * lmax cfg))
            < log2 (IZR (sr cfg) / IZR (440 * lmin cfg))); [|lra].
    apply log2_decreasing_arg.
    - apply Rdiv_lt_0_compat; apply IZR_lt; lia.
    - unfold Rdiv. apply Rmult_lt_compat_l; [apply IZR_lt; lia|].
      apply Rinv_lt_contravar.
      + apply Rmult_lt_0_compat; apply IZR_lt; lia.
      + apply IZR_lt; lia. }
  pose proof (Rtrunc_ge_floor y) as T.
  destruct (Rfloor_bounds y) as [_ F], (Rceil_bounds x) as [C _].
  assert (IZR (Rceil x) < IZR (Rfloor y + 2)) by (rewrite plus_IZR; lra).
  apply lt_IZR in H. lia.
Qed.

Lemma m2l_pos cfg m : (0 < sr cfg)%Z -> 0 < m2l cfg m.
Proof.
  intros Hs. unfold m2l. apply Rdiv_lt_0_compat; [apply IZR_lt; lia|].
  pose proof (Rpower2_pos ((IZR m - 69) / 12)). lra.
Qed.

Lemma m2l_decreasing cfg m m' :
  (0 < sr cfg)%Z -> (m <= m')%Z -> m2l cfg m' <= m2l cfg m.
Proof.
  intros Hs Hm. unfold m2l, Rdiv.
  apply Rmult_le_compat_l; [apply IZR_le; lia|].
  pose proof (Rpower2_pos ((IZR m - 69) / 12)).
  apply Rinv_le_contravar; [lra|].
  apply Rmult_le_compat_l; [lra|].
  apply Rpower2_mono. apply IZR_le in Hm. lra.
Qed.


Lemma grid_in cfg m :
  In m (grid cfg) -> (mmin cfg <= m <= mmax cfg)%Z.
Proof.
  unfold grid. intros H. apply in_map_iff in H.
  destruct H as [i [<- Hi]]. apply in_seq in Hi. lia.
Qed.

(** [forward1] up to the interpolation: the frames and their normalised
    vectors are computed, the grid is built, and what remains is the
    interpolation of every vector at every lag of the grid. *)
Lemma forward1_stages_gen cfg audio :
  lags_fit cfg -> (0 < strides cfg)%Z -> (0 < sr cfg)%Z ->
  (0 < lmin cfg)%Z -> (mmin cfg <= mmax cfg + 1)%Z ->
  exists frames cs,
    frames_of cfg audio = Ok frames /\
    mapM (cmnd_of cfg) frames = Ok cs /\
    length cs = (Z.to_nat (Z.of_nat (length audio) / strides cfg) + 1)%nat /\
    Forall (fun c => length c = Z.to_nat (lmax cfg)) cs /\
    forward1 cfg audio
    = mapM (fun c => mapM (interp1 c) (map (m2l cfg) (grid cfg))) cs.
Proof.
  intros Hfit Hs Hsr Hl Hg.
  destruct (frames_of_ok cfg audio) as [frames [Hf [Lf Ff]]];
    [destruct Hfit; lia | assumption |].
  destruct (cmnds_ok cfg frames Hfit Ff) as [cs [Hc [Fc Lc]]].
  exists frames, cs. repeat split; try assumption; [congruence|].
  unfold forward1. rewrite Hf. cbn [bind]. rewrite Hc. cbn [bind].
  rewrite !l2m_finite by (destruct Hfit; lia). cbn [bind np_ceil to_int].
  rewrite Rtrunc_IZR. cbn [bind].
  fold (mmin cfg). fold (mmax cfg).
  rewrite arange_ok by assumption.
  cbn [bind]. reflexivity.
Qed.

Lemma forward1_stages cfg audio :
  lags_fit cfg -> (0 < strides cfg)%Z -> (0 < sr cfg)%Z ->
  (0 < lmin cfg < lmax cfg)%Z ->
  exists frames cs,
    frames_of cfg audio = Ok frames /\
    mapM (cmnd_of cfg) frames = Ok cs /\
    length cs = (Z.to_nat (Z.of_nat (length audio) / strides cfg) + 1)%nat /\
    Forall (fun c => length c = Z.to_nat (lmax cfg)) cs /\
    forward1 cfg audio
    = mapM (fun c => mapM (interp1 c) (map (m2l cfg) (grid cfg))) cs.
Proof.
  intros Hfit Hs Hsr Hl.
  apply forward1_stages_gen; try assumption; [lia|].
  apply grid_ordered; assumption.
Qed.

Lemma interp1_ok c lag :
  0 < lag -> (Rceil lag < Z.of_nat (length c))%Z ->
  exists v, interp1 c lag = Ok v.
Proof.
  intros Hp Hc. unfold interp1.
  pose proof (Rfloor_nonneg lag ltac:(lra)) as F.
  pose proof (Rfloor_le_Rceil lag) as FC.
  rewrite (index_ok c (Rceil lag) None) by lia.
  rewrite (index_ok c (Rfloor lag) None) by lia.
  cbn [bind]. eexists. reflexivity.
Qed.

Lemma interp1_out c lag :
  (Z.of_nat (length c) <= Rceil lag)%Z -> interp1 c lag = Err IndexError.
Proof.
  intros H. unfold interp1. rewrite index_out by assumption. reflexivity.
Qed.

(** When the lag of the lowest MIDI index has its ceiling below [lmax],
    every read is in bounds and [forward1] returns. *)
Lemma forward1_ok cfg audio :
  lags_fit cfg -> (0 < strides cfg)%Z -> (0 < sr cfg)%Z ->
  (0 < lmin cfg < lmax cfg)%Z ->
  (Rceil (m2l cfg (mmin cfg)) < lmax cfg)%Z ->
  exists out, forward1 cfg audio = Ok out.
Proof.
  intros Hfit Hs Hsr Hl Hb.
  destruct (forward1_stages cfg audio Hfit Hs Hsr Hl)
    as [frames [cs [_ [_ [_ [Fc ->]]]]]].
  destruct (mapM_exists
              (fun c => mapM (interp1 c) (map (m2l cfg) (grid cfg)))
              (fun _ => True) cs) as [out [Ho _]]; [|exists out; exact Ho].
  eapply Forall_impl; [|exact Fc]. intros c Lc. cbv beta in Lc.
  destruct (mapM_exists (interp1 c) (fun _ => True) (map (m2l cfg) (grid cfg)))
    as [row [Hr _]]; [|exists row; auto].
  apply Forall_forall. intros lag Hin. apply in_map_iff in Hin.
  destruct Hin as [m [<- Hm]]. apply grid_in in Hm.
  destruct (interp1_ok c (m2l cfg m)) as [v Hv].
  - apply m2l_pos; assumption.
  - pose proof (Rceil_mono _ _ (m2l_decreasing cfg (mmin cfg) m Hsr (proj1 Hm))).
    lia.
  - exists v; auto.
Qed.

(** When the lag of the lowest MIDI index has its ceiling at [lmax], the
    first read of the interpolation is out of bounds. *)
Lemma forward1_index_error cfg audio :
  lags_fit cfg -> (0 < strides cfg)%Z -> (0 < sr cfg)%Z ->
  (0 < lmin cfg < lmax cfg)%Z ->
  (mmin cfg <= mmax cfg)%Z ->
  (lmax cfg <= Rceil (m2l cfg (mmin cfg)))%Z ->
  forward1 cfg audio = Err IndexError.
Proof.
  intros Hfit Hs Hsr Hl Hg Hb.
  destruct (forward1_stages cfg audio Hfit Hs Hsr Hl)
    as [frames [cs [_ [_ [Lc [Fc ->]]]]]].
  destruct cs as [|c cs]; [simpl in Lc; lia|].
  inversion Fc as [|? ? Lc0 _]; subst.
  unfold grid.
  destruct (Z.to_nat (mmax cfg + 1 - mmin cfg)) as [|k] eqn:E; [lia|].
  cbn [seq map mapM]. rewrite Z.add_0_r.
  rewrite interp1_out by lia. reflexivity.
Qed.


(** *** The grids of the example configurations *)

Lemma Rpower2_0 : Rpower 2 0 = 1.
Proof. apply Rpower_O. lra. Qed.

Lemma Rpower2_m1 : Rpower 2 (-1) = / 2.
Proof.
  replace (-1) with (Ropp 1) by lra.
  rewrite Rpower_Ropp, Rpower_1 by lra. reflexivity.
Qed.

Lemma Rtrunc_nonneg_eq r z : (0 <= z)%Z -> IZR z <= r < IZR z + 1 -> Rtrunc r = z.
Proof.
  intros Hz H. unfold Rtrunc. apply IZR_le in Hz.
  destruct (Rle_dec 0 r); [|lra]. apply Rfloor_eq. assumption.
Qed.

Lemma mmin_edge : mmin cfg_edge = 57%Z.
Proof.
  unfold mmin. apply Rceil_eq. cbn [sr lmax cfg_edge].
  pose proof (log2_lower 1760 (440 * 8) 0 13
                ltac:(lia) ltac:(lia) ltac:(vm_compute; reflexivity)) as L.
  pose proof (log2_upper 1760 (440 * 8) 0 12
                ltac:(lia) ltac:(lia) ltac:(vm_compute; discriminate)) as U.
  simpl INR in L, U. lra.
Qed.

Lemma mmax_edge : mmax cfg_edge = 81%Z.
Proof.
  unfold mmax. apply Rtrunc_nonneg_eq; [lia|]. cbn [sr lmin cfg_edge].
  pose proof (log2_lower_le 1760 (440 * 2) 12 0
                ltac:(lia) ltac:(lia) ltac:(vm_compute; discriminate)) as L.
  pose proof (log2_upper_lt 1760 (440 * 2) 13 0
                ltac:(lia) ltac:(lia) ltac:(vm_compute; reflexivity)) as U.
  simpl INR in L, U. lra.
Qed.

Lemma m2l_edge : m2l cfg_edge 57 = 8.
Proof.
  unfold m2l. cbn [sr cfg_edge].
  replace ((57 - 69) / 12) with (-1) by field.
  rewrite Rpower2_m1. field.
Qed.

Lemma mmin_a4 : mmin cfg_a4 = 69%Z.
Proof.
  unfold mmin. apply Rceil_eq. cbn [sr lmax cfg_a4].
  pose proof (log2_lower 8800 (440 * 21) 0 1
                ltac:(lia) ltac:(lia) ltac:(vm_compute; reflexivity)) as L.
  pose proof (log2_upper 8800 (440 * 21) 0 0
                ltac:(lia) ltac:(lia) ltac:(vm_compute; discriminate)) as U.
  simpl INR in L, U. lra.
Qed.

Lemma mmax_a4 : mmax cfg_a4 = 69%Z.
Proof.
  unfold mmax. apply Rtrunc_nonneg_eq; [lia|]. cbn [sr lmin cfg_a4].
  pose proof (log2_lower_le 8800 (440 * 19) 0 0
                ltac:(lia) ltac:(lia) ltac:(vm_compute; discriminate)) as L.
  pose proof (log2_upper_lt 8800 (440 * 19) 1 0
                ltac:(lia) ltac:(lia) ltac:(vm_compute; reflexivity)) as U.
  simpl INR in L, U. lra.
Qed.

Lemma m2l_a4 : m2l cfg_a4 69 = 20.
Proof.
  unfold m2l. cbn [sr cfg_a4].
  replace ((69 - 69) / 12) with 0 by field.
  rewrite Rpower2_0. field.
Qed.

Lemma grid_a4 : grid cfg_a4 = [69%Z].
Proof. unfold grid. rewrite mmin_a4, mmax_a4. reflexivity. Qed.

(** *** Integer lags *)

(** At a lag that is an integer [L0] the two reads are the same entry, the
    divisor [lceil - lfloor] is zero, and the value is not a finite number,
    whatever the entry read. *)
Lemma interp1_integer c (L0 : Z) v :
  (0 <= L0)%Z -> index c L0 = Ok v -> interp1 c (IZR L0) = Ok None.
Proof.
  intros H0 Hv. unfold interp1.
  rewrite Rceil_IZR, Rfloor_IZR, Hv. cbn [bind].
  rewrite Z.sub_diag. f_equal.
  destruct v as [x|]; cbn [fsub fmul lift2 odiv]; [|reflexivity].
  unfold fdiv. destruct (Req_dec_T 0 0) as [_|N]; [reflexivity|lra].
Qed.

Lemma valid_a4 : valid cfg_a4.
Proof. unfold valid; simpl; lia. Qed.

Lemma lags_fit_a4 : lags_fit cfg_a4.
Proof. unfold lags_fit; simpl. split; [lia|]. vm_compute. intuition discriminate. Qed.

(** Under [cfg_a4] every frame of every waveform gets the single value
    [None]: the only grid point has the integer lag 20. *)
Lemma forward1_a4 audio :
  exists frames cs,
    frames_of cfg_a4 audio = Ok frames /\
    mapM (cmnd_of cfg_a4) frames = Ok cs /\
    Forall (fun c => exists v, index c 20 = Ok v) cs /\
    forward1 cfg_a4 audio = Ok (map (fun _ => [None]) cs).
Proof.
  destruct (forward1_stages cfg_a4 audio lags_fit_a4)
    as [frames [cs [Hf [Hc [_ [Fc E]]]]]]; try (simpl; lia).
  assert (Fi : Forall (fun c => exists v, index c 20 = Ok v) cs).
  { eapply Forall_impl; [|exact Fc]. intros c Lc. cbv beta in Lc.
    exists (nth (Z.to_nat 20) c None). apply index_ok.
    rewrite Lc. simpl. lia. }
  exists frames, cs. repeat split; try assumption.
  rewrite E, grid_a4. cbn [map]. rewrite m2l_a4.
  apply mapM_ok. intros c Hin.
  rewrite Forall_forall in Fi. destruct (Fi c Hin) as [v Hv].
  cbn [mapM]. change 20 with (IZR 20).
  rewrite (interp1_integer c 20 v) by (assumption || lia). reflexivity.
Qed.

(** C2 (fails on the code).  At an integer lag [L0] the interpolation
    returns a value that is not a finite number, whatever [cmnd[L0]] is: the
    division by [lceil - lfloor = 0] is performed.  Such a lag occurs:
    [cfg_a4] is valid and its grid is the MIDI index 69, whose lag is exactly
    20; there, for every waveform and every frame, the read [cmnd[20]]
    succeeds and the value returned is not finite. *)
Theorem integer_lag_not_exact :
  (forall c L0 v, (0 <= L0)%Z -> index c L0 = Ok v ->
                  interp1 c (IZR L0) = Ok None) /\
  valid cfg_a4 /\ grid cfg_a4 = [69%Z] /\ m2l cfg_a4 69 = IZR 20 /\
  forall audio, exists cs,
    (frames <- frames_of cfg_a4 audio ;; mapM (cmnd_of cfg_a4) frames) = Ok cs /\
    Forall (fun c => exists v, index c 20 = Ok v) cs /\
    forward1 cfg_a4 audio = Ok (map (fun _ => [None]) cs).
Proof.
  split; [exact interp1_integer|].
  split; [exact valid_a4|]. split; [exact grid_a4|]. split; [exact m2l_a4|].
  intros audio. destruct (forward1_a4 audio) as [frames [cs [Hf [Hc [Fi E]]]]].
  exists cs. rewrite Hf. cbn [bind]. auto.
Qed.

(** *** Reads past the end of the normalised difference *)

Lemma lags_fit_edge : lags_fit cfg_edge.
Proof. unfold lags_fit; simpl. split; [lia|]. vm_compute. intuition discriminate. Qed.

(** C3 (fails on the code).  [cfg_edge] satisfies the invariant
    [0 < lmin < lmax <= windows]; its lowest MIDI index is 57, whose lag is
    exactly [lmax = 8], so that the read [cmnd[lceil]] is one past the end
    and [forward] raises IndexError on every non-empty batch. *)
Theorem forward_reads_out_of_bounds :
  valid cfg_edge /\ mmin cfg_edge = 57%Z /\
  Rceil (m2l cfg_edge 57) = lmax cfg_edge /\
  (forall audio, forward1 cfg_edge audio = Err IndexError) /\
  (forall wave rest, forward cfg_edge (wave :: rest) = Err IndexError).
Proof.
  assert (C : Rceil (m2l cfg_edge 57) = lmax cfg_edge).
  { rewrite m2l_edge. change 8 with (IZR 8). apply Rceil_IZR. }
  assert (F : forall audio, forward1 cfg_edge audio = Err IndexError).
  { intros audio. apply forward1_index_error.
    - exact lags_fit_edge.
    - simpl; lia.
    - simpl; lia.
    - simpl; lia.
    - rewrite mmin_edge, mmax_edge. lia.
    - rewrite mmin_edge, C. lia. }
  split; [unfold valid; simpl; lia|]. split; [exact mmin_edge|].
  split; [exact C|]. split; [exact F|].
  intros wave rest. unfold forward. cbn [mapM]. rewrite F. reflexivity.
Qed.

(** *** Silence *)

Lemma all_zero_nth l k : all_zero l -> nth k l 0 = 0.
Proof.
  intros H. destruct (Nat.lt_ge_cases k (length l)) as [L|L].
  - unfold all_zero in H. rewrite Forall_forall in H. apply H.
    apply nth_In. assumption.
  - apply nth_overflow. assumption.
Qed.

Lemma all_zero_repeat l : all_zero l -> l = repeat 0 (length l).
Proof.
  induction 1 as [|x l Hx _ IH]; simpl; [reflexivity|]. congruence.
Qed.

Lemma Rsum_zero l : all_zero l -> Rsum l = 0.
Proof.
  induction 1 as [|x l Hx _ IH]; unfold Rsum in *; cbn [fold_right];
    [reflexivity|].
  rewrite IH, Hx. ring.
Qed.

Lemma cumsum_from_zero acc l :
  acc = 0 -> all_zero l -> all_zero (cumsum_from acc l).
Proof.
  intros Ha H. revert acc Ha.
  induction H as [|x l Hx _ IH]; intros acc Ha; simpl; constructor.
  - lra.
  - apply IH. lra.
Qed.

(** The autocorrelation of a silent frame is zero at every lag. *)
Lemma corr_zero frame corr :
  all_zero frame ->
  (fft <- rfft frame ;; irfft (map abs_square fft)) = Ok corr ->
  all_zero corr.
Proof.
  intros Hz. unfold rfft.
  destruct (Nat.eqb (length frame) 0); [discriminate|]. cbn [bind].
  set (spec := map abs_square _).
  assert (Zs : all_zero spec).
  { unfold spec. apply Forall_forall. intros y Hy.
    apply in_map_iff in Hy. destruct Hy as [z [<- Hzin]].
    apply in_map_iff in Hzin. destruct Hzin as [k [<- _]].
    rewrite abs_square_eq. cbn [fst snd].
    rewrite !Rsum_zero; [lra| |];
      apply Forall_forall; intros t Ht; apply in_map_iff in Ht;
      destruct Ht as [j [<- _]]; rewrite all_zero_nth by assumption; lra. }
  unfold irfft. destruct (Nat.eqb (2 * (length spec - 1)) 0); [discriminate|].
  intros H. injection H as <-.
  apply Forall_forall. intros y Hy. apply in_map_iff in Hy.
  destruct Hy as [t [<- _]].
  rewrite !all_zero_nth by assumption.
  rewrite Rsum_zero.
  - unfold Rdiv. ring.
  - apply Forall_forall; intros u Hu; apply in_map_iff in Hu.
    destruct Hu as [k [<- _]]. rewrite all_zero_nth by assumption. ring.
Qed.

(** The difference function of a silent frame is zero at every lag. *)
Lemma difference_silence cfg frame :
  lags_fit cfg -> length frame = Z.to_nat (windows cfg) -> all_zero frame ->
  difference cfg frame = Ok (repeat 0 (Z.to_nat (lmax cfg))).
Proof.
  intros Hfit Hlen Hz.
  destruct (difference_ok cfg frame Hfit Hlen) as [corr [diff [Hc [Hd [Ld Hn]]]]].
  rewrite Hd. f_equal. rewrite <- Ld. apply all_zero_repeat.
  apply Forall_forall. intros x Hx.
  destruct (In_nth _ _ 0 Hx) as [tau [Ht <-]].
  rewrite Hn by lia. cbv zeta.
  assert (Zc : all_zero (0 :: cumsum (map Rsqr frame))).
  { constructor; [reflexivity|]. apply cumsum_from_zero; [reflexivity|].
    apply Forall_forall. intros y Hy. apply in_map_iff in Hy.
    destruct Hy as [z [<- Hzin]].
    unfold all_zero in Hz. rewrite Forall_forall in Hz.
    rewrite (Hz z Hzin). unfold Rsqr. ring. }
  rewrite !(all_zero_nth _ _ Zc).
  rewrite (all_zero_nth _ _ (corr_zero frame corr Hz Hc)). ring.
Qed.

Lemma eps_pos : 0 < eps.
Proof. unfold eps. apply Rinv_0_lt_compat. lra. Qed.

Lemma all_zero_slice l a b :
  (0 <= a <= b)%Z -> (b <= Z.of_nat (length l))%Z ->
  all_zero l -> all_zero (slice l a b).
Proof.
  intros H1 H2 Hz. rewrite slice_inner by assumption.
  apply Forall_forall. intros x Hx.
  apply in_firstn, in_skipn in Hx.
  unfold all_zero in Hz. rewrite Forall_forall in Hz. auto.
Qed.

(** The normalised difference of a silent frame: 1 at lag 0, then zeros. *)
Lemma cumulative_silence cfg :
  (1 <= lmax cfg)%Z ->
  cumulative cfg (repeat 0 (Z.to_nat (lmax cfg)))
  = Ok (Some 1 :: repeat (Some 0) (Z.to_nat (lmax cfg) - 1)).
Proof.
  intros Hl.
  set (diff := repeat 0 (Z.to_nat (lmax cfg))).
  assert (Ld : length diff = Z.to_nat (lmax cfg)) by apply repeat_length.
  assert (Zd : all_zero diff).
  { apply Forall_forall. intros x Hx. apply repeat_spec in Hx. assumption. }
  destruct (cumulative_ok cfg diff Hl Ld) as [c [Hc [Lc [H0 Ht]]]].
  rewrite Hc. f_equal.
  apply nth_error_ext. intros [|k].
  - rewrite H0. reflexivity.
  - destruct (Nat.lt_ge_cases (S k) (Z.to_nat (lmax cfg))) as [L|L].
    + rewrite Ht by lia. cbn [nth_error].
      rewrite (nth_error_nth' _ (Some 0)) by (rewrite repeat_length; lia).
      rewrite nth_repeat. f_equal. unfold cmnd_value.
      rewrite Rsum_zero by (apply all_zero_slice; try assumption; lia).
      rewrite all_zero_nth by assumption.
      pose proof eps_pos.
      destruct (Req_dec_T (0 + eps) 0); [lra|].
      f_equal. unfold Rdiv. ring.
    + transitivity (@None (option R)).
      * apply nth_error_None. lia.
      * symmetry. apply nth_error_None. cbn [length].
        rewrite repeat_length. lia.
Qed.

Lemma cmnd_of_silence cfg frame :
  lags_fit cfg -> length frame = Z.to_nat (windows cfg) -> all_zero frame ->
  cmnd_of cfg frame = Ok (Some 1 :: repeat (Some 0) (Z.to_nat (lmax cfg) - 1)).
Proof.
  intros Hfit Hlen Hz. unfold cmnd_of.
  rewrite difference_silence by assumption. cbn [bind].
  apply cumulative_silence. apply Hfit.
Qed.

(** The frames of a silent waveform are silent. *)
Lemma frames_of_silence cfg audio frames :
  all_zero audio -> frames_of cfg audio = Ok frames -> Forall all_zero frames.
Proof.
  intros Hz. unfold frames_of, pad_right.
  destruct (0 <=? windows cfg)%Z.
  - cbn [bind]. unfold unfold.
    destruct (_ || _ || _)%bool; [discriminate|].
    intros H. injection H as <-.
    apply Forall_forall. intros f Hf. apply in_map_iff in Hf.
    destruct Hf as [i [<- _]].
    apply Forall_forall. intros y Hy.
    apply in_firstn, in_skipn, in_app_or in Hy.
    destruct Hy as [Hy|Hy].
    + unfold all_zero in Hz. rewrite Forall_forall in Hz. auto.
    + apply repeat_spec in Hy. exact Hy.
  - destruct (_ <? 0)%Z; cbn [bind]; [discriminate|]. unfold unfold.
    destruct (_ || _ || _)%bool; [discriminate|].
    intros H. injection H as <-.
    apply Forall_forall. intros f Hf. apply in_map_iff in Hf.
    destruct Hf as [i [<- _]].
    apply Forall_forall. intros y Hy.
    apply in_firstn, in_skipn, in_firstn in Hy.
    unfold all_zero in Hz. rewrite Forall_forall in Hz. auto.
Qed.

(** Between two distinct finite entries the interpolation is finite. *)
Lemma interp1_finite c lag :
  0 < lag -> (Rceil lag < Z.of_nat (length c))%Z ->
  (Rfloor lag < Rceil lag)%Z ->
  Forall (fun v => exists x, v = Some x) c ->
  exists x, interp1 c lag = Ok (Some x).
Proof.
  intros Hp Hc Hne Hfin. unfold interp1.
  pose proof (Rfloor_nonneg lag ltac:(lra)) as F.
  rewrite (index_ok c (Rceil lag) None) by lia.
  rewrite (index_ok c (Rfloor lag) None) by lia.
  cbn [bind]. rewrite Forall_forall in Hfin.
  destruct (Hfin (nth (Z.to_nat (Rceil lag)) c None)) as [hi ->];
    [apply nth_In; lia|].
  destruct (Hfin (nth (Z.to_nat (Rfloor lag)) c None)) as [lo ->];
    [apply nth_In; lia|].
  cbn [fsub fmul lift2 odiv]. unfold fdiv.
  destruct (Req_dec_T (IZR (Rceil lag - Rfloor lag)) 0) as [E|E].
  - apply eq_IZR in E. lia.
  - cbn [fadd lift2]. eexists. reflexivity.
Qed.

(** On a silent frame the value at a lag that is not an integer, with its
    ceiling below [lmax], is a finite number. *)
Lemma silence_finite_off_integers cfg frame lag :
  lags_fit cfg -> length frame = Z.to_nat (windows cfg) -> all_zero frame ->
  0 < lag -> (Rfloor lag < Rceil lag < lmax cfg)%Z ->
  exists x, (c <- cmnd_of cfg frame ;; interp1 c lag) = Ok (Some x).
Proof.
  intros Hfit Hlen Hz Hp Hb.
  rewrite cmnd_of_silence by assumption. cbn [bind].
  apply interp1_finite; try assumption; try lia.
  - cbn [length]. rewrite repeat_length. destruct Hfit. lia.
  - constructor; [eexists; reflexivity|].
    apply Forall_forall. intros v Hv. apply repeat_spec in Hv.
    eexists. exact Hv.
Qed.

Lemma forward_a4_silence :
  forward cfg_a4 [silence22] = Ok [[[None]; [None]; [None]]].
Proof.
  unfold forward. cbn [mapM].
  destruct (forward1_a4 silence22) as [frames [cs [Hf [Hc [_ E]]]]].
  rewrite E. cbn [bind]. do 2 f_equal.
  assert (Ef : frames = [silence22; silence22; silence22]).
  { assert (Ok frames = Ok [silence22; silence22; silence22]) as X
      by (rewrite <- Hf; reflexivity).
    injection X as ->. reflexivity. }
  subst frames. apply mapM_length in Hc.
  destruct cs as [|c1 [|c2 [|c3 [|c4 cs]]]]; try discriminate Hc.
  reflexivity.
Qed.

(** C6 (fails on the code).  Under the valid configuration [cfg_a4] the
    silent waveform of 22 samples (the window size) has three silent frames;
    the difference function of each is zero at every lag and the normalised
    difference is 1 at index 0 (and 0 elsewhere), but the value returned at
    the grid point of MIDI 69 is not a finite number in any frame. *)
Theorem silence_not_finite :
  valid cfg_a4 /\
  frames_of cfg_a4 silence22 = Ok [silence22; silence22; silence22] /\
  difference cfg_a4 silence22 = Ok (repeat 0 21) /\
  cmnd_of cfg_a4 silence22 = Ok (Some 1 :: repeat (Some 0) 20) /\
  forward cfg_a4 [silence22] = Ok [[[None]; [None]; [None]]].
Proof.
  assert (Z22 : all_zero silence22).
  { apply Forall_forall. intros x Hx. apply repeat_spec in Hx. assumption. }
  split; [exact valid_a4|]. split; [reflexivity|]. split; [|split].
  - apply (difference_silence cfg_a4 silence22 lags_fit_a4 eq_refl Z22).
  - apply (cmnd_of_silence cfg_a4 silence22 lags_fit_a4 eq_refl Z22).
  - exact forward_a4_silence.
Qed.

(** *** The difference function of a constant frame *)

Lemma nth_ones j : (j < 22)%nat -> nth j ones22 0 = 1.
Proof. intros H. unfold ones22. apply nth_repeat_lt. exact H. Qed.

Lemma direct_difference_ones : direct_difference cfg_a4 ones22 = repeat 0 21.
Proof.
  unfold direct_difference. change (Z.to_nat (lmax cfg_a4)) with 21%nat.
  apply nth_ext with (d := 0) (d' := 0).
  - rewrite length_map, length_seq, repeat_length. reflexivity.
  - intros tau Ht. rewrite length_map, length_seq in Ht.
    rewrite nth_map_seq by exact Ht. rewrite nth_repeat.
    apply Rsum_zero. apply Forall_forall. intros y Hy.
    apply in_map_iff in Hy. destruct Hy as [k [<- Hk]]. apply in_seq in Hk.
    change (length ones22) with 22%nat in Hk.
    rewrite !nth_ones by lia. unfold Rsqr. ring.
Qed.

Lemma wrapped_ones tau : (tau <= 22)%nat -> wrapped ones22 tau = INR tau.
Proof.
  intros Ht. unfold wrapped. change (length ones22) with 22%nat.
  rewrite (Rsum_map_ext _ (fun _ => 1)).
  - rewrite Rsum_ones, length_seq. reflexivity.
  - intros j Hj. apply in_seq in Hj. rewrite !nth_ones by lia. ring.
Qed.

Lemma difference_ones :
  exists diff,
    difference cfg_a4 ones22 = Ok diff /\
    forall tau, (tau < 21)%nat -> nth tau diff 0 = - (1 + 2 * INR tau).
Proof.
  destruct (difference_gap cfg_a4 ones22 lags_fit_a4 eq_refl eq_refl)
    as [diff [Hd Hn]].
  exists diff. split; [exact Hd|]. intros tau Ht.
  rewrite (Hn tau Ht), direct_difference_ones, nth_repeat.
  change (length ones22) with 22%nat.
  rewrite nth_ones, wrapped_ones by lia. unfold Rsqr. ring.
Qed.

(** C1 (fails on the code).  Under the valid configuration [cfg_a4], the
    first frame of the constant waveform of 22 ones is 22 ones.  Its sum of
    squared differences is 0 at every lag; [difference] returns
    [- (1 + 2 tau)] at lag [tau].  Likewise on a window of two samples: for
    the frame [1, 1] the sums are 0 and 0, the values returned -1 and -3. *)
Theorem difference_not_direct :
  valid cfg_a4 /\
  (exists rest, frames_of cfg_a4 ones22 = Ok (ones22 :: rest)) /\
  direct_difference cfg_a4 ones22 = repeat 0 21 /\
  (exists diff,
     difference cfg_a4 ones22 = Ok diff /\
     forall tau, (tau < 21)%nat -> nth tau diff 0 = - (1 + 2 * INR tau)) /\
  valid cfg_small /\
  direct_difference cfg_small [1; 1] = [0; 0] /\
  difference cfg_small [1; 1] = Ok [-1; -3].
Proof.
  split; [unfold valid; simpl; lia|].
  split; [eexists; reflexivity|].
  split; [exact direct_difference_ones|].
  split; [exact difference_ones|].
  split; [unfold valid; simpl; lia|]. split.
  - rewrite direct_difference_two. list_R.
  - rewrite difference_two. f_equal. list_R.
Qed.

(** *** The shape of the output *)




(** *** Configurations outside the invariant *)

Lemma mmin_eq : mmin cfg_eq = 69%Z.
Proof. exact mmin_a4. Qed.

Lemma mmax_eq : mmax cfg_eq = 68%Z.
Proof.
  unfold mmax. apply Rtrunc_nonneg_eq; [lia|]. cbn [sr lmin cfg_eq].
  pose proof (log2_lower_le 8800 (440 * 21) 0 1
                ltac:(lia) ltac:(lia) ltac:(vm_compute; discriminate)) as L.
  pose proof (log2_upper_lt 8800 (440 * 21) 0 0
                ltac:(lia) ltac:(lia) ltac:(vm_compute; reflexivity)) as U.
  simpl INR in L, U. lra.
Qed.

Lemma forward_eq_silence :
  forward cfg_eq [silence22] = Ok [[[]; []; []]].
Proof.
  unfold forward. cbn [mapM].
  destruct (forward1_stages_gen cfg_eq silence22)
    as [frames [cs [Hf [Hc [Lc [_ E]]]]]].
  - exact lags_fit_a4.
  - simpl; lia.
  - simpl; lia.
  - simpl; lia.
  - rewrite mmin_eq, mmax_eq. lia.
  - rewrite E. unfold grid. rewrite mmin_eq, mmax_eq. cbn [Z.to_nat seq map].
    change (Z.to_nat (68 + 1 - 69)) with 0%nat. cbn [seq map mapM].
    rewrite (mapM_ok _ (fun _ => [])) by reflexivity.
    cbn [bind]. do 2 f_equal.
    unfold silence22 in Lc. rewrite repeat_length in Lc.
    change (Z.to_nat (Z.of_nat 22 / strides cfg_eq) + 1)%nat with 3%nat in Lc.
    destruct cs as [|c1 [|c2 [|c3 [|c4 cs]]]]; try discriminate Lc.
    reflexivity.
Qed.

(** C7 (the claim as stated fails).  With [lmin = lmax = 21] the
    configuration violates the invariant; the constructor accepts it and the
    first call returns a batch whose last dimension is empty. *)
Lemma no_config_error_counterexample :
  ~ valid cfg_eq /\
  __init__ 11 22 21 21 8800 = Ok cfg_eq /\
  forward cfg_eq [silence22] = Ok [[[]; []; []]].
Proof.
  split; [|split].
  - unfold valid; simpl; lia.
  - reflexivity.
  - exact forward_eq_silence.
Qed.

Lemma rfft_empty : rfft [] = Err RuntimeError.
Proof. reflexivity. Qed.

Lemma cmnd_of_short cfg frame :
  (length frame <= 1)%nat -> cmnd_of cfg frame = Err RuntimeError.
Proof.
  intros H. unfold cmnd_of, difference.
  destruct frame as [|x [|y frame]]; [reflexivity| |simpl in H; lia].
  unfold rfft. cbn [length Nat.eqb bind]. reflexivity.
Qed.

(** Without a positive stride and a window of at least two samples the first
    call is refused by the tensor library. *)
Lemma forward1_runtime_error cfg audio :
  (strides cfg <= 0 \/ windows cfg <= 1)%Z ->
  forward1 cfg audio = Err RuntimeError.
Proof.
  intros H. unfold forward1.
  destruct (Z.ltb_spec (windows cfg) 0) as [Wn|Wp].
  - (* a negative window: the crop or the unfold fails *)
    unfold frames_of, pad_right.
    destruct (Z.leb_spec 0 (windows cfg)); [lia|].
    destruct (Z.of_nat (length audio) + windows cfg <? 0)%Z; [reflexivity|].
    cbn [bind]. unfold unfold.
    destruct (Z.ltb_spec (windows cfg) 0); [reflexivity|lia].
  - destruct (Z.leb_spec (strides cfg) 0) as [Sn|Sp].
    + (* no positive stride: the unfold fails *)
      unfold frames_of, pad_right.
      destruct (Z.leb_spec 0 (windows cfg)); [|lia]. cbn [bind].
      unfold unfold.
      destruct (Z.leb_spec (strides cfg) 0); [|lia].
      rewrite !orb_true_r. reflexivity.
    + (* a window of 0 or 1 sample: the transforms fail on the first frame *)
      destruct (frames_of_ok cfg audio Wp Sp) as [frames [Hf [Lf Ff]]].
      rewrite Hf. cbn [bind].
      destruct frames as [|f frames]; [simpl in Lf; lia|].
      inversion Ff as [|? ? Lf0 _]; subst.
      cbn [mapM]. rewrite cmnd_of_short by lia. reflexivity.
Qed.

Lemma broadcast_length {A B C : Type} (f : A -> B -> C) a b r :
  broadcast f a b = Ok r ->
  (length a = length b /\ length r = length a) \/
  (length a = 1%nat /\ length r = length b) \/
  (length b = 1%nat /\ length r = length a).
Proof.
  unfold broadcast. destruct (Nat.eqb_spec (length a) (length b)) as [E|E].
  - intros H. injection H as <-. left. rewrite map2_length. lia.
  - destruct a as [|x [|x' a]]; destruct b as [|y [|y' b]];
      intros H; try discriminate H; injection H as <-;
      cbn [map length]; rewrite ?length_map; lia.
Qed.

Lemma broadcast_err {A B C : Type} (f : A -> B -> C) a b e :
  broadcast f a b = Err e -> e = RuntimeError.
Proof.
  unfold broadcast. destruct (Nat.eqb (length a) (length b)); [discriminate|].
  destruct a as [|x [|x' a]]; destruct b as [|y [|y' b]];
    intros H; try discriminate H; injection H as <-; reflexivity.
Qed.

(** With lags beyond the window the slices of the difference function have
    different sizes, and the tensor library refuses to combine them. *)
Lemma difference_lags_beyond cfg frame :
  (2 <= windows cfg < lmax cfg)%Z ->
  length frame = Z.to_nat (windows cfg) ->
  difference cfg frame = Err RuntimeError.
Proof.
  intros Hw Hlen. unfold difference.
  destruct (corr_ok frame ltac:(lia)) as [corr [Hc Lc]].
  destruct (rfft frame) as [fft|]; cbn [bind] in Hc |- *; [|discriminate].
  rewrite Hc. cbn [bind].
  set (c := 0 :: cumsum (map Rsqr frame)).
  assert (Lcs : length c = S (Z.to_nat (windows cfg))).
  { unfold c. simpl. rewrite cumsum_length, length_map, Hlen. reflexivity. }
  assert (L1 : (1 <= length frame / 2)%nat)
    by (apply Nat.div_le_lower_bound; lia).
  assert (L2 : (2 * (length frame / 2) <= length frame)%nat)
    by (apply Nat.Div0.mul_div_le).
  assert (LB : length (map (Rmult 2) (slice_to corr (lmax cfg))) = length corr).
  { rewrite length_map, slice_to_all by lia. reflexivity. }
  assert (LD : length (slice_to c (lmax cfg)) = length c).
  { rewrite slice_to_all by lia. reflexivity. }
  destruct (broadcast Rminus _ (map (Rmult 2) _)) as [a|e] eqn:Ea;
    cbn [bind]; [|rewrite (broadcast_err _ _ _ _ Ea); reflexivity].
  assert (La : length a = length corr).
  { destruct (broadcast_length _ _ _ _ Ea) as [[E1 E2]|[[E1 E2]|[E1 E2]]]; lia. }
  rewrite (index_ok c (windows cfg) 0) by lia. cbn [bind].
  rewrite broadcast_scalar_r. cbn [bind].
  unfold broadcast. rewrite length_map, La, LD, Lcs, Lc, Hlen.
  rewrite Hlen in L1, L2, Lc. rewrite Lc in La.
  destruct (Nat.eqb_spec (2 * (Z.to_nat (windows cfg) / 2))
                         (S (Z.to_nat (windows cfg)))) as [E|_]; [lia|].
  destruct (map _ a) as [|u [|u' m]] eqn:Em.
  - apply (f_equal (@length R)) in Em. rewrite length_map in Em.
    simpl in Em. lia.
  - apply (f_equal (@length R)) in Em. rewrite length_map in Em.
    simpl in Em. lia.
  - destruct (slice_to c (lmax cfg)) as [|v [|v' D]] eqn:Ed;
      [reflexivity| |reflexivity].
    rewrite Lcs in LD. cbn [length] in LD. lia.
Qed.

Lemma forward1_lags_beyond cfg audio :
  (0 < strides cfg)%Z -> (2 <= windows cfg < lmax cfg)%Z ->
  forward1 cfg audio = Err RuntimeError.
Proof.
  intros Hs Hw. unfold forward1.
  destruct (frames_of_ok cfg audio ltac:(lia) Hs) as [frames [Hf [Lf Ff]]].
  rewrite Hf. cbn [bind].
  destruct frames as [|f frames]; [simpl in Lf; lia|].
  inversion Ff as [|? ? Lf0 _]; subst.
  cbn [mapM]. unfold cmnd_of at 1.
  rewrite difference_lags_beyond by assumption. reflexivity.
Qed.

(** A lag bound [lmin] that is not positive is met by Python's arithmetic:
    a division by zero, or the conversion of a NaN to an integer. *)
Lemma forward1_lmin_not_positive cfg audio :
  lags_fit cfg -> (0 < strides cfg)%Z -> (0 < sr cfg)%Z -> (lmin cfg <= 0)%Z ->
  forward1 cfg audio
  = Err (if (lmin cfg =? 0)%Z then ZeroDivisionError else ValueError).
Proof.
  intros Hfit Hs Hsr Hl. unfold forward1.
  destruct (frames_of_ok cfg audio) as [frames [Hf [Lf Ff]]];
    [destruct Hfit; lia | assumption |].
  destruct (cmnds_ok cfg frames Hfit Ff) as [cs [Hc _]].
  rewrite Hf. cbn [bind]. rewrite Hc. cbn [bind].
  rewrite l2m_finite by (destruct Hfit; lia). cbn [bind np_ceil to_int].
  unfold l2m. destruct (Z.eqb_spec (lmin cfg) 0) as [E|E].
  - rewrite E. reflexivity.
  - destruct (Z.eqb_spec (440 * lmin cfg) 0); [lia|].
    unfold np_log2.
    assert (N : IZR (sr cfg) / IZR (440 * lmin cfg) < 0).
    { unfold Rdiv. apply IZR_lt in Hsr.
      assert (IZR (440 * lmin cfg) < 0) by (apply IZR_lt; lia).
      assert (/ IZR (440 * lmin cfg) < 0) by (apply Rinv_lt_0_compat; lra).
      nra. }
    destruct (Rlt_dec 0 _); [lra|]. destruct (Req_dec_T _ 0); [lra|].
    reflexivity.
Qed.

(** C7, amended.  The constructor accepts every configuration and stores it
    unchecked.  What a configuration outside the invariant meets at the first
    call on a batch is an exception of the tensor library or of Python:
    RuntimeError without a positive stride and a window of at least two
    samples, RuntimeError with [lmax] beyond the window, ZeroDivisionError
    with [lmin = 0] and ValueError with [lmin < 0]. *)
Theorem no_validation :
  (forall strides windows lmin lmax sr,
     __init__ strides windows lmin lmax sr
     = Ok {| strides := strides; windows := windows;
             lmin := lmin; lmax := lmax; sr := sr |}) /\
  (forall cfg wave rest,
     (strides cfg <= 0 \/ windows cfg <= 1)%Z ->
     forward cfg (wave :: rest) = Err RuntimeError) /\
  (forall cfg wave rest,
     (0 < strides cfg)%Z -> (2 <= windows cfg < lmax cfg)%Z ->
     forward cfg (wave :: rest) = Err RuntimeError) /\
  (forall cfg wave rest,
     lags_fit cfg -> (0 < strides cfg)%Z -> (0 < sr cfg)%Z ->
     (lmin cfg <= 0)%Z ->
     forward cfg (wave :: rest)
     = Err (if (lmin cfg =? 0)%Z then ZeroDivisionError else ValueError)).
Proof.
  split; [reflexivity|]. split; [|split].
  - intros cfg wave rest H. unfold forward. cbn [mapM].
    rewrite forward1_runtime_error by assumption. reflexivity.
  - intros cfg wave rest Hs Hw. unfold forward. cbn [mapM].
    rewrite forward1_lags_beyond by assumption. reflexivity.
  - intros cfg wave rest Hfit Hs Hsr Hl. unfold forward. cbn [mapM].
    rewrite forward1_lmin_not_positive by assumption. reflexivity.
Qed.

Lemma no_validation_witness :
  __init__ 0 22 19 21 8800 = Ok cfg_nostride /\
  forward cfg_nostride [silence22] = Err RuntimeError /\
  forward cfg_beyond [silence22] = Err RuntimeError /\
  forward cfg_lmin0 [silence22] = Err ZeroDivisionError.
Proof.
  destruct no_validation as [Hi [H1 [H2 H3]]].
  split; [apply Hi|]. split; [|split].
  - apply (H1 cfg_nostride silence22 []). left. simpl. lia.
  - apply (H2 cfg_beyond silence22 []); simpl; lia.
  - apply (H3 cfg_lmin0 silence22 []); try (simpl; lia).
    exact lags_fit_a4.
Defined.

End YingramFacts.

(** * Properties of the paired dataset *)

Module DatasetFacts.
Import Dataset ListFacts.

(** *** Dictionaries *)

Lemma dict_get_in {V : Type} (d : dict V) k v :
  NoDup (map fst d) -> In (k, v) d -> dict_get k d = Some v.
Proof.
  induction d as [|[k' v'] d IH]; simpl; intros N H; [contradiction|].
  inversion N as [|? ? Nk Nd]; subst.
  destruct H as [H|H].
  - injection H as -> ->. rewrite Z.eqb_refl. reflexivity.
  - destruct (Z.eqb_spec k' k) as [->|_].
    + exfalso. apply Nk. apply (in_map fst) in H. exact H.
    + apply IH; assumption.
Qed.

Lemma dict_get_some_in {V : Type} (d : dict V) k v :
  dict_get k d = Some v -> In (k, v) d.
Proof.
  induction d as [|[k' v'] d IH]; simpl; intros H; [discriminate|].
  destruct (Z.eqb_spec k' k) as [->|_].
  - injection H as ->. left; reflexivity.
  - right; auto.
Qed.

Lemma dict_set_keys_present {V : Type} (d : dict V) k v v0 :
  dict_get k d = Some v0 -> map fst (dict_set k v d) = map fst d.
Proof.
  induction d as [|[k' v'] d IH]; simpl; intros H; [discriminate|].
  destruct (Z.eqb_spec k' k) as [->|_]; simpl; [reflexivity|].
  f_equal. auto.
Qed.

Lemma dict_set_keys_absent {V : Type} (d : dict V) k v :
  dict_get k d = None -> dict_set k v d = d ++ [(k, v)].
Proof.
  induction d as [|[k' v'] d IH]; simpl; intros H; [reflexivity|].
  destruct (Z.eqb_spec k' k) as [->|_]; [discriminate|].
  f_equal. auto.
Qed.

Lemma dict_get_none_notin {V : Type} (d : dict V) k :
  dict_get k d = None -> ~ In k (map fst d).
Proof.
  induction d as [|[k' v'] d IH]; simpl; intros H; [tauto|].
  destruct (Z.eqb_spec k' k) as [->|N]; [discriminate|].
  intros [E|E]; [congruence|]. apply IH; assumption.
Qed.

Lemma notin_dict_get_none {V : Type} (d : dict V) k :
  ~ In k (map fst d) -> dict_get k d = None.
Proof.
  induction d as [|[k' v'] d IH]; simpl; intros H; [reflexivity|].
  destruct (Z.eqb_spec k' k) as [->|N]; [tauto|].
  apply IH. tauto.
Qed.

Lemma dict_get_set_same {V : Type} (d : dict V) k v :
  dict_get k (dict_set k v d) = Some v.
Proof.
  induction d as [|[k' v'] d IH]; simpl.
  - rewrite Z.eqb_refl. reflexivity.
  - destruct (Z.eqb_spec k' k) as [->|N]; simpl.
    + rewrite Z.eqb_refl. reflexivity.
    + destruct (Z.eqb_spec k' k); [contradiction|]. exact IH.
Qed.

Lemma dict_set_nodup {V : Type} (d : dict V) k v :
  NoDup (map fst d) -> NoDup (map fst (dict_set k v d)).
Proof.
  intros N. destruct (dict_get k d) as [v0|] eqn:E.
  - rewrite (dict_set_keys_present d k v v0 E). exact N.
  - rewrite (dict_set_keys_absent d k v E), map_app. simpl.
    apply Permutation_NoDup with (l := k :: map fst d).
    + apply Permutation_cons_append.
    + constructor; [apply dict_get_none_notin; assumption|exact N].
Qed.

(** [dict(items)] of items with distinct keys is the items. *)
Lemma dict_of_items_app {V : Type} (acc items : dict V) :
  NoDup (map fst (acc ++ items)) ->
  fold_left (fun d kv => dict_set (fst kv) (snd kv) d) items acc = acc ++ items.
Proof.
  revert acc; induction items as [|[k v] items IH]; intros acc N; simpl.
  - rewrite app_nil_r. reflexivity.
  - rewrite dict_set_keys_absent.
    + rewrite IH; rewrite <- app_assoc; [reflexivity|exact N].
    + apply notin_dict_get_none.
      rewrite map_app in N. simpl in N.
      apply NoDup_remove_2 in N. intros H. apply N.
      apply in_or_app. left. exact H.
Qed.

Lemma dict_of_items_id {V : Type} (items : dict V) :
  NoDup (map fst items) -> dict_of_items items = items.
Proof. intros N. unfold dict_of_items. apply dict_of_items_app. exact N. Qed.

Lemma nodup_firstn {A : Type} n (l : list A) : NoDup l -> NoDup (firstn n l).
Proof.
  revert l; induction n as [|n IH]; intros [|a l] N; simpl; try constructor.
  - inversion N; subst. intros H. apply in_firstn in H. contradiction.
  - inversion N; subst. auto.
Qed.

Lemma nodup_skipn {A : Type} n (l : list A) : NoDup l -> NoDup (skipn n l).
Proof.
  revert l; induction n as [|n IH]; intros [|a l] N; simpl; auto.
  inversion N; subst. auto.
Qed.

Lemma nodup_keys_slice {V : Type} (d : dict V) a b :
  NoDup (map fst d) -> NoDup (map fst (slice d a b)).
Proof.
  intros N. unfold slice. rewrite <- firstn_map, <- skipn_map.
  apply nodup_firstn, nodup_skipn. exact N.
Qed.

(** *** One speaker *)

Lemma reshape2_ok k : forall l,
  length l = 2 * k ->
  exists rows, reshape2 l = Ok rows /\ flat_rows rows = l /\ length rows = k.
Proof.
  induction k as [|k IH]; intros l H.
  - destruct l; [|discriminate]. exists []. auto.
  - destruct l as [|i [|j l]]; try (simpl in H; lia).
    destruct (IH l ltac:(simpl in H; lia)) as [rows [Hr [Hf Hl]]].
    exists ((i, j) :: rows). cbn [reshape2]. rewrite Hr. cbn [bind].
    repeat split.
    + simpl. f_equal. f_equal. exact Hf.
    + simpl. f_equal. exact Hl.
Qed.

Lemma getitem_ok {A : Type} (l : list A) i d :
  i < length l -> getitem l i = Ok (nth i l d).
Proof.
  intros H. unfold getitem. rewrite (nth_error_nth' l d H). reflexivity.
Qed.

Lemma getitem_in {A : Type} (l : list A) i a : getitem l i = Ok a -> In a l.
Proof.
  unfold getitem. destruct (nth_error l i) eqn:E; [|discriminate].
  intros H. injection H as <-. eapply nth_error_In. exact E.
Qed.

Lemma lookups_ok (sid : Z) (paths : list string) rows :
  (forall i, In i (flat_rows rows) -> i < length paths) ->
  mapM (fun ij : nat * nat => p1 <- getitem paths (fst ij) ;;
                              p2 <- getitem paths (snd ij) ;;
                              Ok (sid, p1, p2)) rows
  = Ok (map (fun ij : nat * nat => (sid, nth (fst ij) paths EmptyString,
                                         nth (snd ij) paths EmptyString)) rows).
Proof.
  intros H. apply mapM_ok. intros [i j] Hin. cbn [fst snd].
  assert (Hi : In i (flat_rows rows) /\ In j (flat_rows rows)).
  { unfold flat_rows. split; apply in_flat_map; exists (i, j); simpl; auto. }
  rewrite (getitem_ok paths i EmptyString) by (apply H; tauto).
  rewrite (getitem_ok paths j EmptyString) by (apply H; tauto).
  reflexivity.
Qed.

Lemma records_of_rows (sid : Z) (f : nat -> string) rows :
  records (map (fun ij : nat * nat => (sid, f (fst ij), f (snd ij))) rows)
  = map f (flat_rows rows).
Proof.
  induction rows as [|[i j] rows IH]; simpl; [reflexivity|].
  f_equal. f_equal. exact IH.
Qed.

Lemma map_nth_all {A : Type} (l : list A) d :
  map (fun i => nth i l d) (seq 0 (length l)) = l.
Proof.
  apply nth_ext with (d := d) (d' := d).
  - rewrite length_map, length_seq. reflexivity.
  - intros n Hn. rewrite length_map, length_seq in Hn.
    rewrite (nth_indep _ d (nth 0 l d)) by (rewrite length_map, length_seq; lia).
    rewrite map_nth with (d := 0). rewrite seq_nth by lia. reflexivity.
Qed.

(** With a lawful generator the body of the loop returns, and what it
    returns covers the records of the speaker. *)
Lemma pair_group_ok G g sid paths :
  lawful G ->
  exists chunk,
    pair_group G g sid paths
    = Ok (chunk, snd (permutation G g (length paths))) /\
    chunk_ok sid paths chunk.
Proof.
  intros HG. unfold pair_group.
  pose proof (HG g (length paths)) as HP.
  destruct (permutation G g (length paths)) as [indices g']. cbn [fst snd] in *.
  set (n := length paths) in *.
  set (f := fun i => nth i paths EmptyString).
  assert (Ln : length indices = n).
  { rewrite (Permutation_length HP), length_seq. reflexivity. }
  assert (Hin : forall i, In i indices -> i < n).
  { intros i Hi. apply (Permutation_in _ HP) in Hi. apply in_seq in Hi. lia. }
  assert (Pf : Permutation (map f indices) paths).
  { apply Permutation_trans with (map f (seq 0 n)).
    - apply Permutation_map. exact HP.
    - unfold f, n. rewrite map_nth_all. apply Permutation_refl. }
  destruct (Nat.eqb_spec (n mod 2) 1) as [Odd|Even].
  - (* an odd number of records: the first index drawn is appended *)
    destruct indices as [|i0 rest] eqn:Ei;
      [rewrite <- Ln in Odd; discriminate Odd|].
    rewrite <- Ei in *. assert (Hhd : getitem indices 0 = Ok i0)
      by (rewrite Ei; reflexivity).
    rewrite Hhd. cbn [bind].
    destruct (reshape2_ok ((n + 1) / 2) (indices ++ [i0])) as [rows [Hr [Hf Hl]]].
    { rewrite length_app, Ln. cbn [length].
      pose proof (Nat.div_mod_eq (n + 1) 2) as D.
      assert (M : (n + 1) mod 2 = 0).
      { rewrite <- Nat.Div0.add_mod_idemp_l, Odd. reflexivity. }
      rewrite M in D. lia. }
    rewrite Hr. cbn [bind].
    rewrite lookups_ok.
    2:{ intros i Hi. rewrite Hf in Hi. apply in_app_or in Hi.
        destruct Hi as [Hi|[<-|[]]]; apply Hin; [exact Hi|].
        rewrite Ei. left; reflexivity. }
    cbn [bind]. eexists; split; [reflexivity|].
    split; [|split].
    + apply Forall_forall. intros p Hp. apply in_map_iff in Hp.
      destruct Hp as [ij [<- _]]. reflexivity.
    + intros E. fold n in E. lia.
    + intros _. rewrite length_map, Hl. split; [reflexivity|].
      exists (f i0). rewrite (records_of_rows sid f), Hf, map_app.
      cbn [map]. split; [|split].
      * rewrite Ei. reflexivity.
      * rewrite nth_error_app2 by (rewrite length_map; lia).
        rewrite length_map, Ln. fold n. rewrite Nat.sub_diag. reflexivity.
      * apply Permutation_trans with (f i0 :: map f indices).
        -- apply Permutation_sym, Permutation_cons_append.
        -- apply perm_skip. exact Pf.
  - (* an even number of records *)
    cbn [bind].
    assert (E0 : n mod 2 = 0).
    { pose proof (Nat.mod_upper_bound n 2). lia. }
    destruct (reshape2_ok (n / 2) indices) as [rows [Hr [Hf Hl]]].
    { rewrite Ln. pose proof (Nat.div_mod_eq n 2) as D. rewrite E0 in D. lia. }
    rewrite Hr. cbn [bind].
    rewrite lookups_ok by (intros i Hi; rewrite Hf in Hi; auto).
    cbn [bind]. eexists; split; [reflexivity|].
    split; [|split].
    + apply Forall_forall. intros p Hp. apply in_map_iff in Hp.
      destruct Hp as [ij [<- _]]. reflexivity.
    + intros _. rewrite length_map, Hl. split; [reflexivity|].
      rewrite (records_of_rows sid f), Hf. exact Pf.
    + intros E. fold n in E. lia.
Qed.

(** Whatever the generator, the pairs the body of the loop returns are pairs
    of records of that speaker. *)
Lemma pair_group_sound G g sid paths chunk g' :
  pair_group G g sid paths = Ok (chunk, g') ->
  Forall (fun p => fst (fst p) = sid /\ In (snd (fst p)) paths /\ In (snd p) paths)
         chunk.
Proof.
  unfold pair_group. destruct (permutation G g (length paths)) as [indices g1].
  destruct (if Nat.eqb (length paths mod 2) 1
            then i0 <- getitem indices 0 ;; Ok (indices ++ [i0])
            else Ok indices) as [ind|]; cbn [bind]; [|discriminate].
  destruct (reshape2 ind) as [rows|]; cbn [bind]; [|discriminate].
  destruct (mapM _ rows) as [ps|] eqn:E; cbn [bind]; [|discriminate].
  intros H. injection H as <- _.
  eapply mapM_forall; [exact E|]. intros [i j] p _ Hp. cbn [fst snd] in Hp.
  destruct (getitem paths i) as [p1|] eqn:E1; cbn [bind] in Hp; [|discriminate].
  destruct (getitem paths j) as [p2|] eqn:E2; cbn [bind] in Hp; [|discriminate].
  injection Hp as <-. cbn [fst snd].
  split; [reflexivity|]. split; eapply getitem_in; eassumption.
Qed.

(** *** The loop over the speakers *)

Lemma pair_groups_ok G :
  lawful G ->
  forall items g,
  exists chunks,
    pair_groups G g items = Ok (concat chunks) /\
    Forall2 (fun it chunk => chunk_ok (fst it) (snd it) chunk) items chunks.
Proof.
  intros HG. induction items as [|[sid paths] items IH]; intros g.
  - exists []. split; [reflexivity|constructor].
  - cbn [pair_groups].
    destruct (pair_group_ok G g sid paths HG) as [chunk [Hc Hok]].
    rewrite Hc. cbn [bind fst snd].
    destruct (IH (snd (permutation G g (length paths)))) as [chunks [Hr Hf]].
    rewrite Hr. cbn [bind].
    exists (chunk :: chunks). split; [reflexivity|].
    constructor; assumption.
Qed.

Lemma pair_groups_sound G : forall items g ps,
  pair_groups G g items = Ok ps ->
  Forall (fun p => exists paths, In (fst (fst p), paths) items /\
                                 In (snd (fst p)) paths /\ In (snd p) paths) ps.
Proof.
  induction items as [|[sid paths] items IH]; intros g ps H.
  - injection H as <-. constructor.
  - cbn [pair_groups] in H.
    destruct (pair_group G g sid paths) as [[chunk g']|] eqn:E;
      cbn [bind fst snd] in H; [|discriminate].
    destruct (pair_groups G g' items) as [rest|] eqn:Er;
      cbn [bind] in H; [|discriminate].
    injection H as <-. apply Forall_app. split.
    + eapply Forall_impl; [|exact (pair_group_sound G g sid paths chunk g' E)].
      intros p [Hs [H1 H2]]. exists paths. rewrite Hs. simpl. auto.
    + eapply Forall_impl; [|exact (IH g' rest Er)].
      intros p [ps' [Hi H12]]. exists ps'. simpl. auto.
Qed.

Lemma pairs_of_all sid chunk :
  Forall (fun p : pair => fst (fst p) = sid) chunk -> pairs_of sid chunk = chunk.
Proof.
  unfold pairs_of. induction 1 as [|p chunk Hp _ IH]; simpl; [reflexivity|].
  rewrite Hp, Z.eqb_refl, IH. reflexivity.
Qed.

Lemma pairs_of_none sid ps :
  Forall (fun p : pair => fst (fst p) <> sid) ps -> pairs_of sid ps = [].
Proof.
  unfold pairs_of. induction 1 as [|p ps Hp _ IH]; simpl; [reflexivity|].
  destruct (Z.eqb_spec (fst (fst p)) sid); [contradiction|exact IH].
Qed.

Lemma pairs_of_app sid a b :
  pairs_of sid (a ++ b) = pairs_of sid a ++ pairs_of sid b.
Proof. unfold pairs_of. apply filter_app. Qed.

Lemma chunks_keys items chunks :
  Forall2 (fun (it : Z * list string) chunk =>
             chunk_ok (fst it) (snd it) chunk) items chunks ->
  Forall (fun p : pair => In (fst (fst p)) (map fst items)) (concat chunks).
Proof.
  induction 1 as [|it chunk items chunks [Hs _] _ IH]; simpl; [constructor|].
  apply Forall_app. split.
  - eapply Forall_impl; [|exact Hs]. intros p Hp. left. symmetry. exact Hp.
  - eapply Forall_impl; [|exact IH]. intros p Hp. right. exact Hp.
Qed.

(** With one entry per speaker, the pairs of a speaker in the whole list
    are the ones its iteration appended. *)
Lemma pairs_of_chunks items chunks :
  NoDup (map fst items) ->
  Forall2 (fun (it : Z * list string) chunk =>
             chunk_ok (fst it) (snd it) chunk) items chunks ->
  forall sid paths, In (sid, paths) items ->
    chunk_ok sid paths (pairs_of sid (concat chunks)).
Proof.
  intros N F. induction F as [|[s0 p0] chunk items chunks Hc F IH];
    intros sid paths Hin; [contradiction|].
  simpl in N. inversion N as [|? ? N0 N']; subst.
  cbn [concat]. rewrite pairs_of_app.
  destruct Hin as [E|Hin].
  - injection E as -> ->. cbn [fst snd] in Hc.
    rewrite (pairs_of_all sid chunk (proj1 Hc)).
    rewrite pairs_of_none, app_nil_r; [exact Hc|].
    eapply Forall_impl; [|exact (chunks_keys items chunks F)].
    intros p Hp E. apply N0. rewrite <- E. exact Hp.
  - assert (Hne : s0 <> sid).
    { intros ->. apply N0. apply (in_map fst) in Hin. exact Hin. }
    rewrite pairs_of_none.
    + apply IH; assumption.
    + eapply Forall_impl; [|exact (proj1 Hc)].
      intros p Hp. cbn [fst] in Hp. congruence.
Qed.

Lemma default_rng_ok G seed e :
  seed_ok seed -> exists g, default_rng G seed e = Ok g.
Proof.
  destruct seed as [s|]; simpl; intros H.
  - destruct (Z.ltb_spec s 0); [lia|]. eexists; reflexivity.
  - eexists; reflexivity.
Qed.

(** C8.  With a lawful generator and an accepted seed, [random_pairing]
    returns; it leaves the grouping as it is, and for every speaker of [n]
    records its pairs are [n / 2] pairs using each record once when [n] is
    even, and [(n + 1) / 2] pairs using each record once and the first
    record drawn once more, as the second of the last pair, when [n] is
    odd. *)
Theorem random_pairing_covers G seed os_entropy self :
  lawful G -> seed_ok seed -> NoDup (map fst (groups self)) ->
  exists self',
    random_pairing G seed os_entropy self = Ok self' /\
    groups self' = groups self /\
    forall sid paths, In (sid, paths) (groups self) ->
      let ps := pairs_of sid (pairs self') in
      let n := length paths in
      Forall (fun p => fst (fst p) = sid) ps /\
      (n mod 2 = 0 -> length ps = n / 2 /\ Permutation (records ps) paths) /\
      (n mod 2 = 1 ->
       length ps = (n + 1) / 2 /\
       exists first,
         hd_error (records ps) = Some first /\
         nth_error (records ps) n = Some first /\
         Permutation (records ps) (first :: paths)).
Proof.
  intros HG Hs N. unfold random_pairing.
  destruct (default_rng_ok G seed os_entropy Hs) as [g ->]. cbn [bind].
  destruct (pair_groups_ok G HG (groups self) g) as [chunks [-> F]].
  cbn [bind]. eexists; split; [reflexivity|]. split; [reflexivity|].
  intros sid paths Hin. cbn [pairs set_pairs].
  exact (pairs_of_chunks (groups self) chunks N F sid paths Hin).
Qed.

Lemma lawful_rev : lawful G_rev.
Proof. intros g n. simpl. apply Permutation_sym, Permutation_rev. Qed.

Lemma random_pairing_covers_witness :
  exists self',
    random_pairing G_rev (Some 3%Z) 0 ds_example = Ok self' /\
    groups self' = groups_example /\
    forall sid paths, In (sid, paths) groups_example ->
      let ps := pairs_of sid (pairs self') in
      let n := length paths in
      Forall (fun p => fst (fst p) = sid) ps /\
      (n mod 2 = 0 -> length ps = n / 2 /\ Permutation (records ps) paths) /\
      (n mod 2 = 1 ->
       length ps = (n + 1) / 2 /\
       exists first,
         hd_error (records ps) = Some first /\
         nth_error (records ps) n = Some first /\
         Permutation (records ps) (first :: paths)).
Proof.
  apply (random_pairing_covers G_rev (Some 3%Z) 0%Z ds_example).
  - exact lawful_rev.
  - simpl. lia.
  - simpl. repeat constructor; simpl; intuition discriminate.
Defined.

(** *** Determinism *)

(** C9.  With an integer seed, the outcome of [random_pairing] (the list of
    pairs, or the exception) is a function of the grouping and the seed: it
    depends neither on the entropy of the operating system nor on the rest
    of the dataset object, such as the pairs of an earlier call.  With a
    lawful generator and a non-negative seed the outcome is a list of
    pairs. *)
Theorem random_pairing_deterministic G s e1 e2 d1 d2 :
  groups d1 = groups d2 ->
  rmap pairs (random_pairing G (Some s) e1 d1)
  = rmap pairs (random_pairing G (Some s) e2 d2) /\
  (lawful G -> (0 <= s)%Z ->
   exists ps, rmap pairs (random_pairing G (Some s) e1 d1) = Ok ps).
Proof.
  intros Hg. split.
  - unfold random_pairing, default_rng. rewrite Hg.
    destruct (s <? 0)%Z; cbn [bind]; [reflexivity|].
    destruct (pair_groups G (seeded G s) (groups d2)); reflexivity.
  - intros HG Hs. unfold random_pairing.
    destruct (default_rng_ok G (Some s) e1 Hs) as [g ->]. cbn [bind].
    destruct (pair_groups_ok G HG (groups d1) g) as [chunks [-> _]].
    cbn [bind rmap]. eexists; reflexivity.
Qed.

Lemma random_pairing_deterministic_witness :
  rmap pairs (random_pairing G_rev (Some 3%Z) 0 ds_example)
  = rmap pairs (random_pairing G_rev (Some 3%Z) 1
                  (set_pairs ds_example [(7%Z, "x"%string, "y"%string)])) /\
  exists ps, rmap pairs (random_pairing G_rev (Some 3%Z) 0 ds_example) = Ok ps.
Proof.
  destruct (random_pairing_deterministic G_rev 3 0 1 ds_example
              (set_pairs ds_example [(7%Z, "x"%string, "y"%string)]) eq_refl)
    as [E T].
  split; [exact E|]. apply T; [exact lawful_rev|lia].
Defined.

(** Pairing again with the same seed gives the same pairs. *)
Lemma random_pairing_again G s e1 e2 d d' :
  random_pairing G (Some s) e1 d = Ok d' ->
  random_pairing G (Some s) e2 d' = Ok d'.
Proof.
  unfold random_pairing.
  destruct (default_rng G (Some s) e1) as [g|] eqn:E1; cbn [bind]; [|discriminate].
  destruct (pair_groups G g (groups d)) as [ps|] eqn:Ep; cbn [bind]; [|discriminate].
  intros H. injection H as <-.
  assert (E2 : default_rng G (Some s) e2 = Ok g) by exact E1.
  rewrite E2. cbn [bind groups set_pairs]. rewrite Ep. reflexivity.
Qed.

(** *** The invariant *)

Lemma pair_ok_of_in groups p :
  NoDup (map fst groups) ->
  (exists paths, In (fst (fst p), paths) groups /\
                 In (snd (fst p)) paths /\ In (snd p) paths) ->
  pair_ok groups p.
Proof.
  intros N [paths [Hi H12]]. exists paths. split; [|exact H12].
  apply dict_get_in; assumption.
Qed.

Lemma random_pairing_wf G seed e d d' :
  NoDup (map fst (groups d)) -> random_pairing G seed e d = Ok d' -> wf d'.
Proof.
  intros N. unfold random_pairing.
  destruct (default_rng G seed e) as [g|]; cbn [bind]; [|discriminate].
  destruct (pair_groups G g (groups d)) as [ps|] eqn:Ep; cbn [bind]; [|discriminate].
  intros H. injection H as <-. split; cbn [groups pairs set_pairs]; [exact N|].
  eapply Forall_impl; [|exact (pair_groups_sound G (groups d) g ps Ep)].
  intros p. apply pair_ok_of_in. exact N.
Qed.

Lemma random_pairing_total G seed e d :
  lawful G -> seed_ok seed -> exists d', random_pairing G seed e d = Ok d'.
Proof.
  intros HG Hs. unfold random_pairing.
  destruct (default_rng_ok G seed e Hs) as [g ->]. cbn [bind].
  destruct (pair_groups_ok G HG (groups d) g) as [chunks [-> _]].
  cbn [bind]. eexists; reflexivity.
Qed.

Lemma group_paths_nodup rd : forall iters acc g,
  NoDup (map fst acc) -> group_paths rd iters acc = Ok g -> NoDup (map fst g).
Proof.
  induction iters as [|path iters IH]; intros acc g N H; cbn [group_paths] in H.
  - injection H as <-. exact N.
  - destruct (transcript rd (remove_wav (basename path))) as [[sid text]|];
      [|discriminate].
    destruct (dict_get sid acc) as [l|] eqn:E.
    + rewrite E in H. eapply IH; [|exact H]. apply dict_set_nodup. exact N.
    + rewrite dict_get_set_same in H. eapply IH; [|exact H].
      do 2 apply dict_set_nodup. exact N.
Qed.

Lemma group_paths_total rd : forall iters acc,
  (forall p, In p iters -> transcript rd (remove_wav (basename p)) <> None) ->
  exists g, group_paths rd iters acc = Ok g.
Proof.
  induction iters as [|path iters IH]; intros acc H; cbn [group_paths].
  - eexists; reflexivity.
  - destruct (transcript rd (remove_wav (basename path))) as [[sid text]|] eqn:E.
    + destruct (dict_get sid acc) as [l|] eqn:Eg.
      * rewrite Eg. apply IH. intros p Hp. apply H. right. exact Hp.
      * rewrite dict_get_set_same. apply IH.
        intros p Hp. apply H. right. exact Hp.
    + exfalso. apply (H path); [left; reflexivity|exact E].
Qed.

(** C10.  With a lawful generator: a dataset [__init__] returns satisfies
    the invariant, and [__init__] returns when every file has an entry in
    the transcript table; on a dataset satisfying the invariant,
    [random_pairing] with an accepted seed and [split] return, and the
    datasets they produce (for [split], the retained and the residual one)
    satisfy it. *)
Theorem pairs_within_groups G :
  lawful G ->
  (forall e rd verbose d, __init__ G e rd verbose = Ok d -> wf d) /\
  (forall e rd,
     (forall p, In p (reader_dataset rd) ->
                transcript rd (remove_wav (basename p)) <> None) ->
     exists d, __init__ G e rd None = Ok d) /\
  (forall seed e d, wf d -> seed_ok seed ->
     exists d', random_pairing G seed e d = Ok d' /\ wf d') /\
  (forall size e1 e2 d, wf d ->
     exists d' r, split G size e1 e2 d = Ok (d', r) /\ wf d' /\ wf r).
Proof.
  intros HG. split; [|split; [|split]].
  - intros e rd verbose d. unfold __init__.
    destruct (group_paths rd _ []) as [g|] eqn:Eg; cbn [bind]; [|discriminate].
    apply random_pairing_wf. cbn [groups].
    eapply group_paths_nodup; [|exact Eg]. constructor.
  - intros e rd H. unfold __init__.
    destruct (group_paths_total rd (reader_dataset rd) [] H) as [g ->].
    cbn [bind]. apply random_pairing_total; [exact HG|exact I].
  - intros seed e d [N _] Hs.
    destruct (random_pairing_total G seed e d HG Hs) as [d' Hd].
    exists d'. split; [exact Hd|]. eapply random_pairing_wf; eassumption.
  - intros size e1 e2 d [N _]. unfold split.
    set (r0 := set_groups d (dict_of_items (slice_from (groups d) size))).
    set (d0 := set_groups d (dict_of_items (slice_to (groups d) size))).
    assert (Nr : NoDup (map fst (groups r0))).
    { unfold r0. cbn [groups set_groups]. unfold slice_from.
      rewrite dict_of_items_id; apply nodup_keys_slice; exact N. }
    assert (Nd : NoDup (map fst (groups d0))).
    { unfold d0. cbn [groups set_groups]. unfold slice_to.
      rewrite dict_of_items_id; apply nodup_keys_slice; exact N. }
    destruct (random_pairing_total G None e1 r0 HG I) as [r Hr].
    destruct (random_pairing_total G None e2 d0 HG I) as [d' Hd].
    rewrite Hr. cbn [bind]. rewrite Hd. cbn [bind].
    exists d', r. split; [reflexivity|]. split.
    + exact (random_pairing_wf G None e2 d0 d' Nd Hd).
    + exact (random_pairing_wf G None e1 r0 r Nr Hr).
Qed.

Lemma pairs_within_groups_witness :
  (exists d, __init__ G_rev 5 rd_example None = Ok d /\ wf d) /\
  (exists d' r, split G_rev 1 0 0 ds_example = Ok (d', r) /\ wf d' /\ wf r).
Proof.
  destruct (pairs_within_groups G_rev lawful_rev) as [Hi [Ht [_ Hs]]].
  split.
  - destruct (Ht 5%Z rd_example) as [d Hd].
    + intros p Hp. simpl in Hp.
      repeat (destruct Hp as [<-|Hp]; [vm_compute; discriminate|]).
      contradiction.
    + exists d. split; [exact Hd|]. exact (Hi _ _ _ _ Hd).
  - apply Hs. split.
    + simpl. repeat constructor; simpl; intuition discriminate.
    + constructor.
Defined.

End DatasetFacts.

(** * Further properties of the Yingram extractor *)

Module YingramExtra.
Import Yingram ListFacts YingramFacts.
Open Scope R_scope.

(** *** The conversions between lags and MIDI indices *)

Lemma m2l_is_real cfg m : m2l cfg m = m2l_real cfg (IZR m).
Proof. reflexivity. Qed.

Lemma l2m_is_real cfg l :
  (0 < sr cfg)%Z -> (0 < l)%Z -> l2m cfg l = Ok (Finite (l2m_real cfg (IZR l))).
Proof.
  intros Hs Hl. rewrite l2m_finite by assumption. unfold l2m_real.
  rewrite mult_IZR. reflexivity.
Qed.

Lemma Rpower2_log2 q : 0 < q -> Rpower 2 (log2 q) = q.
Proof.
  intros Hq. unfold Rpower, log2. pose proof ln2_pos.
  replace (ln q / ln 2 * ln 2) with (ln q) by (field; lra).
  apply exp_ln. exact Hq.
Qed.

Lemma log2_Rpower2 x : log2 (Rpower 2 x) = x.
Proof.
  unfold log2. rewrite ln_Rpower. pose proof ln2_pos. field. lra.
Qed.

Lemma m2l_real_pos cfg m : (0 < sr cfg)%Z -> 0 < m2l_real cfg m.
Proof.
  intros Hs. unfold m2l_real. apply Rdiv_lt_0_compat; [apply IZR_lt; lia|].
  pose proof (Rpower2_pos ((m - 69) / 12)). lra.
Qed.

Lemma m2l_l2m cfg l :
  (0 < sr cfg)%Z -> 0 < l -> m2l_real cfg (l2m_real cfg l) = l.
Proof.
  intros Hs Hl. apply IZR_lt in Hs. unfold m2l_real, l2m_real.
  replace ((12 * log2 (IZR (sr cfg) / (440 * l)) + 69 - 69) / 12)
    with (log2 (IZR (sr cfg) / (440 * l))) by field.
  rewrite Rpower2_log2 by (apply Rdiv_lt_0_compat; lra).
  field. lra.
Qed.

Lemma l2m_m2l cfg m :
  (0 < sr cfg)%Z -> l2m_real cfg (m2l_real cfg m) = m.
Proof.
  intros Hs. apply IZR_lt in Hs. unfold m2l_real, l2m_real.
  pose proof (Rpower2_pos ((m - 69) / 12)) as P.
  replace (IZR (sr cfg) / (440 * (IZR (sr cfg) / (440 * Rpower 2 ((m - 69) / 12)))))
    with (Rpower 2 ((m - 69) / 12)) by (field; lra).
  rewrite log2_Rpower2. field.
Qed.

(** X1.  With a positive sample rate the two conversions are inverse to each
    other: [m2l (l2m l) = l] for every positive lag and [l2m (m2l m) = m]
    for every MIDI value; on the integers [forward] applies them to, they
    are the conversions of the source. *)
Theorem conversions_inverse cfg :
  (0 < sr cfg)%Z ->
  (forall l, 0 < l -> m2l_real cfg (l2m_real cfg l) = l) /\
  (forall m, l2m_real cfg (m2l_real cfg m) = m) /\
  (forall m : Z, m2l cfg m = m2l_real cfg (IZR m)) /\
  (forall l : Z, (0 < l)%Z -> l2m cfg l = Ok (Finite (l2m_real cfg (IZR l)))).
Proof.
  intros Hs. split; [|split; [|split]].
  - intros l Hl. apply m2l_l2m; assumption.
  - intros m. apply l2m_m2l; assumption.
  - intros m. reflexivity.
  - intros l Hl. apply l2m_is_real; assumption.
Qed.

Lemma conversions_inverse_witness :
  m2l_real cfg_a4 (l2m_real cfg_a4 20) = 20 /\
  l2m_real cfg_a4 (m2l_real cfg_a4 69) = 69.
Proof.
  destruct (conversions_inverse cfg_a4 ltac:(simpl; lia)) as [H1 [H2 _]].
  split; [apply H1; lra|apply H2].
Defined.

(** *** The lags of the grid *)

Lemma mmin_real cfg : mmin cfg = Rceil (l2m_real cfg (IZR (lmax cfg))).
Proof. unfold mmin, l2m_real. rewrite mult_IZR. reflexivity. Qed.

Lemma mmax_real cfg : mmax cfg = Rtrunc (l2m_real cfg (IZR (lmin cfg))).
Proof. unfold mmax, l2m_real. rewrite mult_IZR. reflexivity. Qed.

Lemma m2l_real_decreasing cfg a b :
  (0 < sr cfg)%Z -> a <= b -> m2l_real cfg b <= m2l_real cfg a.
Proof.
  intros Hs Hab. unfold m2l_real, Rdiv.
  apply Rmult_le_compat_l; [apply IZR_le; lia|].
  pose proof (Rpower2_pos ((a - 69) / 12)).
  apply Rinv_le_contravar; [lra|].
  apply Rmult_le_compat_l; [lra|].
  apply Rpower2_mono. lra.
Qed.

Lemma m2l_strictly_decreasing cfg m m' :
  (0 < sr cfg)%Z -> (m < m')%Z -> m2l cfg m' < m2l cfg m.
Proof.
  intros Hs Hm. unfold m2l, Rdiv. apply IZR_lt in Hs, Hm.
  apply Rmult_lt_compat_l; [exact Hs|].
  pose proof (Rpower2_pos ((IZR m - 69) / 12)).
  apply Rinv_lt_contravar.
  - apply Rmult_lt_0_compat; apply Rmult_lt_0_compat; try lra;
      apply Rpower2_pos.
  - apply Rmult_lt_compat_l; [lra|]. apply Rpower_lt; lra.
Qed.

(** X2.  With a positive sample rate and positive lag bounds, the lags of
    the grid are positive, strictly decreasing along the grid, and at most
    [lmax]; they are at least [lmin] when [l2m lmin] is not negative (where
    [int] rounds it down). *)
Theorem grid_lags_bounded cfg :
  (0 < sr cfg)%Z -> (0 < lmin cfg)%Z -> (0 < lmax cfg)%Z ->
  (forall m, In m (grid cfg) -> 0 < m2l cfg m <= IZR (lmax cfg)) /\
  (forall m m', (m < m')%Z -> m2l cfg m' < m2l cfg m) /\
  (0 <= l2m_real cfg (IZR (lmin cfg)) ->
   forall m, In m (grid cfg) -> IZR (lmin cfg) <= m2l cfg m).
Proof.
  intros Hs Hl1 Hl2. split; [|split].
  - intros m Hm. apply grid_in in Hm. split; [apply m2l_pos; exact Hs|].
    rewrite m2l_is_real.
    assert (E : m2l_real cfg (l2m_real cfg (IZR (lmax cfg))) = IZR (lmax cfg))
      by (apply m2l_l2m; [exact Hs | apply IZR_lt; lia]).
    rewrite <- E.
    apply m2l_real_decreasing; [exact Hs|].
    destruct (Rceil_bounds (l2m_real cfg (IZR (lmax cfg)))) as [_ U].
    rewrite <- mmin_real in U. destruct Hm as [Hm _]. apply IZR_le in Hm. lra.
  - intros m m'. apply m2l_strictly_decreasing. exact Hs.
  - intros H0 m Hm. apply grid_in in Hm. rewrite m2l_is_real.
    assert (E0 : m2l_real cfg (l2m_real cfg (IZR (lmin cfg))) = IZR (lmin cfg))
      by (apply m2l_l2m; [exact Hs | apply IZR_lt; lia]).
    rewrite <- E0.
    apply m2l_real_decreasing; [exact Hs|].
    destruct (Rfloor_bounds (l2m_real cfg (IZR (lmin cfg)))) as [L _].
    assert (E : mmax cfg = Rfloor (l2m_real cfg (IZR (lmin cfg)))).
    { rewrite mmax_real. unfold Rtrunc.
      destruct (Rle_dec 0 (l2m_real cfg (IZR (lmin cfg)))); [reflexivity|lra]. }
    rewrite <- E in L. destruct Hm as [_ Hm]. apply IZR_le in Hm. lra.
Qed.

Lemma grid_lags_bounded_witness :
  (forall m, In m (grid cfg_a4) -> 0 < m2l cfg_a4 m <= 21) /\
  (forall m, In m (grid cfg_a4) -> 19 <= m2l cfg_a4 m).
Proof.
  destruct (grid_lags_bounded cfg_a4) as [U [_ L]]; try (simpl; lia).
  split; [exact U|]. apply L.
  unfold l2m_real. cbn [sr lmin cfg_a4]. rewrite <- mult_IZR.
  pose proof (log2_lower_le 8800 (440 * 19) 0 69
                ltac:(lia) ltac:(lia) ltac:(vm_compute; discriminate)) as B.
  simpl INR in B. lra.
Defined.

(** *** When forward returns *)

Lemma forward1_empty_grid cfg audio :
  lags_fit cfg -> (0 < strides cfg)%Z -> (0 < sr cfg)%Z ->
  (0 < lmin cfg < lmax cfg)%Z -> (mmax cfg < mmin cfg)%Z ->
  exists out, forward1 cfg audio = Ok out.
Proof.
  intros Hfit Hs Hsr Hl He.
  destruct (forward1_stages cfg audio Hfit Hs Hsr Hl)
    as [frames [cs [_ [_ [_ [_ ->]]]]]].
  unfold grid. replace (Z.to_nat (mmax cfg + 1 - mmin cfg)) with 0%nat by lia.
  cbn [seq map]. exists (map (fun _ => []) cs).
  apply mapM_ok. reflexivity.
Qed.

(** X3.  On a valid configuration whose lags fit the autocorrelation, with
    a positive sample rate, [forward] on one waveform returns exactly when
    the grid is empty or the lag of its lowest MIDI index has its ceiling
    below [lmax]; otherwise, and only then, it raises IndexError. *)
Theorem forward1_outcome cfg audio :
  valid cfg -> lags_fit cfg -> (0 < sr cfg)%Z ->
  ((exists out, forward1 cfg audio = Ok out) <->
   (mmax cfg < mmin cfg \/ Rceil (m2l cfg (mmin cfg)) < lmax cfg)%Z) /\
  (forward1 cfg audio = Err IndexError <->
   (mmin cfg <= mmax cfg /\ lmax cfg <= Rceil (m2l cfg (mmin cfg)))%Z).
Proof.
  intros [Hl [Hw [Hs _]]] Hfit Hsr.
  assert (A : (mmax cfg < mmin cfg \/ Rceil (m2l cfg (mmin cfg)) < lmax cfg)%Z ->
              exists out, forward1 cfg audio = Ok out).
  { intros [He|Hb].
    - apply forward1_empty_grid; assumption.
    - apply forward1_ok; assumption. }
  assert (B : (mmin cfg <= mmax cfg /\ lmax cfg <= Rceil (m2l cfg (mmin cfg)))%Z ->
              forward1 cfg audio = Err IndexError).
  { intros [Hg Hb]. apply forward1_index_error; assumption. }
  split; split.
  - intros [out Ho].
    destruct (Z_lt_le_dec (mmax cfg) (mmin cfg)) as [?|Hg]; [left; assumption|].
    destruct (Z_lt_le_dec (Rceil (m2l cfg (mmin cfg))) (lmax cfg)) as [?|Hb];
      [right; assumption|].
    rewrite (B (conj Hg Hb)) in Ho. discriminate.
  - exact A.
  - intros He.
    destruct (Z_lt_le_dec (mmax cfg) (mmin cfg)) as [Hg|Hg].
    + destruct (A (or_introl Hg)) as [out Ho]. congruence.
    + destruct (Z_lt_le_dec (Rceil (m2l cfg (mmin cfg))) (lmax cfg)) as [Hb|Hb].
      * destruct (A (or_intror Hb)) as [out Ho]. congruence.
      * auto.
  - exact B.
Qed.

Lemma forward1_outcome_witness :
  (exists out, forward1 cfg_a4 silence22 = Ok out) /\
  forward1 cfg_edge silence22 = Err IndexError.
Proof.
  split.
  - apply (forward1_outcome cfg_a4 silence22 valid_a4 lags_fit_a4);
      [simpl; lia|].
    right. rewrite mmin_a4, m2l_a4. change 20 with (IZR 20).
    rewrite Rceil_IZR. simpl. lia.
  - apply (forward1_outcome cfg_edge silence22);
      [unfold valid; simpl; lia | exact lags_fit_edge | simpl; lia |].
    rewrite mmin_edge, mmax_edge, m2l_edge. change 8 with (IZR 8).
    rewrite Rceil_IZR. simpl. lia.
Defined.

(** *** Lags beyond the autocorrelation *)

Lemma broadcast_mismatch {A B C : Type} (f : A -> B -> C) a b :
  length a <> length b -> length a <> 1%nat -> length b <> 1%nat ->
  broadcast f a b = Err RuntimeError.
Proof.
  intros H H1 H2. unfold broadcast.
  destruct (Nat.eqb_spec (length a) (length b)); [contradiction|].
  destruct a as [|x [|x' a]]; destruct b as [|y [|y' b]];
    simpl in *; try reflexivity; lia.
Qed.

Lemma difference_odd_window cfg frame :
  (3 <= windows cfg)%Z -> (windows cfg mod 2 = 1)%Z ->
  lmax cfg = windows cfg -> length frame = Z.to_nat (windows cfg) ->
  difference cfg frame = Err RuntimeError.
Proof.
  intros Hw Hodd Hl Hlen. unfold difference.
  destruct (corr_ok frame ltac:(lia)) as [corr [Hc Lc]].
  destruct (rfft frame) as [fft|]; cbn [bind] in Hc |- *; [|discriminate].
  rewrite Hc. cbn [bind].
  assert (Lc' : length corr = (Z.to_nat (windows cfg) - 1)%nat).
  { rewrite Lc, Hlen.
    apply Nat2Z.inj. rewrite Nat2Z.inj_mul, Nat2Z.inj_div, Nat2Z.inj_sub by lia.
    rewrite Z2Nat.id by lia. change (Z.of_nat 2) with 2%Z.
    change (Z.of_nat 1) with 1%Z.
    pose proof (Z.div_mod (windows cfg) 2 ltac:(lia)). lia. }
  set (c := 0 :: cumsum (map Rsqr frame)).
  assert (Lcs : length c = S (Z.to_nat (windows cfg))).
  { unfold c. simpl. rewrite cumsum_length, length_map, Hlen. reflexivity. }
  rewrite broadcast_mismatch; [reflexivity| | |].
  - rewrite length_rev, length_map, slice_length, slice_to_all by lia. lia.
  - rewrite length_rev, slice_length by lia. lia.
  - rewrite length_map, slice_to_all by lia. lia.
Qed.

(** X4.  The lags must stay within the autocorrelation, which has
    [2 (windows / 2)] entries: with a positive stride and a window of at
    least two samples, [forward] raises RuntimeError as soon as [lmax] is
    larger.  This includes the configurations with an odd window and
    [lmax = windows], which satisfy the invariant [lmax <= windows]. *)
Theorem forward1_lags_beyond_autocorrelation cfg audio :
  (0 < strides cfg)%Z -> (2 <= windows cfg)%Z ->
  (2 * (windows cfg / 2) < lmax cfg)%Z ->
  forward1 cfg audio = Err RuntimeError.
Proof.
  intros Hs Hw Hl.
  destruct (Z_lt_le_dec (windows cfg) (lmax cfg)) as [Hb|Hb].
  - apply forward1_lags_beyond; [exact Hs|lia].
  - pose proof (Z.div_mod (windows cfg) 2 ltac:(lia)) as D.
    pose proof (Z.mod_pos_bound (windows cfg) 2 ltac:(lia)) as M.
    assert (Hodd : (windows cfg mod 2 = 1)%Z) by lia.
    assert (Heq : lmax cfg = windows cfg) by lia.
    unfold forward1.
    destruct (frames_of_ok cfg audio ltac:(lia) Hs) as [frames [Hf [Lf Ff]]].
    rewrite Hf. cbn [bind].
    destruct frames as [|f frames]; [simpl in Lf; lia|].
    inversion Ff as [|? ? Lf0 _]; subst.
    cbn [mapM]. unfold cmnd_of at 1.
    rewrite difference_odd_window; try assumption; [reflexivity|lia].
Qed.

Lemma forward1_lags_beyond_autocorrelation_witness :
  valid cfg_odd /\ forward1 cfg_odd silence22 = Err RuntimeError.
Proof.
  split; [unfold valid; simpl; lia|].
  apply (forward1_lags_beyond_autocorrelation cfg_odd silence22).
  - simpl; lia.
  - simpl; lia.
  - vm_compute. reflexivity.
Defined.

(** *** The frames *)

Lemma frames_of_nth cfg audio frames :
  (0 <= windows cfg)%Z -> (0 < strides cfg)%Z ->
  frames_of cfg audio = Ok frames ->
  forall i j, (i < length frames)%nat -> (j < Z.to_nat (windows cfg))%nat ->
    nth j (nth i frames []) 0 = nth (i * Z.to_nat (strides cfg) + j) audio 0.
Proof.
  intros Hw Hs. unfold frames_of, pad_right.
  destruct (Z.leb_spec 0 (windows cfg)); [|lia]. cbn [bind].
  unfold unfold.
  destruct (_ || _ || _)%bool; [discriminate|].
  intros E. injection E as <-. intros i j Hi Hj.
  rewrite length_map, length_seq in Hi.
  rewrite (nth_indep _ [] (firstn (Z.to_nat (windows cfg))
             (skipn (0 * Z.to_nat (strides cfg))
                (audio ++ repeat 0 (Z.to_nat (windows cfg))))))
    by (rewrite length_map, length_seq; exact Hi).
  rewrite (map_nth (fun i => firstn (Z.to_nat (windows cfg))
             (skipn (i * Z.to_nat (strides cfg))
                (audio ++ repeat 0 (Z.to_nat (windows cfg)))))).
  rewrite seq_nth by exact Hi. cbn [Nat.add].
  rewrite nth_firstn.
  destruct (Nat.ltb_spec j (Z.to_nat (windows cfg))); [|lia].
  rewrite nth_skipn.
  destruct (Nat.lt_ge_cases (i * Z.to_nat (strides cfg) + j) (length audio))
    as [Hin|Hout].
  - apply app_nth1. exact Hin.
  - rewrite app_nth2 by exact Hout. rewrite nth_repeat.
    symmetry. apply nth_overflow. exact Hout.
Qed.

(** X5.  With a positive stride the framing returns, and frame [i] starts
    at sample [i * strides] of the waveform: its sample [j] is sample
    [i * strides + j] of the waveform, and zero past the end of the
    waveform. *)
Theorem frames_content cfg audio :
  (0 <= windows cfg)%Z -> (0 < strides cfg)%Z ->
  exists frames,
    frames_of cfg audio = Ok frames /\
    forall i j, (i < length frames)%nat -> (j < Z.to_nat (windows cfg))%nat ->
      nth j (nth i frames []) 0 = nth (i * Z.to_nat (strides cfg) + j) audio 0.
Proof.
  intros Hw Hs.
  destruct (frames_of_ok cfg audio Hw Hs) as [frames [Hf _]].
  exists frames. split; [exact Hf|].
  apply frames_of_nth; assumption.
Qed.

Lemma frames_content_witness :
  exists frames,
    frames_of cfg_tail [1; 2; 3] = Ok frames /\
    forall i j, (i < length frames)%nat -> (j < 4)%nat ->
      nth j (nth i frames []) 0 = nth (i * 2 + j) [1; 2; 3] 0.
Proof.
  apply (frames_content cfg_tail [1; 2; 3]); simpl; lia.
Defined.

(** *** The autocorrelation *)

Lemma cos_angle_mirror k t n :
  (0 < n)%nat -> (t <= n)%nat ->
  cos (angle k (n - t) n) = cos (angle k t n).
Proof.
  intros Hn Ht. rewrite !angle_ang.
  rewrite <- (cos_ang_opp n (Z.of_nat k * Z.of_nat t)).
  apply cos_ang_mod; [exact Hn|].
  rewrite Nat2Z.inj_sub by exact Ht.
  replace (Z.of_nat k * (Z.of_nat n - Z.of_nat t))%Z
    with (- (Z.of_nat k * Z.of_nat t) + Z.of_nat k * Z.of_nat n)%Z by ring.
  apply Z.mod_add. lia.
Qed.

Lemma irfft_symmetric y c t :
  irfft y = Ok c -> (1 <= t < length c)%nat ->
  nth t c 0 = nth (length c - t) c 0.
Proof.
  unfold irfft.
  destruct (Nat.eqb_spec (2 * (length y - 1)) 0) as [E|E]; [discriminate|].
  intros H Ht. injection H as <-.
  rewrite length_map, length_seq in Ht |- *.
  set (n := (2 * (length y - 1))%nat) in *.
  rewrite !nth_map_seq by lia.
  rewrite !cos_angle_mirror by lia.
  f_equal. f_equal. f_equal.
  apply Rsum_map_ext. intros k _. rewrite cos_angle_mirror by lia. reflexivity.
Qed.

(** X6.  On a frame of [n >= 2] samples the autocorrelation step returns
    [2 (n / 2)] entries, and they are symmetric: entry [t] equals entry
    [length - t]. *)
Theorem autocorrelation_symmetric frame :
  (2 <= length frame)%nat ->
  exists corr,
    (fft <- rfft frame ;; irfft (map abs_square fft)) = Ok corr /\
    length corr = (2 * (length frame / 2))%nat /\
    forall t, (1 <= t < length corr)%nat ->
      nth t corr 0 = nth (length corr - t) corr 0.
Proof.
  intros Hn.
  destruct (corr_ok frame Hn) as [corr [Hc Lc]].
  exists corr. split; [exact Hc|]. split; [exact Lc|]. intros t Ht.
  destruct (rfft frame) as [fft|]; cbn [bind] in Hc; [|discriminate].
  apply (irfft_symmetric _ _ _ Hc Ht).
Qed.

Lemma autocorrelation_symmetric_witness :
  exists corr,
    (fft <- rfft [1; 2; 3] ;; irfft (map abs_square fft)) = Ok corr /\
    length corr = 2%nat /\
    forall t, (1 <= t < length corr)%nat ->
      nth t corr 0 = nth (length corr - t) corr 0.
Proof.
  apply (autocorrelation_symmetric [1; 2; 3]). simpl. lia.
Defined.

Lemma circular_autocorr_0 x : circular_autocorr x 0 = energy x (length x).
Proof.
  unfold circular_autocorr, energy. apply Rsum_map_ext.
  intros j Hj. apply in_seq in Hj.
  rewrite Nat.add_0_r, Nat.mod_small by lia. reflexivity.
Qed.

(** X7.  On a frame of even length the spectral route (real transform,
    squared magnitude, inverse transform) returns the circular
    autocorrelation of the frame: entry [t] is the sum of the products
    [x[j] * x[(j + t) mod n]].  Entry 0 is the energy of the frame. *)
Theorem autocorrelation_circular frame :
  (2 <= length frame)%nat -> (length frame mod 2 = 0)%nat ->
  exists corr,
    (fft <- rfft frame ;; irfft (map abs_square fft)) = Ok corr /\
    length corr = length frame /\
    (forall t, (t < length frame)%nat ->
       nth t corr 0 = circular_autocorr frame t) /\
    nth 0 corr 0 = energy frame (length frame).
Proof.
  intros Hn Hev.
  destruct (corr_ok frame Hn) as [corr [Hc _]].
  exists corr. split; [exact Hc|].
  rewrite (corr_circular frame corr Hn Hev Hc).
  split; [rewrite length_map, length_seq; reflexivity|]. split.
  - intros t Ht. apply nth_map_seq. exact Ht.
  - rewrite nth_map_seq by lia. apply circular_autocorr_0.
Qed.

Lemma autocorrelation_circular_witness :
  exists corr,
    (fft <- rfft [1; 2; 0; 0] ;; irfft (map abs_square fft)) = Ok corr /\
    nth 1 corr 0 = 2 /\ nth 0 corr 0 = 5.
Proof.
  destruct (autocorrelation_circular [1; 2; 0; 0]) as [corr [Hc [_ [Ht H0]]]];
    [simpl; lia | reflexivity |].
  exists corr. split; [exact Hc|]. split.
  - rewrite Ht by (simpl; lia). unfold circular_autocorr. simpl. lra.
  - rewrite H0. unfold energy, Rsqr. simpl. lra.
Defined.

(** *** The difference function on a frame that ends in silence *)

(** X8.  On a window of even size, [difference] is the sum of squared
    differences between the frame and its shifted copy whenever the last
    [lmax] samples of the frame are zero. *)
Theorem difference_exact_on_silent_tail cfg frame :
  lags_fit cfg -> length frame = Z.to_nat (windows cfg) ->
  (windows cfg mod 2 = 0)%Z ->
  (forall j, (length frame - Z.to_nat (lmax cfg) <= j)%nat -> nth j frame 0 = 0) ->
  difference cfg frame = Ok (direct_difference cfg frame).
Proof.
  intros Hfit Hlen Hev Hz.
  destruct (difference_circular cfg frame Hfit Hlen Hev) as [diff [Hd [Ld _]]].
  destruct (difference_gap cfg frame Hfit Hlen Hev) as [diff' [Hd' Hn]].
  assert (diff' = diff) by congruence. subst diff'.
  rewrite Hd. f_equal.
  apply (nth_ext _ _ 0 0).
  - unfold direct_difference. rewrite length_map, length_seq. exact Ld.
  - intros tau Htau. rewrite Ld in Htau. rewrite (Hn tau Htau).
    rewrite (Hz (length frame - 1 - tau)%nat) by lia.
    assert (W : wrapped frame tau = 0).
    { unfold wrapped.
      rewrite (Rsum_map_ext _ (fun _ => 0)); [apply Rsum_map_zero|].
      intros j Hj. apply in_seq in Hj. rewrite (Hz j) by lia. ring. }
    rewrite W. unfold Rsqr. ring.
Qed.

Lemma difference_exact_on_silent_tail_witness :
  difference cfg_tail [1; 2; 0; 0] = Ok (direct_difference cfg_tail [1; 2; 0; 0]).
Proof.
  apply difference_exact_on_silent_tail.
  - unfold lags_fit. simpl. lia.
  - reflexivity.
  - reflexivity.
  - intros j Hj. simpl in Hj.
    do 4 (destruct j as [|j]; [try lia; try reflexivity|]).
    destruct j; reflexivity.
Defined.

(** *** The normalisation on non-negative differences *)







(** *** The interpolation between two entries *)

Lemma Rceil_succ_floor lag :
  (Rfloor lag < Rceil lag)%Z -> Rceil lag = (Rfloor lag + 1)%Z.
Proof.
  intros H.
  destruct (Rfloor_bounds lag) as [_ F]. destruct (Rceil_bounds lag) as [C _].
  assert (B : IZR (Rceil lag) < IZR (Rfloor lag + 2)).
  { rewrite plus_IZR. lra. }
  apply lt_IZR in B. lia.
Qed.

(** X10.  At a lag that is not an integer and whose two neighbours hold
    finite numbers [lo] and [hi], the value is the linear interpolation
    [lo + (hi - lo) * (lag - floor lag)], which lies between [lo] and
    [hi]. *)
Theorem interp1_between c lag lo hi :
  0 < lag -> (Rfloor lag < Rceil lag)%Z ->
  nth_error c (Z.to_nat (Rfloor lag)) = Some (Some lo) ->
  nth_error c (Z.to_nat (Rceil lag)) = Some (Some hi) ->
  interp1 c lag = Ok (Some (lo + (hi - lo) * (lag - IZR (Rfloor lag)))) /\
  Rmin lo hi <= lo + (hi - lo) * (lag - IZR (Rfloor lag)) <= Rmax lo hi.
Proof.
  intros Hp Hni Hlo Hhi.
  pose proof (Rfloor_nonneg lag ltac:(lra)) as F.
  pose proof (Rceil_succ_floor lag Hni) as C.
  destruct (Rfloor_bounds lag) as [B1 B2].
  split.
  - unfold interp1.
    assert (Lhi : (Z.to_nat (Rceil lag) < length c)%nat)
      by (apply nth_error_Some; congruence).
    rewrite (index_ok c (Rceil lag) None) by lia.
    rewrite (index_ok c (Rfloor lag) None) by lia.
    cbn [bind].
    rewrite (nth_error_nth _ _ None Hhi), (nth_error_nth _ _ None Hlo).
    replace (Rceil lag - Rfloor lag)%Z with 1%Z by lia.
    cbn [fsub fmul lift2 odiv]. unfold fdiv.
    destruct (Req_dec_T 1 0) as [E|_]; [lra|].
    cbn [fadd lift2]. do 2 f_equal. field.
  - set (f := lag - IZR (Rfloor lag)).
    assert (Hf : 0 <= f < 1) by (unfold f; lra).
    unfold Rmin, Rmax. destruct (Rle_dec lo hi); split; nra.
Qed.

Lemma interp1_between_witness :
  interp1 [Some 1; Some 3; Some 5] (3 / 2)
  = Ok (Some (3 + (5 - 3) * (3 / 2 - IZR (Rfloor (3 / 2))))).
Proof.
  assert (F : Rfloor (3 / 2) = 1%Z) by (apply Rfloor_eq; lra).
  assert (C : Rceil (3 / 2) = 2%Z) by (apply Rceil_eq; lra).
  apply (interp1_between [Some 1; Some 3; Some 5] (3 / 2) 3 5).
  - lra.
  - rewrite F, C. lia.
  - rewrite F. reflexivity.
  - rewrite C. reflexivity.
Defined.

(** *** A sample rate that is not positive *)

(** X22.  With a positive stride, lags that fit and a positive [lmax], a
    sample rate of zero makes [forward] raise OverflowError (the logarithm
    is minus infinity, which [int] refuses) and a negative one ValueError
    (the logarithm is not a number), after the frames have been
    processed. *)
Theorem forward1_sample_rate_not_positive cfg audio :
  lags_fit cfg -> (0 < strides cfg)%Z -> (sr cfg <= 0)%Z ->
  forward1 cfg audio
  = Err (if (sr cfg =? 0)%Z then OverflowError else ValueError).
Proof.
  intros Hfit Hs Hsr. unfold forward1.
  destruct (frames_of_ok cfg audio) as [frames [Hf [Lf Ff]]];
    [destruct Hfit; lia | assumption |].
  destruct (cmnds_ok cfg frames Hfit Ff) as [cs [Hc _]].
  rewrite Hf. cbn [bind]. rewrite Hc. cbn [bind].
  assert (Hl : (0 < lmax cfg)%Z) by (destruct Hfit; lia).
  unfold l2m at 1.
  destruct (Z.eqb_spec (440 * lmax cfg) 0); [lia|]. cbn [bind].
  unfold np_log2.
  assert (P : 0 < IZR (440 * lmax cfg)) by (apply IZR_lt; lia).
  destruct (Z.eqb_spec (sr cfg) 0) as [E|E].
  - rewrite E. unfold Rdiv. rewrite Rmult_0_l.
    destruct (Rlt_dec 0 0); [lra|]. destruct (Req_dec_T 0 0); [|lra].
    reflexivity.
  - assert (N : IZR (sr cfg) / IZR (440 * lmax cfg) < 0).
    { unfold Rdiv. assert (IZR (sr cfg) < 0) by (apply IZR_lt; lia).
      assert (0 < / IZR (440 * lmax cfg)) by (apply Rinv_0_lt_compat; lra).
      nra. }
    destruct (Rlt_dec 0 _); [lra|]. destruct (Req_dec_T _ 0); [lra|].
    reflexivity.
Qed.

Lemma forward1_sample_rate_not_positive_witness :
  forward1 cfg_mute silence22 = Err OverflowError.
Proof.
  apply (forward1_sample_rate_not_positive cfg_mute silence22).
  - unfold lags_fit. simpl. lia.
  - simpl. lia.
  - simpl. lia.
Defined.

(** *** How far the difference function is from the sum of squares *)

(** X23.  On a window of even size, with lags that fit, the entry of
    [difference] at a lag [tau] is the sum over the frame of the squared
    differences [(x[j] - x[j + tau])^2], minus the square of the sample
    [x[n - 1 - tau]], minus twice the products [x[j] * x[j + tau - n]] of
    the samples that wrap around the end of the frame. *)
Theorem difference_departure cfg frame :
  lags_fit cfg -> length frame = Z.to_nat (windows cfg) ->
  (windows cfg mod 2 = 0)%Z ->
  exists diff,
    difference cfg frame = Ok diff /\
    length diff = Z.to_nat (lmax cfg) /\
    forall tau, (tau < Z.to_nat (lmax cfg))%nat ->
      nth tau diff 0
      = nth tau (direct_difference cfg frame) 0
        - Rsqr (nth (length frame - 1 - tau) frame 0)
        - 2 * wrapped frame tau.
Proof.
  intros Hfit Hlen Hev.
  destruct (difference_circular cfg frame Hfit Hlen Hev) as [diff [Hd [Ld _]]].
  destruct (difference_gap cfg frame Hfit Hlen Hev) as [diff' [Hd' Hn]].
  assert (diff' = diff) by congruence. subst diff'.
  exists diff. split; [exact Hd|]. split; [exact Ld|]. exact Hn.
Qed.

Lemma difference_departure_witness :
  exists diff,
    difference cfg_tail [1; 2; 3; 4] = Ok diff /\
    nth 0 diff 0 = - 16 /\ nth 1 diff 0 = 3 - 9 - 2 * 4.
Proof.
  destruct (difference_departure cfg_tail [1; 2; 3; 4])
    as [diff [Hd [_ Hn]]].
  - unfold lags_fit. simpl. lia.
  - reflexivity.
  - reflexivity.
  - exists diff. split; [exact Hd|]. split.
    + rewrite (Hn 0%nat) by (simpl; lia).
      unfold direct_difference, wrapped, Rsqr. simpl. lra.
    + rewrite (Hn 1%nat) by (simpl; lia).
      unfold direct_difference, wrapped, Rsqr. simpl. lra.
Defined.


End YingramExtra.

Module DatasetExtra.
Import Dataset ListFacts DatasetFacts.

(** *** The grouping of [__init__] *)

Lemma dict_get_set_other {V : Type} (d : dict V) k k' v :
  k <> k' -> dict_get k (dict_set k' v d) = dict_get k d.
Proof.
  intros Hk. induction d as [|[k0 v0] d IH]; simpl.
  - destruct (Z.eqb_spec k' k); [congruence|reflexivity].
  - destruct (Z.eqb_spec k0 k'); simpl.
    + destruct (Z.eqb_spec k0 k); [congruence|reflexivity].
    + destruct (Z.eqb_spec k0 k); [reflexivity|exact IH].
Qed.

Lemma group_paths_spec rd : forall iters acc g,
  group_paths rd iters acc = Ok g ->
  forall sid,
    dict_get sid g = match dict_get sid acc, files_of rd sid iters with
                     | Some l, fs => Some (l ++ fs)
                     | None, [] => None
                     | None, fs => Some fs
                     end.
Proof.
  induction iters as [|path rest IH]; intros acc g H sid.
  - simpl in H. injection H as <-. simpl.
    destruct (dict_get sid acc); [rewrite app_nil_r|]; reflexivity.
  - cbn [group_paths] in H. unfold files_of, speaker_of. cbn [filter].
    fold (speaker_of rd). fold (files_of rd sid rest).
    destruct (transcript rd (remove_wav (basename path))) as [[s t]|]
      eqn:Et; [|discriminate].
    set (acc1 := match dict_get s acc with
                 | Some _ => acc
                 | None => dict_set s [] acc
                 end) in H.
    assert (H1 : dict_get s acc1
                 = Some (match dict_get s acc with Some l => l | None => [] end)).
    { unfold acc1. destruct (dict_get s acc) eqn:E; [exact E|].
      apply dict_get_set_same. }
    assert (H2 : forall k, k <> s -> dict_get k acc1 = dict_get k acc).
    { intros k Hk. unfold acc1. destruct (dict_get s acc); [reflexivity|].
      apply dict_get_set_other. exact Hk. }
    rewrite H1 in H.
    rewrite (IH _ _ H sid).
    destruct (Z.eqb_spec s sid) as [->|Hne].
    + rewrite dict_get_set_same.
      destruct (dict_get sid acc); [rewrite <- app_assoc|]; reflexivity.
    + rewrite dict_get_set_other, H2 by congruence. reflexivity.
Qed.

Lemma random_pairing_fields G seed e d d' :
  random_pairing G seed e d = Ok d' ->
  groups d' = groups d /\ dataset d' = dataset d /\ reader d' = reader d.
Proof.
  unfold random_pairing. destruct (default_rng G seed e); cbn [bind]; [|discriminate].
  destruct (pair_groups G a (groups d)); cbn [bind]; [|discriminate].
  intros H. injection H as <-. auto.
Qed.

(** X11.  When [__init__] returns, the dataset keeps the reader and its
    list of files, and the group of every speaker is the list of the
    files whose key the table maps to that speaker, in the order of the
    iteration; a speaker without a file has no group, so no group is
    empty. *)
Theorem init_groups G e rd verbose d :
  __init__ G e rd verbose = Ok d ->
  reader d = rd /\ dataset d = reader_dataset rd /\
  forall sid,
    dict_get sid (groups d)
    = match files_of rd sid (match verbose with
                             | Some v => v (reader_dataset rd)
                             | None => reader_dataset rd
                             end) with
      | [] => None
      | fs => Some fs
      end.
Proof.
  unfold __init__. intros H.
  destruct (group_paths rd _ []) as [g|] eqn:Eg; cbn [bind] in H; [|discriminate].
  destruct (random_pairing_fields _ _ _ _ _ H) as [Hg [Hd Hr]].
  cbn [groups dataset reader] in Hg, Hd, Hr.
  split; [exact Hr|]. split; [exact Hd|].
  intros sid. rewrite Hg. apply (group_paths_spec rd _ [] g Eg sid).
Qed.

Lemma init_groups_witness :
  exists d,
    __init__ G_rev 5 rd_example None = Ok d /\
    dict_get 7 (groups d) = Some ["/d/a1.wav"; "/d/a2.wav"; "/d/a3.wav"]%string /\
    dict_get 8 (groups d) = None.
Proof.
  destruct (__init__ G_rev 5 rd_example None) as [d|] eqn:E;
    [|vm_compute in E; discriminate].
  exists d. split; [reflexivity|].
  destruct (init_groups G_rev 5 rd_example None d E) as [_ [_ H]].
  rewrite !H. split; reflexivity.
Defined.

Lemma group_paths_missing rd : forall iters acc,
  (exists p, In p iters /\ transcript rd (remove_wav (basename p)) = None) ->
  group_paths rd iters acc = Err KeyError.
Proof.
  induction iters as [|path rest IH]; intros acc [p [Hin Hp]];
    [destruct Hin|].
  cbn [group_paths].
  destruct (transcript rd (remove_wav (basename path))) as [[s t]|] eqn:Et;
    [|reflexivity].
  destruct Hin as [->|Hin]; [congruence|].
  destruct (dict_get s _); [|reflexivity].
  apply IH. exists p. auto.
Qed.

(** X12.  When the key of some file of the iteration has no entry in the
    transcript table, [__init__] raises KeyError, whatever the generator:
    no dataset is built and no pairing is drawn. *)
Theorem init_missing_key G e rd verbose :
  (exists p,
     In p (match verbose with
           | Some v => v (reader_dataset rd)
           | None => reader_dataset rd
           end) /\
     transcript rd (remove_wav (basename p)) = None) ->
  __init__ G e rd verbose = Err KeyError.
Proof.
  intros H. unfold __init__.
  rewrite (group_paths_missing rd _ [] H). reflexivity.
Qed.

Lemma init_missing_key_witness :
  __init__ G_rev 5 rd_missing None = Err KeyError.
Proof.
  apply init_missing_key. exists "/d/c1.wav"%string.
  split; [simpl; auto | reflexivity].
Defined.

(** *** The number of pairs *)

Lemma chunk_ok_length sid paths chunk :
  chunk_ok sid paths chunk -> length chunk = (length paths + 1) / 2.
Proof.
  intros [_ [He Ho]].
  pose proof (Nat.div_mod_eq (length paths) 2) as D.
  pose proof (Nat.mod_upper_bound (length paths) 2 ltac:(lia)) as B.
  destruct (Nat.eq_dec (length paths mod 2) 0) as [E|E].
  - destruct (He E) as [L _]. rewrite L. rewrite E in D.
    apply Nat.div_unique with (r := 1); lia.
  - destruct (Ho ltac:(lia)) as [L _]. exact L.
Qed.

Lemma chunks_length (items : list (Z * list string)) chunks :
  Forall2 (fun it chunk => chunk_ok (fst it) (snd it) chunk) items chunks ->
  length (concat chunks)
  = list_sum (map (fun it => (length (snd it) + 1) / 2) items).
Proof.
  induction 1 as [|it chunk items chunks H _ IH]; [reflexivity|].
  simpl. rewrite length_app, IH, (chunk_ok_length _ _ _ H). reflexivity.
Qed.

(** X13.  With a lawful generator and an accepted seed, [random_pairing]
    leaves as many pairs as the sum over the speakers of half their
    number of files, rounded up: that is what [__len__] returns. *)
Theorem len_after_pairing G seed e d :
  lawful G -> seed_ok seed ->
  exists d',
    random_pairing G seed e d = Ok d' /\
    __len__ d'
    = Z.of_nat (list_sum (map (fun it => (length (snd it) + 1) / 2) (groups d))).
Proof.
  intros HG Hs. unfold random_pairing.
  destruct (default_rng_ok G seed e Hs) as [g ->]. cbn [bind].
  destruct (pair_groups_ok G HG (groups d) g) as [chunks [-> F]]. cbn [bind].
  eexists. split; [reflexivity|].
  unfold __len__. cbn [pairs set_pairs]. f_equal.
  apply chunks_length. exact F.
Qed.

Lemma len_after_pairing_witness :
  exists d',
    random_pairing G_rev (Some 3%Z) 0 ds_example = Ok d' /\ __len__ d' = 3%Z.
Proof.
  apply (len_after_pairing G_rev (Some 3%Z) 0 ds_example).
  - exact lawful_rev.
  - simpl. lia.
Defined.

(** *** Splitting by speaker *)

Lemma slice_to_from_app {A : Type} (l : list A) (k : Z) :
  slice_to l k ++ slice_from l k = l.
Proof.
  unfold slice_to, slice_from, slice, slice_bound.
  set (n := Z.of_nat (length l)).
  set (b := Z.max 0 (Z.min n (if (k <? 0)%Z then (k + n)%Z else k))).
  assert (Hb : (0 <= b <= n)%Z) by (unfold b, n; lia).
  replace (Z.max 0 (Z.min n (if (0 <? 0)%Z then (0 + n)%Z else 0%Z))) with 0%Z
    by (simpl; lia).
  replace (Z.max 0 (Z.min n (if (n <? 0)%Z then (n + n)%Z else n))) with n
    by (destruct (Z.ltb_spec n 0); unfold n in *; lia).
  cbn [Z.to_nat skipn]. rewrite Z.sub_0_r.
  rewrite (firstn_all2 (skipn (Z.to_nat b) l))
    by (rewrite length_skipn; unfold n; lia).
  apply firstn_skipn.
Qed.

Lemma slice_to_length {A : Type} (l : list A) (k : Z) :
  (0 <= k <= Z.of_nat (length l))%Z -> length (slice_to l k) = Z.to_nat k.
Proof.
  intros H. rewrite slice_to_inner by exact H. rewrite length_firstn. lia.
Qed.

Lemma nodup_app_disjoint {A : Type} (l1 l2 : list A) a :
  NoDup (l1 ++ l2) -> In a l1 -> ~ In a l2.
Proof.
  induction l1 as [|x l1 IH]; intros Nd H1 H2; [destruct H1|].
  simpl in Nd. inversion Nd as [|? ? Hx Nd']; subst.
  destruct H1 as [->|H1].
  - apply Hx. apply in_or_app. right. exact H2.
  - exact (IH Nd' H1 H2).
Qed.

(** X14.  On a dataset with one group per speaker, [split] hands every
    speaker to exactly one side, whatever [size]: the groups it retains
    followed by the groups of the residual dataset are the groups it had,
    in their order.  Both sides keep the reader and the whole list of
    files, and a [size] between 0 and the number of speakers is the
    number of speakers retained. *)
Theorem split_partitions G size e1 e2 d d' r :
  NoDup (map fst (groups d)) ->
  split G size e1 e2 d = Ok (d', r) ->
  groups d' ++ groups r = groups d /\
  (forall sid, In sid (map fst (groups d')) -> ~ In sid (map fst (groups r))) /\
  dataset d' = dataset d /\ dataset r = dataset d /\
  reader d' = reader d /\ reader r = reader d /\
  ((0 <= size <= Z.of_nat (length (groups d)))%Z ->
   Z.of_nat (length (groups d')) = size).
Proof.
  intros Nd. unfold split. intros H.
  destruct (random_pairing G None e1 _) as [r0|] eqn:Er; cbn [bind] in H;
    [|discriminate].
  destruct (random_pairing G None e2 _) as [d0|] eqn:Ed; cbn [bind] in H;
    [|discriminate].
  injection H as -> ->.
  destruct (random_pairing_fields _ _ _ _ _ Er) as [Gr [Dr Rr]].
  destruct (random_pairing_fields _ _ _ _ _ Ed) as [Gd [Dd Rd]].
  cbn [groups dataset reader set_groups] in Gr, Dr, Rr, Gd, Dd, Rd.
  rewrite dict_of_items_id in Gr by (apply nodup_keys_slice; exact Nd).
  rewrite dict_of_items_id in Gd by (apply nodup_keys_slice; exact Nd).
  assert (E : groups d' ++ groups r = groups d).
  { rewrite Gr, Gd. apply slice_to_from_app. }
  split; [exact E|]. split; [|repeat split; try assumption].
  - intros sid H1 H2. rewrite <- E, map_app in Nd.
    exact (nodup_app_disjoint _ _ sid Nd H1 H2).
  - intros Hs. rewrite Gd, slice_to_length by exact Hs. lia.
Qed.

Lemma split_partitions_witness :
  exists d' r,
    split G_rev 1 0 0 ds_example = Ok (d', r) /\
    groups d' ++ groups r = groups ds_example /\
    Z.of_nat (length (groups d')) = 1%Z.
Proof.
  destruct (split G_rev 1 0 0 ds_example) as [[d' r]|] eqn:E;
    [|vm_compute in E; discriminate].
  exists d', r. split; [reflexivity|].
  destruct (split_partitions G_rev 1 0 0 ds_example d' r) as [H1 [_ [_ [_ [_ [_ H2]]]]]].
  - repeat constructor; simpl; intuition lia.
  - exact E.
  - split; [exact H1|]. apply H2. simpl. lia.
Defined.

(** *** Batches *)

Lemma fold_max_spec : forall (l : list Z) (x : Z),
  (x <= fold_left Z.max l x)%Z /\
  (forall y, In y l -> (y <= fold_left Z.max l x)%Z) /\
  (fold_left Z.max l x = x \/ In (fold_left Z.max l x) l).
Proof.
  induction l as [|a l IH]; intros x; simpl.
  - split; [lia|]. split; [tauto|auto].
  - destruct (IH (Z.max x a)) as [H1 [H2 H3]].
    split; [lia|]. split.
    + intros y [->|Hy]; [lia|auto].
    + destruct H3 as [H3|H3]; [|auto].
      rewrite H3. destruct (Z.max_spec x a) as [[_ ->]|[_ ->]]; auto.
Qed.

Lemma np_max_ok (l : list Z) :
  l <> [] ->
  exists m, np_max l = Ok m /\ (forall y, In y l -> (y <= m)%Z) /\ In m l.
Proof.
  destruct l as [|x l]; [congruence|]. intros _.
  destruct (fold_max_spec l x) as [H1 [H2 H3]].
  exists (fold_left Z.max l x). split; [reflexivity|]. split.
  - intros y [<-|Hy]; auto.
  - simpl. destruct H3 as [->|H3]; auto.
Qed.

Lemma np_stack_ok (rows : list (list R)) n :
  rows <> [] -> Forall (fun r => length r = n) rows -> np_stack rows = Ok rows.
Proof.
  destruct rows as [|r rs]; [congruence|]. intros _ F.
  inversion F as [|? ? Hr Hrs]; subst. unfold np_stack.
  replace (forallb (fun x => Nat.eqb (length x) (length r)) rs) with true;
    [reflexivity|].
  symmetry. apply forallb_forall. intros x Hx. apply Nat.eqb_eq.
  revert x Hx. apply Forall_forall. exact Hrs.
Qed.

Lemma padded_rows (sel : datum -> list R) (bunch : list datum) (m : Z) :
  bunch <> [] ->
  (forall d, In d bunch -> (Z.of_nat (length (sel d)) <= m)%Z) ->
  (rows <- mapM (fun d => np_pad (sel d) (m - Z.of_nat (length (sel d)))) bunch ;;
   np_stack rows)
  = Ok (map (fun d => sel d ++ repeat 0%R (Z.to_nat m - length (sel d))) bunch).
Proof.
  intros Hne Hm.
  rewrite (mapM_ok _ (fun d => sel d ++ repeat 0%R (Z.to_nat m - length (sel d)))).
  - cbn [bind]. apply (np_stack_ok _ (Z.to_nat m)).
    + destruct bunch; [congruence|discriminate].
    + apply Forall_forall. intros r Hr. apply in_map_iff in Hr.
      destruct Hr as [d [<- Hd]]. specialize (Hm d Hd).
      rewrite length_app, repeat_length. lia.
  - intros d Hd. specialize (Hm d Hd). unfold np_pad.
    destruct (Z.ltb_spec (m - Z.of_nat (length (sel d))) 0); [lia|].
    do 3 f_equal. lia.
Qed.

Lemma collate_ok (bunch : list datum) :
  bunch <> [] ->
  exists len1 len2,
    collate bunch
    = Ok (map (fun d : datum => fst (fst d)) bunch,
          map (fun d : datum => (Z.of_nat (length (snd (fst d))),
                                 Z.of_nat (length (snd d)))) bunch,
          map (fun d : datum =>
                 snd (fst d) ++ repeat 0%R (len1 - length (snd (fst d)))) bunch,
          map (fun d : datum =>
                 snd d ++ repeat 0%R (len2 - length (snd d))) bunch) /\
    (forall d, In d bunch ->
       length (snd (fst d)) <= len1 /\ length (snd d) <= len2) /\
    (exists d, In d bunch /\ length (snd (fst d)) = len1) /\
    (exists d, In d bunch /\ length (snd d) = len2).
Proof.
  intros Hne. unfold collate.
  set (lengths := map (fun d : datum => (Z.of_nat (length (snd (fst d))),
                                         Z.of_nat (length (snd d)))) bunch).
  assert (L1 : map fst lengths
               = map (fun d : datum => Z.of_nat (length (snd (fst d)))) bunch).
  { unfold lengths. rewrite map_map. reflexivity. }
  assert (L2 : map snd lengths
               = map (fun d : datum => Z.of_nat (length (snd d))) bunch).
  { unfold lengths. rewrite map_map. reflexivity. }
  rewrite L1, L2.
  destruct (np_max_ok (map (fun d : datum => Z.of_nat (length (snd (fst d)))) bunch))
    as [m1 [-> [U1 I1]]]; [destruct bunch; [congruence|discriminate]|].
  destruct (np_max_ok (map (fun d : datum => Z.of_nat (length (snd d))) bunch))
    as [m2 [-> [U2 I2]]]; [destruct bunch; [congruence|discriminate]|].
  cbn [bind].
  assert (B1 : forall d, In d bunch -> (Z.of_nat (length (snd (fst d))) <= m1)%Z).
  { intros d Hd. apply U1.
    apply (in_map (fun d : datum => Z.of_nat (length (snd (fst d))))). exact Hd. }
  assert (B2 : forall d, In d bunch -> (Z.of_nat (length (snd d)) <= m2)%Z).
  { intros d Hd. apply U2.
    apply (in_map (fun d : datum => Z.of_nat (length (snd d)))). exact Hd. }
  pose proof (padded_rows (fun d : datum => snd (fst d)) bunch m1 Hne B1) as P1.
  pose proof (padded_rows (fun d : datum => snd d) bunch m2 Hne B2) as P2.
  cbv beta in P1, P2.
  exists (Z.to_nat m1), (Z.to_nat m2). split; [|split; [|split]].
  - destruct (mapM _ bunch) as [rows1|]; cbn [bind] in P1 |- *; [|discriminate].
    rewrite P1. cbn [bind].
    destruct (mapM _ bunch) as [rows2|]; cbn [bind] in P2 |- *; [|discriminate].
    rewrite P2. reflexivity.
  - intros d Hd. specialize (B1 d Hd). specialize (B2 d Hd). lia.
  - apply in_map_iff in I1. destruct I1 as [d [E Hd]].
    exists d. split; [exact Hd|lia].
  - apply in_map_iff in I2. destruct I2 as [d [E Hd]].
    exists d. split; [exact Hd|lia].
Qed.

(** X15.  On a bunch that is not empty [collate] returns the speaker ids
    and the lengths of the speeches as they come, and pads every first
    speech with zeros on the right to the length of the longest first
    speech, every second speech to the length of the longest second one:
    all the rows of one array have the same length. *)
Theorem collate_pads (bunch : list datum) :
  bunch <> [] ->
  exists len1 len2 speech1 speech2,
    collate bunch
    = Ok (map (fun d : datum => fst (fst d)) bunch,
          map (fun d : datum => (Z.of_nat (length (snd (fst d))),
                                 Z.of_nat (length (snd d)))) bunch,
          speech1, speech2) /\
    (forall d, In d bunch ->
       length (snd (fst d)) <= len1 /\ length (snd d) <= len2) /\
    (exists d, In d bunch /\ length (snd (fst d)) = len1) /\
    (exists d, In d bunch /\ length (snd d) = len2) /\
    speech1 = map (fun d : datum =>
                     snd (fst d) ++ repeat 0%R (len1 - length (snd (fst d))))
                  bunch /\
    speech2 = map (fun d : datum =>
                     snd d ++ repeat 0%R (len2 - length (snd d))) bunch /\
    Forall (fun r => length r = len1) speech1 /\
    Forall (fun r => length r = len2) speech2.
Proof.
  intros Hne.
  destruct (collate_ok bunch Hne) as [len1 [len2 [Hc [Hb [H1 H2]]]]].
  exists len1, len2. eexists. eexists.
  split; [exact Hc|]. split; [exact Hb|]. split; [exact H1|].
  split; [exact H2|]. split; [reflexivity|]. split; [reflexivity|].
  split; apply Forall_forall; intros r Hr; apply in_map_iff in Hr;
    destruct Hr as [d [<- Hd]]; destruct (Hb d Hd);
    rewrite length_app, repeat_length; lia.
Qed.

Lemma collate_pads_witness :
  exists speech1 speech2,
    collate [(7%Z, [1%R], [2%R; 3%R]); (9%Z, [4%R; 5%R; 6%R], [])]
    = Ok ([7%Z; 9%Z], [(1%Z, 2%Z); (3%Z, 0%Z)], speech1, speech2) /\
    Forall (fun r => length r = 3) speech1 /\
    Forall (fun r => length r = 2) speech2.
Proof.
  destruct (collate_pads [(7%Z, [1%R], [2%R; 3%R]); (9%Z, [4%R; 5%R; 6%R], [])])
    as [len1 [len2 [speech1 [speech2 [Hc [Hb [H1 [H2 [_ [_ [F1 F2]]]]]]]]]]];
    [discriminate|].
  exists speech1, speech2. split; [exact Hc|].
  destruct (Hb _ (or_introl eq_refl)) as [_ B2].
  destruct (Hb _ (or_intror (or_introl eq_refl))) as [B1 _].
  simpl in B1, B2.
  assert (E1 : len1 = 3).
  { destruct H1 as [d [[<-|[<-|[]]] E]]; simpl in E; lia. }
  assert (E2 : len2 = 2).
  { destruct H2 as [d [[<-|[<-|[]]] E]]; simpl in E; lia. }
  subst len1 len2. split; assumption.
Defined.

Lemma combine_map_same {A B C : Type} (f : A -> B) (g : A -> C) (l : list A) :
  combine (map f l) (map g l) = map (fun x => (f x, g x)) l.
Proof.
  induction l as [|a l IH]; simpl; [reflexivity|]. rewrite IH. reflexivity.
Qed.

Lemma firstn_padded (s : list R) n : firstn (length s) (s ++ repeat 0%R n) = s.
Proof.
  rewrite firstn_app, Nat.sub_diag, firstn_all. simpl. apply app_nil_r.
Qed.

(** X16.  Nothing is lost in a batch: whenever [collate] returns, cutting
    every row back to the length recorded for it gives the bunch that was
    collated. *)
Theorem collate_round_trip (bunch : list datum) (b : batch) :
  collate bunch = Ok b -> unpad b = bunch.
Proof.
  intros H.
  assert (Hne : bunch <> []).
  { intros ->. discriminate H. }
  destruct (collate_ok bunch Hne) as [len1 [len2 [Hc _]]].
  rewrite Hc in H. injection H as <-.
  unfold unpad. rewrite !combine_map_same, map_map.
  rewrite <- (map_id bunch) at 2. apply map_ext.
  intros [[sid s1] s2]. cbn [fst snd].
  rewrite !Nat2Z.id, !firstn_padded. reflexivity.
Qed.

Lemma collate_round_trip_witness :
  exists b,
    collate [(7%Z, [1%R], [2%R; 3%R]); (9%Z, [4%R; 5%R; 6%R], [])] = Ok b /\
    unpad b = [(7%Z, [1%R], [2%R; 3%R]); (9%Z, [4%R; 5%R; 6%R], [])].
Proof.
  destruct (collate [(7%Z, [1%R], [2%R; 3%R]); (9%Z, [4%R; 5%R; 6%R], [])])
    as [b|] eqn:E; [|vm_compute in E; discriminate].
  exists b. split; [reflexivity|].
  apply collate_round_trip. exact E.
Defined.


(** *** Reading items *)

Lemma getitem_int_ok {A : Type} (l : list A) (i : Z) (d : A) :
  (- Z.of_nat (length l) <= i < Z.of_nat (length l))%Z ->
  getitem_int l i = Ok (nth (Z.to_nat (i mod Z.of_nat (length l))) l d).
Proof.
  intros H. unfold getitem_int.
  set (n := Z.of_nat (length l)) in *.
  assert (E : (i mod n = if (i <? 0)%Z then (i + n)%Z else i)%Z).
  { destruct (Z.ltb_spec i 0).
    - symmetry. apply Z.mod_unique with (q := (-1)%Z); lia.
    - apply Z.mod_small. lia. }
  rewrite E.
  set (j := if (i <? 0)%Z then (i + n)%Z else i) in *.
  assert (Hj : (0 <= j < n)%Z) by (unfold j; destruct (Z.ltb_spec i 0); lia).
  destruct (Z.ltb_spec j 0); [lia|]. destruct (Z.leb_spec n j); [lia|].
  cbn [orb]. apply getitem_ok. unfold n in Hj. lia.
Qed.

Lemma getitem_int_out {A : Type} (l : list A) (i : Z) :
  (i < - Z.of_nat (length l) \/ Z.of_nat (length l) <= i)%Z ->
  getitem_int l i = Err IndexError.
Proof.
  intros H. unfold getitem_int.
  destruct (Z.ltb_spec i 0).
  - destruct (Z.ltb_spec (i + Z.of_nat (length l)) 0); [reflexivity|lia].
  - destruct (Z.ltb_spec i 0); [lia|].
    destruct (Z.leb_spec (Z.of_nat (length l)) i); [reflexivity|lia].
Qed.

(** X17.  [__getitem__] on an integer [i]: outside [-len, len) it raises
    IndexError without reading any file; inside, it reads the pair at
    position [i mod len], so a negative index counts from the end, and
    when the two files can be read it returns the speaker id of the pair
    with the two speeches, whatever speaker id and text the reader
    reports for the files. *)
Theorem getitem_integer preproc d i :
  ((i < - __len__ d \/ __len__ d <= i)%Z ->
   __getitem__ preproc d (IndexInt i) = Err IndexError) /\
  ((- __len__ d <= i < __len__ d)%Z ->
   exists sid path1 path2,
     nth_error (pairs d) (Z.to_nat (i mod __len__ d)) = Some (sid, path1, path2) /\
     forall x1 t1 s1 x2 t2 s2,
       preproc path1 = Ok (x1, t1, s1) -> preproc path2 = Ok (x2, t2, s2) ->
       __getitem__ preproc d (IndexInt i) = Ok (Item (sid, s1, s2))).
Proof.
  unfold __len__. split.
  - intros H. unfold __getitem__. rewrite getitem_int_out by exact H.
    reflexivity.
  - intros H.
    assert (Hm : (0 <= i mod Z.of_nat (length (pairs d))
                  < Z.of_nat (length (pairs d)))%Z)
      by (apply Z.mod_pos_bound; lia).
    destruct (nth_error (pairs d) (Z.to_nat (i mod Z.of_nat (length (pairs d)))))
      as [[[sid path1] path2]|] eqn:E.
    2:{ apply nth_error_None in E. lia. }
    exists sid, path1, path2. split; [reflexivity|].
    intros x1 t1 s1 x2 t2 s2 P1 P2. unfold __getitem__.
    rewrite (getitem_int_ok _ _ (0%Z, EmptyString, EmptyString)) by exact H.
    rewrite (nth_error_nth _ _ _ E). cbn [bind].
    unfold load_pair, load, normalize. cbn [fst snd].
    rewrite P1, P2. reflexivity.
Qed.

Lemma getitem_integer_witness :
  __getitem__ preproc_example ds_paired (IndexInt 3) = Err IndexError /\
  __getitem__ preproc_example ds_paired (IndexInt (-4)) = Err IndexError /\
  __getitem__ preproc_example ds_paired (IndexInt (-1))
  = Ok (Item (9%Z, repeat 1%R 9, repeat 1%R 9)).
Proof.
  destruct (getitem_integer preproc_example ds_paired 3) as [H3 _].
  destruct (getitem_integer preproc_example ds_paired (-4)) as [H4 _].
  destruct (getitem_integer preproc_example ds_paired (-1)) as [_ H1].
  change (__len__ ds_paired) with 3%Z in H3, H4, H1.
  split; [apply H3; lia|]. split; [apply H4; lia|].
  destruct H1 as [sid [path1 [path2 [E H]]]]; [lia|].
  change (nth_error (pairs ds_paired) (Z.to_nat ((-1) mod 3)))
    with (Some (9%Z, "/d/b1.wav"%string, "/d/b2.wav"%string)) in E.
  injection E as <- <- <-.
  apply (H 0%Z "text"%string _ 0%Z "text"%string _); reflexivity.
Defined.

Lemma mapM_map {A B C : Type} (F : B -> result C) (G : A -> B) (H : A -> C) ks :
  (forall k, In k ks -> F (G k) = Ok (H k)) ->
  mapM F (map G ks) = Ok (map H ks).
Proof.
  induction ks as [|k ks IH]; intros Hk; [reflexivity|].
  cbn [map mapM]. rewrite (Hk k (or_introl eq_refl)). cbn [bind].
  rewrite IH by (intros k' Hk'; apply Hk; right; exact Hk'). reflexivity.
Qed.

Lemma window_as_nth {A : Type} (l : list A) a b d :
  a <= b <= length l ->
  firstn (b - a) (skipn a l) = map (fun k => nth k l d) (seq a (b - a)).
Proof.
  intros H. apply (nth_ext _ _ d d).
  - rewrite length_firstn, length_skipn, length_map, length_seq. lia.
  - intros i Hi. rewrite length_firstn, length_skipn in Hi.
    rewrite nth_firstn. destruct (Nat.ltb_spec i (b - a)); [|lia].
    rewrite nth_skipn.
    rewrite (nth_indep (map (fun k => nth k l d) (seq a (b - a))) d (nth 0 l d))
      by (rewrite length_map, length_seq; lia).
    rewrite (map_nth (fun k => nth k l d)), seq_nth by lia. reflexivity.
Qed.

(** X18.  A slice is the batch of its items: when [__getitem__] returns
    the datum [f k] at every integer [k] of [a .. b - 1], within the
    dataset, then on the slice [a:b] it returns what [collate] makes of
    these data in order, and raises what [collate] raises. *)
Theorem getitem_slice_collates preproc d (a b : nat) (f : nat -> datum) :
  a <= b <= length (pairs d) ->
  (forall k, a <= k < b ->
     __getitem__ preproc d (IndexInt (Z.of_nat k)) = Ok (Item (f k))) ->
  __getitem__ preproc d (IndexSlice (Some (Z.of_nat a)) (Some (Z.of_nat b)))
  = (bt <- collate (map f (seq a (b - a))) ;; Ok (Batch bt)).
Proof.
  intros Hab Hf. unfold __getitem__, getitem_slice.
  rewrite slice_inner by lia.
  replace (Z.to_nat (Z.of_nat b - Z.of_nat a)) with (b - a) by lia.
  rewrite Nat2Z.id.
  rewrite (window_as_nth _ a b ((0%Z, EmptyString, EmptyString) : pair))
    by exact Hab.
  rewrite (mapM_map (load_pair preproc) _ f); [reflexivity|].
  intros k Hk. apply in_seq in Hk.
  specialize (Hf k ltac:(lia)). unfold __getitem__ in Hf.
  rewrite (getitem_int_ok _ _ ((0%Z, EmptyString, EmptyString) : pair)) in Hf
    by lia.
  rewrite Z.mod_small, Nat2Z.id in Hf by lia. cbn [bind] in Hf.
  destruct (load_pair preproc _) as [x|]; cbn [bind] in Hf; [|discriminate].
  congruence.
Qed.

Lemma getitem_slice_collates_witness :
  __getitem__ preproc_example ds_paired (IndexSlice (Some 1%Z) (Some 3%Z))
  = (bt <- collate [(7%Z, repeat 1%R 9, repeat 1%R 9);
                    (9%Z, repeat 1%R 9, repeat 1%R 9)] ;;
     Ok (Batch bt)).
Proof.
  apply (getitem_slice_collates preproc_example ds_paired 1 3
           (fun k => (if Nat.eqb k 1 then 7%Z else 9%Z,
                      repeat 1%R 9, repeat 1%R 9))).
  - simpl. lia.
  - intros k Hk.
    assert (E : k = 1 \/ k = 2) by lia.
    destruct E as [-> | ->]; reflexivity.
Defined.

Lemma slice_past_end {A : Type} (l : list A) (a b : Z) :
  (Z.of_nat (length l) <= a)%Z -> slice l a b = [].
Proof.
  intros H. unfold slice, slice_bound.
  destruct (Z.ltb_spec a 0); [lia|].
  replace (Z.max 0 (Z.min (Z.of_nat (length l)) a)) with (Z.of_nat (length l))
    by lia.
  rewrite Nat2Z.id, skipn_all. apply firstn_nil.
Qed.

(** X19.  A slice that starts at or past the end selects no pair, and
    [__getitem__] then raises ValueError instead of returning an empty
    batch: [collate] has no maximum to take.  On an empty dataset this is
    every slice without a negative start. *)
Theorem getitem_empty_slice preproc d start stop :
  (__len__ d <= match start with Some a => a | None => 0 end)%Z ->
  __getitem__ preproc d (IndexSlice start stop) = Err ValueError.
Proof.
  unfold __len__. intros H. unfold __getitem__, getitem_slice.
  rewrite slice_past_end by exact H. reflexivity.
Qed.

Lemma getitem_empty_slice_witness :
  __getitem__ preproc_example ds_paired (IndexSlice (Some 3%Z) None)
  = Err ValueError /\
  __getitem__ preproc_example ds_example (IndexSlice None None)
  = Err ValueError.
Proof.
  split; apply getitem_empty_slice; unfold __len__; simpl; lia.
Defined.


(** *** The key of a file *)

Lemma has_slash_cons c s :
  has_slash (String c s) = (Ascii.eqb "/"%char c || has_slash s)%bool.
Proof. reflexivity. Qed.

Lemma basename_no_slash s : has_slash s = false -> basename s = s.
Proof.
  intros H. destruct s as [|c s]; [reflexivity|].
  cbn [basename]. rewrite H. reflexivity.
Qed.

Lemma has_slash_app dir rest :
  has_slash (dir ++ String "/"%char rest) = true.
Proof.
  induction dir as [|c dir IH].
  - reflexivity.
  - cbn [String.append]. rewrite has_slash_cons, IH. apply orb_true_r.
Qed.

Lemma basename_app dir rest :
  has_slash rest = false -> basename (dir ++ String "/"%char rest) = rest.
Proof.
  intros H. induction dir as [|c dir IH].
  - cbn [String.append basename]. rewrite has_slash_cons. cbn [Ascii.eqb].
    simpl orb. apply basename_no_slash. exact H.
  - cbn [String.append basename].
    rewrite has_slash_cons, has_slash_app, orb_true_r. exact IH.
Qed.

Lemma remove_wav_cons c s :
  Ascii.eqb "."%char c = false ->
  remove_wav (String c s) = String c (remove_wav s).
Proof.
  intros H. rewrite Ascii.eqb_sym in H.
  destruct s as [|c2 [|c3 [|c4 s4]]]; cbn [remove_wav]; try reflexivity.
  rewrite H. reflexivity.
Qed.

Lemma remove_wav_suffix name :
  existsb (Ascii.eqb "."%char) (list_ascii_of_string name) = false ->
  remove_wav (name ++ ".wav") = name.
Proof.
  induction name as [|c name IH]; intros H; [reflexivity|].
  cbn [list_ascii_of_string existsb] in H.
  apply orb_false_iff in H. destruct H as [Hc Hn].
  cbn [String.append]. rewrite remove_wav_cons by exact Hc.
  rewrite IH by exact Hn. reflexivity.
Qed.

(** X20.  The key [__init__] looks up for a file [dir/name.wav] is
    [name], when [name] holds neither a slash nor a dot: the directory
    and the extension play no part in the grouping. *)
Theorem key_of_path dir name :
  has_slash name = false ->
  existsb (Ascii.eqb "."%char) (list_ascii_of_string name) = false ->
  remove_wav (basename (dir ++ String "/"%char (name ++ ".wav"))) = name.
Proof.
  intros Hs Hd. rewrite basename_app.
  - apply remove_wav_suffix. exact Hd.
  - clear Hd. induction name as [|c name IH]; [reflexivity|].
    rewrite has_slash_cons in Hs. apply orb_false_iff in Hs.
    destruct Hs as [Hc Hn]. cbn [String.append].
    rewrite has_slash_cons, Hc, (IH Hn). reflexivity.
Qed.

Lemma key_of_path_witness :
  remove_wav (basename ("/data/train" ++ String "/"%char ("19_198_000" ++ ".wav")))
  = "19_198_000"%string.
Proof.
  apply key_of_path; reflexivity.
Defined.

(** *** A record and its partner *)

Lemma records_distinct (chunk : list pair) :
  NoDup (records chunk) -> Forall (fun p : pair => snd (fst p) <> snd p) chunk.
Proof.
  induction chunk as [|p chunk IH]; intros N; constructor.
  - unfold records in N. cbn [flat_map app] in N.
    inversion N as [|? ? Hx _]; subst. intros E. apply Hx. left. auto.
  - apply IH. unfold records in N. cbn [flat_map app] in N.
    inversion N as [|? ? _ N1]; subst. inversion N1; subst. assumption.
Qed.

Lemma chunk_ok_distinct sid paths chunk :
  chunk_ok sid paths chunk -> NoDup paths -> 2 <= length paths ->
  Forall (fun p : pair => snd (fst p) <> snd p) chunk.
Proof.
  intros [_ [He Ho]] N L.
  pose proof (Nat.div_mod_eq (length paths) 2) as D.
  pose proof (Nat.mod_upper_bound (length paths) 2 ltac:(lia)) as B.
  destruct (Nat.eq_dec (length paths mod 2) 0) as [E|E].
  - destruct (He E) as [_ P]. apply records_distinct.
    apply (Permutation_NoDup (Permutation_sym P) N).
  - destruct (Ho ltac:(lia)) as [Lc [first [Hhd [Hnth P]]]].
    destruct chunk as [|[[s a] x] chunk'].
    { simpl in Hhd. discriminate. }
    unfold records in Hhd, Hnth, P. cbn [flat_map app fst snd] in Hhd, Hnth, P.
    fold (records chunk') in Hnth, P.
    cbn [hd_error] in Hhd. injection Hhd as ->.
    apply Permutation_cons_inv in P.
    pose proof (Permutation_NoDup (Permutation_sym P) N) as N'.
    inversion N' as [|? ? Hx N'']; subst.
    constructor; [|apply records_distinct; exact N''].
    cbn [fst snd]. intros <-. apply Hx.
    destruct (length paths) as [|[|n]] eqn:El; [lia|lia|].
    cbn [nth_error] in Hnth. apply nth_error_In in Hnth. exact Hnth.
Qed.

Lemma chunk_ok_single sid p0 chunk :
  chunk_ok sid [p0] chunk -> chunk = [(sid, p0, p0)].
Proof.
  intros [Fs [_ Ho]]. destruct (Ho eq_refl) as [Lc [first [Hhd [Hnth P]]]].
  change ((length [p0] + 1) / 2) with 1 in Lc.
  destruct chunk as [|[[s a] b] [|q chunk]]; try discriminate Lc.
  unfold records in Hhd, Hnth, P. cbn in Hhd, Hnth, P.
  injection Hhd as ->. injection Hnth as ->.
  assert (Hs : s = sid) by (inversion Fs; assumption). subst s.
  apply Permutation_cons_inv in P. apply Permutation_length_1 in P.
  subst. reflexivity.
Qed.

(** X21.  With a lawful generator, an accepted seed and one group per
    speaker, [random_pairing] never pairs a file with itself for a
    speaker who has at least two distinct files; a speaker with a single
    file gets the one pair of that file with itself. *)
Theorem no_self_pair G seed e d :
  lawful G -> seed_ok seed -> NoDup (map fst (groups d)) ->
  exists d',
    random_pairing G seed e d = Ok d' /\
    forall sid paths, In (sid, paths) (groups d) ->
      (NoDup paths -> 2 <= length paths ->
       Forall (fun p : pair => snd (fst p) <> snd p) (pairs_of sid (pairs d'))) /\
      (forall p0, paths = [p0] -> pairs_of sid (pairs d') = [(sid, p0, p0)]).
Proof.
  intros HG Hs N. unfold random_pairing.
  destruct (default_rng_ok G seed e Hs) as [g ->]. cbn [bind].
  destruct (pair_groups_ok G HG (groups d) g) as [chunks [-> F]].
  cbn [bind]. eexists; split; [reflexivity|].
  intros sid paths Hin. cbn [pairs set_pairs].
  pose proof (pairs_of_chunks (groups d) chunks N F sid paths Hin) as C.
  split.
  - intros Np L. exact (chunk_ok_distinct _ _ _ C Np L).
  - intros p0 ->. exact (chunk_ok_single _ _ _ C).
Qed.

Lemma no_self_pair_witness :
  exists d',
    random_pairing G_rev (Some 3%Z) 0 ds_example = Ok d' /\
    Forall (fun p : pair => snd (fst p) <> snd p) (pairs_of 7 (pairs d')) /\
    Forall (fun p : pair => snd (fst p) <> snd p) (pairs_of 9 (pairs d')).
Proof.
  destruct (no_self_pair G_rev (Some 3%Z) 0 ds_example) as [d' [Hd H]].
  - exact lawful_rev.
  - simpl. lia.
  - repeat constructor; simpl; intuition lia.
  - exists d'. split; [exact Hd|]. split.
    + apply (H 7%Z ["/d/a1.wav"; "/d/a2.wav"; "/d/a3.wav"]%string).
      * simpl. auto.
      * repeat constructor; simpl; intuition discriminate.
      * simpl. lia.
    + apply (H 9%Z ["/d/b1.wav"; "/d/b2.wav"]%string).
      * simpl. auto.
      * repeat constructor; simpl; intuition discriminate.
      * simpl. lia.
Defined.


(** *** Splitting at the ends *)

Lemma random_pairing_no_groups G seed e d d' :
  random_pairing G seed e d = Ok d' -> groups d = [] -> pairs d' = [].
Proof.
  unfold random_pairing. intros H E. rewrite E in H.
  destruct (default_rng G seed e); cbn [bind pair_groups] in H; [|discriminate].
  injection H as <-. reflexivity.
Qed.

(** X24.  The ends of [split], on a dataset with one group per speaker:
    with a [size] of at least the number of speakers the residual dataset
    has no group and no pair, and the retained one keeps every group; with
    a [size] of zero it is the retained dataset that has no group and no
    pair, and the residual one has every group. *)
Theorem split_at_the_ends G size e1 e2 d d' r :
  NoDup (map fst (groups d)) ->
  split G size e1 e2 d = Ok (d', r) ->
  ((Z.of_nat (length (groups d)) <= size)%Z ->
   groups r = [] /\ __len__ r = 0%Z /\ groups d' = groups d) /\
  (size = 0%Z ->
   groups d' = [] /\ __len__ d' = 0%Z /\ groups r = groups d).
Proof.
  intros Nd. unfold split. intros H.
  destruct (random_pairing G None e1 _) as [r0|] eqn:Er; cbn [bind] in H;
    [|discriminate].
  destruct (random_pairing G None e2 _) as [d0|] eqn:Ed; cbn [bind] in H;
    [|discriminate].
  injection H as -> ->.
  destruct (random_pairing_fields _ _ _ _ _ Er) as [Gr _].
  destruct (random_pairing_fields _ _ _ _ _ Ed) as [Gd _].
  pose proof (random_pairing_no_groups _ _ _ _ _ Er) as Pr.
  pose proof (random_pairing_no_groups _ _ _ _ _ Ed) as Pd.
  cbn [groups set_groups] in Gr, Gd, Pr, Pd.
  rewrite dict_of_items_id in Gr, Pr by (apply nodup_keys_slice; exact Nd).
  rewrite dict_of_items_id in Gd, Pd by (apply nodup_keys_slice; exact Nd).
  pose proof (slice_to_from_app (groups d) size) as E.
  unfold __len__. split.
  - intros Hs.
    assert (Hz : slice_from (groups d) size = []).
    { unfold slice_from. apply slice_past_end. exact Hs. }
    rewrite Hz, app_nil_r in E.
    rewrite Gr, Gd, (Pr Hz), Hz, E. auto.
  - intros ->.
    assert (Hz : slice_to (groups d) 0 = []).
    { rewrite slice_to_inner by lia. reflexivity. }
    rewrite Hz in E. cbn [app] in E.
    rewrite Gr, Gd, (Pd Hz), Hz, E. auto.
Qed.

Lemma split_at_the_ends_witness :
  exists d' r,
    split G_rev 2 0 0 ds_example = Ok (d', r) /\
    groups r = [] /\ __len__ r = 0%Z /\ groups d' = groups ds_example.
Proof.
  destruct (split G_rev 2 0 0 ds_example) as [[d' r]|] eqn:E;
    [|vm_compute in E; discriminate].
  exists d', r. split; [reflexivity|].
  apply (split_at_the_ends G_rev 2 0 0 ds_example d' r).
  - repeat constructor; simpl; intuition lia.
  - exact E.
  - simpl. lia.
Defined.


End DatasetExtra.
